(** * wobble: combining per-order radial velocities (src/wobble/results.py)

    A shallow embedding of the [Results] class of wobble: the attribute
    store of a [Results] object, component registration ([add_component]),
    the design matrix ([get_design_matrix]), the weighted least-squares
    objective ([lnlike_sigmas]) and the driver ([combine_orders]).

    Numbers.  A numpy float64 is modelled as an extended real
    ([float64]): finite values carry an exact real (no rounding, no
    overflow), and [PInf], [NInf], [NaN] follow the IEEE rules numpy
    applies to them (signed zeros are not distinguished).

    External code.  numpy's LAPACK solver and scipy's BFGS optimizer are
    not part of the repository; the methods take them as parameters
    ([linalg_solve], [minimize]) and the theorems assume only their
    documented contracts. *)

From Stdlib Require Import Reals Lra Lia ClassicalEpsilon.
From stdpp Require Import gmap strings list.

(* ===================================================================== *)
(** * Floating-point values *)
(* ===================================================================== *)

Inductive float64 : Type :=
| Fin (x : R)
| PInf
| NInf
| NaN.

#[global] Instance float64_inhabited : Inhabited float64 := populate NaN.

Definition is_finite (a : float64) : bool :=
  match a with Fin _ => true | _ => false end.

Definition is_nan (a : float64) : bool :=
  match a with NaN => true | _ => false end.

(** [by_sign x p n z] selects on the sign of the real [x]. *)
Definition by_sign {A} (x : R) (p n z : A) : A :=
  if Rlt_dec 0 x then p else if Rlt_dec x 0 then n else z.

Definition fneg (a : float64) : float64 :=
  match a with
  | Fin x => Fin (- x)
  | PInf => NInf
  | NInf => PInf
  | NaN => NaN
  end.

Definition fadd (a b : float64) : float64 :=
  match a, b with
  | NaN, _ | _, NaN => NaN
  | Fin x, Fin y => Fin (x + y)
  | PInf, NInf | NInf, PInf => NaN
  | PInf, _ | _, PInf => PInf
  | NInf, _ | _, NInf => NInf
  end.

Definition fsub (a b : float64) : float64 := fadd a (fneg b).

Definition fmul (a b : float64) : float64 :=
  match a, b with
  | NaN, _ | _, NaN => NaN
  | Fin x, Fin y => Fin (x * y)
  | PInf, Fin y | Fin y, PInf => by_sign y PInf NInf NaN
  | NInf, Fin y | Fin y, NInf => by_sign y NInf PInf NaN
  | PInf, PInf | NInf, NInf => PInf
  | PInf, NInf | NInf, PInf => NInf
  end.

(** numpy array division: a zero divisor gives an infinity (or NaN for
    0/0) and a warning, never an exception. *)
Definition fdiv (a b : float64) : float64 :=
  match a, b with
  | NaN, _ | _, NaN => NaN
  | Fin x, Fin y =>
      if Req_dec_T y 0 then by_sign x PInf NInf NaN else Fin (x / y)
  | Fin _, (PInf | NInf) => Fin 0
  | PInf, Fin y => if Rlt_dec y 0 then NInf else PInf
  | NInf, Fin y => if Rlt_dec y 0 then PInf else NInf
  | (PInf | NInf), (PInf | NInf) => NaN
  end.

(** [x ** 2] *)
Definition fsquare (a : float64) : float64 := fmul a a.

(** [np.log] *)
Definition flog (a : float64) : float64 :=
  match a with
  | Fin x => if Rlt_dec 0 x then Fin (ln x)
             else if Req_dec_T x 0 then NInf else NaN
  | PInf => PInf
  | NInf | NaN => NaN
  end.

(** The order used for sorting; NaN is handled by the callers. *)
Definition fle (a b : float64) : bool :=
  match a, b with
  | NInf, _ | _, PInf => true
  | Fin x, Fin y => if Rle_dec x y then true else false
  | _, _ => false
  end.

(* ===================================================================== *)
(** * Arrays *)
(* ===================================================================== *)

(** The arithmetic shared by the array operations; it is instantiated at
    [float64] (the program) and at [R] (the exact reading used to state
    what the program computes). *)
Class Num (T : Type) := {
  nzero : T;
  nunit : T;
  nadd : T -> T -> T;
  nmul : T -> T -> T
}.

#[global] Instance float64_num : Num float64 :=
  {| nzero := Fin 0; nunit := Fin 1; nadd := fadd; nmul := fmul |}.

#[global] Instance R_num : Num R :=
  {| nzero := 0%R; nunit := 1%R; nadd := Rplus; nmul := Rmult |}.

Section ArrayOps.
Context {T : Type} `{Num T}.

(** [np.sum] of a one-dimensional array *)
Definition nsum (l : list T) : T := foldr nadd nzero l.

(** [np.dot] of two one-dimensional arrays of equal length *)
Definition dot (a b : list T) : T := nsum (zip_with nmul a b).

(** [np.zeros((m, n))] *)
Definition zeros (m n : nat) : list (list T) := replicate m (replicate n nzero).
End ArrayOps.

Section Shapes.
Context {A : Type}.

Definition nrows (X : list (list A)) : nat := length X.
Definition ncols (X : list (list A)) : nat := length (hd [] X).

(** every row of [X] has [n] entries and there are [m] rows *)
Definition has_shape (m n : nat) (X : list (list A)) : Prop :=
  length X = m /\ Forall (fun r => length r = n) X.

(** [X.flatten()], row-major *)
Definition flatten (X : list (list A)) : list A := concat X.

(** [X.T] for an array with [n] columns *)
Definition transpose_n (n : nat) (X : list (list A)) : list (list A) :=
  foldr (zip_with cons) (replicate n []) X.

Definition transpose (X : list (list A)) : list (list A) :=
  transpose_n (ncols X) X.

(** numpy broadcasting of one axis: an axis of length 1 is repeated *)
Definition stretch (k : nat) (l : list A) : list A :=
  match l with
  | [x] => replicate k x
  | _ => l
  end.

Definition bcast_dim (a b : nat) : option nat :=
  if a =? b then Some a
  else if a =? 1 then Some b
  else if b =? 1 then Some a
  else None.
End Shapes.

Section MatOps.
Context {T : Type} `{Num T}.

(** [np.dot(X, v)] for a two-dimensional [X] and one-dimensional [v] *)
Definition matvec (X : list (list T)) (v : list T) : list T :=
  map (fun r => dot r v) X.

(** [np.dot(X, Y)] for two-dimensional arrays:
    entry (i, j) is the sum over k of X[i, k] * Y[k, j] *)
Definition matmul (X Y : list (list T)) : list (list T) :=
  map (fun r => map (fun c => dot r c) (transpose Y)) X.
End MatOps.

(* ===================================================================== *)
(** * Exceptions *)
(* ===================================================================== *)

(** The exceptions the modelled methods can raise. *)
Inductive exn : Type :=
| AttributeError
| AssertionError
| IndexError
| ZeroDivisionError
| ValueError
| AxisError
| TypeError
| LinAlgError.

Inductive result (A : Type) : Type :=
| Ok (a : A)
| Raise (e : exn).
Arguments Ok {A} a.
Arguments Raise {A} e.

#[global] Instance result_ret : MRet result := fun A a => Ok a.
#[global] Instance result_bind : MBind result := fun A B f m =>
  match m with
  | Ok a => f a
  | Raise e => Raise e
  end.

Definition is_ok {A} (r : result A) : bool :=
  match r with Ok _ => true | Raise _ => false end.

(* ===================================================================== *)
(** * numpy operations with their shape checks *)
(* ===================================================================== *)

Abbreviation vector := (list float64).
Abbreviation matrix := (list (list float64)).

(** Elementwise binary operation on one-dimensional arrays, with
    broadcasting; incompatible lengths raise [ValueError]. *)
Definition bcast1 (f : float64 -> float64 -> float64) (x y : vector)
  : result vector :=
  match bcast_dim (length x) (length y) with
  | Some n => Ok (zip_with f (stretch n x) (stretch n y))
  | None => Raise ValueError
  end.

(** Elementwise binary operation on two-dimensional arrays, with
    broadcasting on each axis. *)
Definition bcast2 (f : float64 -> float64 -> float64) (X Y : matrix)
  : result matrix :=
  match bcast_dim (nrows X) (nrows Y), bcast_dim (ncols X) (ncols Y) with
  | Some m, Some n =>
      Ok (zip_with (zip_with f)
            (stretch m (map (stretch n) X))
            (stretch m (map (stretch n) Y)))
  | _, _ => Raise ValueError
  end.

(** [np.dot(X, Y)], both two-dimensional *)
Definition np_dot22 (X Y : matrix) : result matrix :=
  if ncols X =? nrows Y then Ok (matmul X Y) else Raise ValueError.

(** [np.dot(X, v)], [X] two-dimensional and [v] one-dimensional *)
Definition np_dot21 (X : matrix) (v : vector) : result vector :=
  if ncols X =? length v then Ok (matvec X v) else Raise ValueError.

(** [M[i, j] = v] for one in-range index pair *)
Definition set_item (M : matrix) (i j : nat) (v : float64) : result matrix :=
  match M !! i with
  | Some row =>
      if j <? length row then Ok (<[i := <[j := v]> row]> M)
      else Raise IndexError
  | None => Raise IndexError
  end.

(** [M[rows, cols] = v] with two index arrays: the entries
    (rows[k], cols[k]) are assigned in turn. *)
Definition set_fancy (M : matrix) (rows cols : list nat) (v : float64)
  : result matrix :=
  if length rows =? length cols then
    foldl (fun acc ij => M' ← acc; set_item M' ij.1 ij.2 v)
          (Ok M) (zip rows cols)
  else Raise IndexError.

(** [v[idx]] for a two-dimensional integer index array *)
Definition gather (v : vector) (idx : list (list nat)) : result matrix :=
  if forallb (forallb (fun i => i <? length v)) idx
  then Ok (map (map (fun i => v !!! i)) idx)
  else Raise IndexError.

(** [x[k:] = v] *)
Definition assign_from (k : nat) (x : vector) (v : float64) : vector :=
  take k x ++ replicate (length x - k) v.

(** Python's [1. / n] for an int [n] *)
Definition py_inv (n : nat) : result float64 :=
  if n =? 0 then Raise ZeroDivisionError else Ok (Fin (1 / INR n)).

(** ** Order statistics and moments *)

Fixpoint insert_sorted (x : float64) (l : vector) : vector :=
  match l with
  | [] => [x]
  | y :: l' => if fle x y then x :: l else y :: insert_sorted x l'
  end.

Definition sort_floats (l : vector) : vector := foldr insert_sorted [] l.

(** [np.mean] *)
Definition mean (l : vector) : float64 :=
  fdiv (nsum l) (Fin (INR (length l))).

(** [np.median] of one lane: NaN if the lane holds a NaN or is empty,
    otherwise the middle element of the sorted lane, or the mean of the
    two middle ones. *)
Definition median (l : vector) : float64 :=
  if existsb is_nan l then NaN
  else
    let s := sort_floats l in
    let n := length l in
    if n =? 0 then NaN
    else if Nat.even n then mean [s !!! (n / 2 - 1); s !!! (n / 2)]
    else s !!! (n / 2).

(** [np.var] of one lane (ddof = 0) *)
Definition var (l : vector) : float64 :=
  let mu := mean l in
  mean (map (fun x => fsquare (fsub x mu)) l).

(* ===================================================================== *)
(** * The Results object *)
(* ===================================================================== *)

(** Arrays of numbers with zero, one or two axes, and the 0-d array that
    numpy makes of None or of a string: it has no axis and holds no
    number. *)
Inductive ndarray : Type :=
| ND0 (x : float64)
| ND1 (v : vector)
| ND2 (m : matrix)
| NDobj (o : option string).

(** Values held by attributes. [VInt] holds the non-negative ints of the
    program: the counts R and N and the placeholder 0. *)
#[local] Unset Elimination Schemes.
Inductive value : Type :=
| VNone
| VInt (n : nat)
| VStr (s : string)
| VArr (a : ndarray)
| VList (l : list value).
#[local] Set Elimination Schemes.

(** A [Results] object is its attribute dictionary. *)
Abbreviation Results := (gmap string value).

Record Component := { name : string }.

Definition COMPONENT_NP_ATTRS : list string :=
  ["K"; "r"; "rvs_fixed"; "scale_by_airmass"; "learning_rate_rvs";
   "learning_rate_template"; "learning_rate_basis"; "L1_template";
   "L2_template"; "L1_basis_vectors"; "L2_basis_vectors";
   "L2_basis_weights"]%string.

Definition get_attr (self : Results) (k : string) : result value :=
  match self !! k with
  | Some v => Ok v
  | None => Raise AttributeError
  end.

Definition get_int (self : Results) (k : string) : result nat :=
  v ← get_attr self k;
  match v with
  | VInt n => Ok n
  | _ => Raise TypeError
  end.

(** an attribute that holds an array *)
Definition get_array (self : Results) (k : string) : result ndarray :=
  v ← get_attr self k;
  match v with
  | VArr a => Ok a
  | _ => Raise TypeError
  end.

Definition del_attr (self : Results) (k : string) : result Results :=
  match self !! k with
  | Some _ => Ok (delete k self)
  | None => Raise AttributeError
  end.

(** ** [np.asarray] *)

Definition as_scalar (v : value) : option float64 :=
  match v with
  | VInt n => Some (Fin (INR n))
  | VArr (ND0 x) => Some x
  | _ => None
  end.

Definition as_row (v : value) : option vector :=
  match v with
  | VArr (ND1 r) => Some r
  | VList l => mapM as_scalar l
  | _ => None
  end.

Definition same_lengths {A} (X : list (list A)) : bool :=
  forallb (fun r => length r =? ncols X) X.

(** An array is returned as it is; an int becomes a 0-d array; a list of
    numbers a 1-d array; a list of equally long rows a 2-d array; None and
    a string become 0-d arrays that hold the object. *)
Definition asarray (v : value) : result ndarray :=
  match v with
  | VArr a => Ok a
  | VInt n => Ok (ND0 (Fin (INR n)))
  | VList l =>
      match mapM as_scalar l with
      | Some xs => Ok (ND1 xs)
      | None =>
          match mapM as_row l with
          | Some rows =>
              if same_lengths rows then Ok (ND2 rows) else Raise ValueError
          | None => Raise ValueError
          end
      end
  | VNone => Ok (NDobj None)
  | VStr s => Ok (NDobj (Some s))
  end.

(** [a.flatten()], as an operand of arithmetic: numpy raises TypeError
    when it is asked to compute with None or with a string. *)
Definition nd_flatten (a : ndarray) : result vector :=
  match a with
  | ND0 x => Ok [x]
  | ND1 v => Ok v
  | ND2 m => Ok (flatten m)
  | NDobj _ => Raise TypeError
  end.

(** the two-dimensional view numpy broadcasts against a 2-d operand in
    arithmetic; TypeError for None or a string *)
Definition nd_atleast_2d (a : ndarray) : result matrix :=
  match a with
  | ND0 x => Ok [[x]]
  | ND1 v => Ok [v]
  | ND2 m => Ok m
  | NDobj _ => Raise TypeError
  end.

(** [np.median(a, axis=1)], [np.median(a, axis=0)], [np.var(a, axis=1)]
    need an array with two axes. *)
Definition nd_matrix (a : ndarray) : result matrix :=
  match a with
  | ND2 m => Ok m
  | _ => Raise AxisError
  end.

(** [np.tile(x[:, None], (1, n))] *)
Definition tile_columns (x : vector) (n : nat) : matrix :=
  map (fun a => replicate n a) x.

(** [np.tile(x, (m, 1))] *)
Definition tile_rows (x : vector) (m : nat) : matrix := replicate m x.

(* ===================================================================== *)
(** * External routines: numpy.linalg.solve and scipy.optimize.minimize *)
(* ===================================================================== *)

Definition to_real (a : float64) : option R :=
  match a with Fin x => Some x | _ => None end.

Definition vFin (v : list R) : vector := map Fin v.
Definition mFin (X : list (list R)) : matrix := map (map Fin) X.

(** [x] is the solution of the square system [A x = b], and the system
    is non-singular: the homogeneous system has the zero solution only. *)
Definition solves (A : list (list R)) (b x : list R) : Prop :=
  length x = length b /\
  matvec A x = b /\
  forall v, length v = length b ->
            matvec A v = replicate (length b) 0%R ->
            v = replicate (length b) 0%R.

(** The square system [A x = b] is non-singular: it has a solution and
    no other. *)
Definition nonsingular_system (A : list (list R)) (b : list R) : Prop :=
  exists x, solves A b x.

(** The contract of [np.linalg.solve] on a finite square system, in exact
    arithmetic: it returns the solution of a non-singular system and
    returns nothing else. Non-finite input is left unconstrained. *)
Definition linalg_solve_spec
    (solve : matrix -> vector -> result vector) : Prop :=
  forall (n : nat) (A : list (list R)) (b : list R),
    has_shape n n A -> length b = n ->
    (forall x, solves A b x -> solve (mFin A) (vFin b) = Ok (vFin x)) /\
    (forall fx, solve (mFin A) (vFin b) = Ok fx ->
                exists x, fx = vFin x /\ solves A b x).

(** A solver meeting the contract: the exact solution of a finite
    non-singular system, [LinAlgError] for a finite singular one, and NaN
    in every component when the input is not finite (LAPACK raises an
    error only on an exactly zero pivot). *)
Definition lapack_solve (A : matrix) (b : vector) : result vector :=
  if negb (same_lengths A && (ncols A =? nrows A)) then Raise LinAlgError
  else if negb (nrows A =? length b) then Raise ValueError
  else
    match mapM (mapM to_real) A, mapM to_real b with
    | Some Ar, Some br =>
        if excluded_middle_informative (exists x, solves Ar br x)
        then Ok (vFin (epsilon (inhabits []) (solves Ar br)))
        else Raise LinAlgError
    | _, _ => Ok (replicate (length b) NaN)
    end.

(** The objective handed to the optimizer is a bound method: it takes the
    parameter vector and the object, and returns a number and the object. *)
Definition objective : Type :=
  vector -> Results -> result (float64 * Results).

(** [objective_calls f k s s']: the object [s'] is reached from [s] by
    finitely many successful evaluations of the objective at parameter
    vectors of length [k]. *)
Inductive objective_calls (f : objective) (k : nat)
  : Results -> Results -> Prop :=
| calls_done s : objective_calls f k s s
| calls_step s p v s1 s2 :
    length p = k ->
    f p s = Ok (v, s1) ->
    objective_calls f k s1 s2 ->
    objective_calls f k s s2.

(** What is assumed of [minimize(f, x0, method='BFGS')['x']]: the answer
    has the length of the starting point, the optimizer touches the object
    only by evaluating the objective, and the starting point is evaluated
    first, so that an exception raised there propagates. *)
Definition minimize_spec
    (minimize : objective -> vector -> Results -> result (vector * Results))
  : Prop :=
  (forall f x0 s x s',
      minimize f x0 s = Ok (x, s') ->
      length x = length x0 /\ objective_calls f (length x0) s s') /\
  (forall f x0 s e, f x0 s = Raise e -> minimize f x0 s = Raise e).

(** An optimizer meeting the contract: it evaluates the starting point and
    stops there. *)
Definition minimize_at_start (f : objective) (x0 : vector) (s : Results)
  : result (vector * Results) :=
  '(_, s1) ← f x0 s; Ok (x0, s1).

(* ===================================================================== *)
(** * Methods of Results *)
(* ===================================================================== *)

(** [np.isin(name, self.component_names)] on a list of names *)
Definition isin (nm : string) (l : list value) : bool :=
  existsb (fun v => match v with VStr s => String.eqb nm s | _ => false end) l.

(** [setattr(self, basename+attr, [0 for r in range(self.R)])] *)
Definition set_order_list (basename : string) (self : result Results)
    (attr : string) : result Results :=
  s ← self;
  R ← get_int s "R";
  Ok (<[basename +:+ attr := VList (replicate R (VInt 0))]> s).

(** [setattr(self, basename+attr, np.empty((self.R,self.N)) + np.nan)] *)
Definition set_nan_array (basename : string) (self : result Results)
    (attr : string) : result Results :=
  s ← self;
  R ← get_int s "R";
  N ← get_int s "N";
  Ok (<[basename +:+ attr := VArr (ND2 (replicate R (replicate N NaN)))]> s).

Definition add_component (self : Results) (c : Component) : result Results :=
  names ← get_attr self "component_names";
  match names with
  | VList l =>
      if isin (name c) l then
        (* print("Results: A component of name ... has already been added.") *)
        Ok self
      else
        let self := <["component_names" := VList (l ++ [VStr (name c)])]> self in
        let basename := name c +:+ "_" in
        let s := foldl (set_nan_array basename) (Ok self) ["rvs"; "ivars"] in
        let s := foldl (set_order_list basename) s
                   ["template_xs"; "template_ys"; "basis_vectors";
                    "basis_weights"; "ys_predicted"] in
        foldl (set_order_list basename) s COMPONENT_NP_ATTRS
  | VStr s =>
      (* a string equal to the name tests true; otherwise .append fails *)
      if String.eqb (name c) s then Ok self else Raise AttributeError
  | _ => Raise AttributeError
  end.

(** [np.mgrid[:self.R, :self.N]] *)
Definition get_index_lists (self : Results)
  : result (list (list nat) * list (list nat)) :=
  R ← get_int self "R";
  N ← get_int self "N";
  Ok (map (fun r => replicate N r) (seq 0 R), replicate R (seq 0 N)).

Definition is_none (v : value) : bool :=
  match v with VNone => true | _ => false end.

Definition get_design_matrix (self : Results) (restart : bool)
  : result (matrix * Results) :=
  m ← get_attr self "M";
  if is_none m || restart then
    '(Rs, Ns) ← get_index_lists self;
    R ← get_int self "R";
    N ← get_int self "N";
    let ndata := R * N in
    let M0 := zeros ndata (N + R) in
    M1 ← set_fancy M0 (seq 0 ndata) (flatten Ns) (Fin 1);
    M2 ← set_fancy M1 (seq 0 ndata) (map (Nat.add N) (flatten Rs)) (Fin 1);
    Ok (M2, <["M" := VArr (ND2 M2)]> self)
  else
    match m with
    | VArr (ND2 M) => Ok (M, self)
    | _ => Raise TypeError
    end.

(** What [lnlike_sigmas] returns: the log-likelihood alone, or with the
    time-series and order RVs when [return_rvs] is set. *)
Inductive lnlike_value : Type :=
| Lnlike (lnlike : float64)
| LnlikeRvs (lnlike : float64) (rvs_N rvs_R : vector).

Section Methods.
Variable linalg_solve : matrix -> vector -> result vector.
Variable minimize :
  objective -> vector -> Results -> result (vector * Results).

(** Lines 165-168 of [lnlike_sigmas]: the design matrix with the
    constraint row ("mean of order velocities is zero") appended. *)
Definition design_with_constraint (self : Results) (restart : bool)
  : result (matrix * Results) :=
  '(M, self) ← get_design_matrix self restart;
  row0 ← match M with r :: _ => Ok r | [] => Raise IndexError end;
  let something := map (fun _ => Fin 0) row0 in
  w ← (R ← get_int self "R"; py_inv R);
  N ← get_int self "N";
  let something := assign_from N something w in
  Ok (M ++ [something], self).

(** Lines 169-172 of [lnlike_sigmas]: the effective inverse variances,
    flattened, with the weight of the last datum appended. *)
Definition effective_ivars (self : Results) (sigmas : vector)
  : result vector :=
  '(Rs, Ns) ← get_index_lists self;
  all_ivars ← (a ← get_array self "all_ivars"; nd_atleast_2d a);
  let inv_w := map (map (fdiv (Fin 1))) all_ivars in
  sig ← gather sigmas Rs;
  v ← bcast2 fadd inv_w (map (map fsquare) sig);
  let ivars := flatten (map (map (fdiv (Fin 1))) v) in
  Ok (ivars ++ [Fin 1]).

Definition lnlike_sigmas (self : Results) (sigmas : vector)
    (return_rvs restart : bool) : result (lnlike_value * Results) :=
  R ← get_int self "R";
  if negb (length sigmas =? R) then Raise AssertionError
  else
    '(M, self) ← design_with_constraint self restart;
    ivars ← effective_ivars self sigmas;
    wM ← bcast2 fmul (map (fun a => [a]) ivars) M;
    MTM ← np_dot22 (transpose M) wM;
    all_rvs ← (a ← get_array self "all_rvs"; nd_flatten a);
    let ys := all_rvs ++ [Fin 0] in
    wy ← bcast1 fmul ivars ys;
    MTy ← np_dot21 (transpose M) wy;
    xs ← linalg_solve MTM MTy;
    Mx ← np_dot21 M xs;
    resids ← bcast1 fsub ys Mx;
    ri ← bcast1 fmul resids ivars;
    rir ← bcast1 fmul ri resids;
    let logs := map (fun a => flog (fmul (Fin (2 * PI)) a)) ivars in
    terms ← bcast1 fsub rir logs;
    let lnlike := fmul (Fin (-0.5)) (nsum terms) in
    N ← get_int self "N";
    if return_rvs
    then Ok (LnlikeRvs lnlike (take N xs) (drop N xs), self)
    else Ok (Lnlike lnlike, self).

Definition opposite_lnlike_sigmas (pars : vector) (self : Results)
  : result (float64 * Results) :=
  '(v, self) ← lnlike_sigmas self pars false false;
  match v with
  | Lnlike l => Ok (fmul (Fin (-1)) l, self)
  | LnlikeRvs _ _ _ => Raise TypeError
  end.

(** Lines 147-150 of [combine_orders]: the initial guess. *)
Definition initial_guess (self : Results) : result vector :=
  all_rvs ← (a ← get_array self "all_rvs"; nd_matrix a);
  let x0_order_rvs := map median all_rvs in
  N ← get_int self "N";
  d ← bcast2 fsub all_rvs (tile_columns x0_order_rvs N);
  let x0_time_rvs := map median (transpose d) in
  R ← get_int self "R";
  rv_predictions ←
    bcast2 fadd (tile_columns x0_order_rvs N) (tile_rows x0_time_rvs R);
  d2 ← bcast2 fsub all_rvs rv_predictions;
  Ok (map (fun row => flog (var row)) d2).

Definition combine_orders (self : Results) (component_name : string)
  : result Results :=
  (* a name that is not registered is reported by a print only *)
  _ ← get_attr self "component_names";
  let basename := component_name +:+ "_" in
  all_rvs ← (v ← get_attr self (basename +:+ "rvs"); asarray v);
  let self := <["all_rvs" := VArr all_rvs]> self in
  all_ivars ← (v ← get_attr self (basename +:+ "ivars"); asarray v);
  let self := <["all_ivars" := VArr all_ivars]> self in
  x0_sigmas ← initial_guess self;
  let self := <["M" := VNone]> self in
  '(soln_sigmas, self) ← minimize opposite_lnlike_sigmas x0_sigmas self;
  '(v, self) ← lnlike_sigmas self soln_sigmas true false;
  match v with
  | LnlikeRvs lnlike rvs_N rvs_R =>
      let self := <[basename +:+ "time_rvs" := VArr (ND1 rvs_N)]> self in
      let self := <[basename +:+ "order_rvs" := VArr (ND1 rvs_R)]> self in
      let self :=
        <[basename +:+ "order_sigmas" := VArr (ND1 soln_sigmas)]> self in
      foldl (fun acc tmp_attr => s ← acc; del_attr s tmp_attr)
            (Ok self) ["M"; "all_rvs"; "all_ivars"]
  | Lnlike _ => Raise TypeError
  end.
End Methods.

(* ===================================================================== *)
(** * The design matrix in closed form *)
(* ===================================================================== *)

Section Design.
Context {T : Type} `{Num T}.

(** the row of datum (r, n): one in column n and in column N + r *)
Definition design_row (R N r n : nat) : list T :=
  <[N + r := nunit]> (<[n := nunit]> (replicate (N + R) nzero)).

(** the rows of all data, order by order *)
Definition design_rows (R N : nat) : list (list T) :=
  flat_map (fun r => map (design_row R N r) (seq 0 N)) (seq 0 R).

(** the last datum: the mean of the order velocities *)
Definition constraint_row (R N : nat) (w : T) : list T :=
  replicate N nzero ++ replicate R w.
End Design.

(* ===================================================================== *)
(** * The exact reading of the solve *)
(* ===================================================================== *)

(** What lines 166-177 of [lnlike_sigmas] compute on finite input, written
    over the reals step by step as the source has them; the theorems below
    show that the program on floats computes exactly these. *)

Abbreviation real := R.

(** rows scaled by weights: diag(d) X *)
Definition scale_rows (d : list real) (X : list (list real))
  : list (list real) :=
  zip_with (fun a r => map (Rmult a) r) d X.

(** effective precision 1 / (1/w + s^2); a zero nominal precision carries
    no information and gives precision zero *)
Definition ivar_exact (w s : real) : real :=
  if Req_dec_T w 0 then 0%R else (1 / (1 / w + s * s))%R.

(** the precisions of all data, row-major, then the last datum's *)
Definition exact_ivars (W : list (list real)) (s : list real) : list real :=
  flatten (zip_with (fun row sr => map (fun w => ivar_exact w sr) row) W s)
  ++ [1%R].

(** the design matrix with its constraint row *)
Definition exact_design (R N : nat) : list (list real) :=
  design_rows R N ++ [constraint_row R N (1 / INR R)%R].

(** the data, row-major, then the last datum *)
Definition exact_ys (A : list (list real)) : list real := flatten A ++ [0%R].

(** the normal equations  M^T diag(d) M x = M^T diag(d) y  for the
    precisions [d] of all data *)
Definition normal_matrix (R N : nat) (d : list real) : list (list real) :=
  matmul (transpose (exact_design R N)) (scale_rows d (exact_design R N)).

Definition normal_rhs (R N : nat) (A : list (list real)) (d : list real)
  : list real :=
  matvec (transpose (exact_design R N)) (zip_with Rmult d (exact_ys A)).

(** One step of Gaussian elimination, used to show that a square system
    with no kernel has a solution: the row [a :: t] less [a / p] times the
    pivot row [p :: r], without its first entry. *)
Definition eliminate (p : real) (r row : list real) : list real :=
  match row with
  | a :: t => zip_with Rminus t (map (Rmult (a / p)) r)
  | [] => []
  end.

(** The object as [combine_orders] leaves it for the solver: R orders and
    N epochs, the RVs [A] and their nominal precisions [W] stored as
    R x N arrays of finite numbers. *)
Record solver_input (self : Results) (R N : nat) (A W : list (list real))
  : Prop := {
  in_R : self !! "R"%string = Some (VInt R);
  in_N : self !! "N"%string = Some (VInt N);
  in_R_pos : 1 <= R;
  in_N_pos : 1 <= N;
  in_rvs : self !! "all_rvs"%string = Some (VArr (ND2 (mFin A)));
  in_ivars : self !! "all_ivars"%string = Some (VArr (ND2 (mFin W)));
  in_A : has_shape R N A;
  in_W : has_shape R N W
}.

(** The cache holds nothing ([self.M = None]), or a rebuild is asked for,
    or it holds the matrix built for these R and N. *)
Definition design_cache_ok (self : Results) (restart : bool) (R N : nat)
  : Prop :=
  exists m, self !! "M"%string = Some m /\
            (is_none m || restart = true \/ m = VArr (ND2 (design_rows R N))).

(** Lines 178-182 of [lnlike_sigmas], the steps after the solve, as a
    function of the solution. *)
Definition lnlike_finish (M : matrix) (ivars ys : vector) (self : Results)
    (return_rvs : bool) (xs : vector) : result (lnlike_value * Results) :=
  Mx ← np_dot21 M xs;
  resids ← bcast1 fsub ys Mx;
  ri ← bcast1 fmul resids ivars;
  rir ← bcast1 fmul ri resids;
  let logs := map (fun a => flog (fmul (Fin (2 * PI)) a)) ivars in
  terms ← bcast1 fsub rir logs;
  let lnlike := fmul (Fin (-0.5)) (nsum terms) in
  N ← get_int self "N";
  if return_rvs
  then Ok (LnlikeRvs lnlike (take N xs) (drop N xs), self)
  else Ok (Lnlike lnlike, self).

(** the effective precision if the parameter [p] were a log-variance:
    exp(p) added to 1/w *)
Definition logvar_ivar (w p : real) : real := (1 / (1 / w + exp p))%R.

(** the residuals y - M x of a candidate solution *)
Definition exact_resid (R N : nat) (A : list (list real)) (x : list real)
  : list real :=
  zip_with Rminus (exact_ys A) (matvec (exact_design R N) x).

(** Line 179 on finite residuals and precisions; a precision of zero
    makes the logarithm, and so the sum, infinite. *)
Definition lnlike_float (ivar resid : list real) : float64 :=
  fmul (Fin (-0.5))
       (nsum (zip_with fsub
                (vFin (zip_with Rmult (zip_with Rmult resid ivar) resid))
                (map (fun a => flog (fmul (Fin (2 * PI)) a)) (vFin ivar)))).

(** the value returned at a finite solution [x] under precisions [d] *)
Definition lnlike_at (R N : nat) (A : list (list real)) (d x : list real)
    (return_rvs : bool) : lnlike_value :=
  let l := lnlike_float d (exact_resid R N A x) in
  if return_rvs then LnlikeRvs l (vFin (take N x)) (vFin (drop N x))
  else Lnlike l.

(** noiseless data A[r, n] = t[n] + o[r] *)
Definition noiseless (t o : list real) : list (list real) :=
  map (fun o_r => map (fun t_n => (t_n + o_r)%R) t) o.

(** The object while the optimizer runs: R and N in place and a usable
    cache; [s0] is the object the optimizer was started on, and only the
    cache may differ from it. *)
Definition optimizing (R N : nat) (s0 s : Results) : Prop :=
  s !! "R"%string = Some (VInt R) /\
  s !! "N"%string = Some (VInt N) /\
  design_cache_ok s false R N /\
  forall k, k <> "M"%string -> s !! k = s0 !! k.

(* ===================================================================== *)
(** * Section 4.2 of the specification, by index *)
(* ===================================================================== *)

(** the sum of f i over i < n *)
Definition rsum (f : nat -> real) (n : nat) : real := nsum (map f (seq 0 n)).

(** X[r, n] *)
Definition entry (X : list (list real)) (r n : nat) : real :=
  nth n (nth r X []) 0%R.

Section SpecSolve.
Variables (R N : nat) (A W : list (list real)) (sigma : list real).

(** Steps 1 and 2: ivar[r, n] = 1 / (1 / W[r, n] + sigma[r]^2), flattened
    row-major (i = r N + n), with the precision 1 of the synthetic datum
    appended. *)
Definition spec_ivar (i : nat) : real :=
  if i <? R * N
  then (1 / (1 / entry W (i / N) (i mod N) + nth (i / N) sigma 0 ^ 2))%R
  else 1%R.

(** Step 2: the data flattened row-major, with the synthetic datum 0. *)
Definition spec_y (i : nat) : real :=
  if i <? R * N then entry A (i / N) (i mod N) else 0%R.

(** Section 4.1: M[r N + n, n] = M[r N + n, N + r] = 1, a last row with
    1/R in the last R columns, zero elsewhere. *)
Definition spec_M (i j : nat) : real :=
  if i <? R * N
  then if (j =? i mod N) || (j =? N + i / N) then 1%R else 0%R
  else if N <=? j then (1 / INR R)%R else 0%R.

(** (M x)[i] *)
Definition spec_predict (x : list real) (i : nat) : real :=
  rsum (fun k => spec_M i k * nth k x 0)%R (N + R).

(** Step 3: M^T diag(ivar) M x = M^T diag(ivar) y, column by column. *)
Definition spec_normal_equations (x : list real) : Prop :=
  forall j, j < N + R ->
    rsum (fun i => spec_M i j * spec_ivar i * spec_predict x i)%R (R * N + 1)
    = rsum (fun i => spec_M i j * spec_ivar i * spec_y i)%R (R * N + 1).

(** Step 4: lnlike = -0.5 * sum(resid^2 * ivar - log(2 pi ivar)). *)
Definition spec_lnlike (x : list real) : real :=
  (-0.5 * rsum (fun i => (spec_y i - spec_predict x i) ^ 2 * spec_ivar i
                         - ln (2 * PI * spec_ivar i)) (R * N + 1))%R.
End SpecSolve.

(* ===================================================================== *)
(** * Example objects *)
(* ===================================================================== *)

(** an object as [combine_orders] hands it to the solver *)
Definition solver_object (R N : nat) (rvs ivars : ndarray) : Results :=
  <["M"%string := VNone]>
    (<["all_ivars"%string := VArr ivars]>
       (<["all_rvs"%string := VArr rvs]>
          (<["N"%string := VInt N]> (<["R"%string := VInt R]> ∅)))).

(** an object holding the per-order results of one component *)
Definition component_object (R N : nat) (nm : string) (rvs ivars : value)
  : Results :=
  <[(nm +:+ "_ivars")%string := ivars]>
    (<[(nm +:+ "_rvs")%string := rvs]>
       (<["component_names"%string := VList [VStr nm]]>
          (<["N"%string := VInt N]> (<["R"%string := VInt R]> ∅)))).

(** the same object after a first call: the design matrix is cached *)
Definition cached_object (R N : nat) (rvs ivars : ndarray) : Results :=
  <["M"%string := VArr (ND2 (design_rows R N))]> (solver_object R N rvs ivars).

(** two orders, two epochs; the data are not additive *)
Definition demo_rvs : list (list real) := [[0; 8]; [0; 0]]%R.
Definition unit_ivars : list (list real) := [[1; 1]; [1; 1]]%R.

(** the sample variance of the residuals of the initial guess on
    [demo_rvs], for either order *)
Definition demo_var : real := 4%R.

(** the least-squares fit of [demo_rvs] under equal weights *)
Definition demo_fit : list real := [0; 4; 2; -2]%R.

(** the example object of the solver, and of the driver *)
Definition demo_object : Results :=
  solver_object 2 2 (ND2 (mFin demo_rvs)) (ND2 (mFin unit_ivars)).

Definition demo_results : Results :=
  component_object 2 2 "star" (VArr (ND2 (mFin demo_rvs)))
                   (VArr (ND2 (mFin unit_ivars))).

(** the object once [combine_orders] has read the component's arrays *)
Definition staged (self : Results) (all_rvs all_ivars : ndarray) : Results :=
  <["all_ivars"%string := VArr all_ivars]>
    (<["all_rvs"%string := VArr all_rvs]> self).

(** the driver's example with another array of nominal precisions *)
Definition demo_results_with (ivars : ndarray) : Results :=
  component_object 2 2 "star" (VArr (ND2 (mFin demo_rvs))) (VArr ivars).

(** one precision for all data: shape (1, 1) against RVs of shape (2, 2) *)
Definition scalar_ivars : matrix := [[Fin 1]].

(** infinite nominal precisions *)
Definition infinite_ivars : matrix := [[PInf; PInf]; [PInf; PInf]].

(** precisions of shape (1, 3): not broadcastable against (2, 2) *)
Definition wide_ivars : matrix := [[Fin 1; Fin 1; Fin 1]].

(** the example RVs with one entry missing *)
Definition nan_rvs : matrix := [[Fin 0; NaN]; [Fin 0; Fin 0]].

(** the least-squares fit of [demo_rvs] when the data of the first order
    weigh [w0] and those of the second [w1] *)
Definition demo_fit_weighted (w0 w1 : real) : list real :=
  [2 * (w1 - w0) / (w0 + w1); (6 * w0 + 2 * w1) / (w0 + w1); 2; -2]%R.

(** [X.shape] of a two-dimensional array *)
Definition shape_of {A} (X : list (list A)) : nat * nat := (nrows X, ncols X).

(* ===================================================================== *)
(** * The constructor *)
(* ===================================================================== *)

(** What [__init__] reads of a wobble Data object. *)
Record Data := {
  data_R : nat;
  data_N : nat;
  data_orders : value;
  data_origin_file : value;
  data_epochs : value
}.

(** [Results.__init__(data, filename)] (lines 30-43). [read] stands for the
    method that loads a saved object through h5py. Without a file name the
    attributes are copied from [data], and [data.R] fails on None; with
    both keywords the constructor only prints, and the object is left
    without attributes. *)
Definition init (read : Results -> string -> result Results)
    (data : option Data) (filename : option string) : result Results :=
  match filename with
  | None =>
      let self : Results := <["component_names" := VList []]> ∅ in
      match data with
      | Some d =>
          let self := <["R" := VInt (data_R d)]> self in
          let self := <["N" := VInt (data_N d)]> self in
          let self := <["orders" := data_orders d]> self in
          let self := <["origin_file" := data_origin_file d]> self in
          let self := <["epochs" := data_epochs d]> self in
          Ok self
      | None => Raise AttributeError
      end
  | Some f =>
      match data with
      | None => read ∅ f
      | Some _ =>
          (* print("Results: must supply either data or filename keywords.") *)
          Ok ∅
      end
  end.

(** the attributes [add_component] creates for a component, by the kind of
    their initial value (lines 68-76) *)
Definition COMPONENT_ARRAY_ATTRS : list string := ["rvs"; "ivars"]%string.

Definition COMPONENT_LIST_ATTRS : list string :=
  ["template_xs"; "template_ys"; "basis_vectors"; "basis_weights";
   "ys_predicted"]%string ++ COMPONENT_NP_ATTRS.

(** the suffixes of a string, used to tell attribute names apart *)
Fixpoint suffixes (t : string) : list string :=
  t :: match t with
       | EmptyString => []
       | String _ t' => suffixes t'
       end.

(* ===================================================================== *)
(** * Broadcasting in closed form *)
(* ===================================================================== *)

(** [np.broadcast_to(X, (m, n))] for an array each of whose axes has length
    1 or the length asked for: what [bcast2] makes of an operand *)
Definition broadcast_to (m n : nat) (X : matrix) : matrix :=
  stretch m (map (stretch n) X).

(** [d[:, None] * X] for [d] with one entry per row of [X] (line 173) *)
Definition weigh_rows (d : vector) (X : matrix) : matrix :=
  zip_with (fun a r => map (fmul a) r) d X.

(** the effective precisions of line 170 when every stored precision is
    +inf: 1 / sigma[r]**2 for each datum of order r, then the precision of
    the last datum *)
Definition ivars_of_sigmas (N : nat) (sigmas : vector) : vector :=
  flatten (map (fun s => replicate N (fdiv (Fin 1) (fsquare s))) sigmas)
  ++ [Fin 1].

(* ===================================================================== *)
(** * Proof automation *)
(* ===================================================================== *)

(** what remains to be inverted of a chain of binds that returned *)
Ltac bind_inv H :=
  repeat match type of H with
         | (?m ≫= _) = Ok _ =>
             let E := fresh "E" in
             destruct m as [?|?] eqn:E;
             [cbn [mbind result_bind] in H|discriminate H]
         | (let '(_, _) := ?p in _) = Ok _ => destruct p
         | (if ?b then _ else _) = Ok _ =>
             let E := fresh "E" in destruct b eqn:E; try discriminate H
         | (match ?x with _ => _ end) = Ok _ =>
             let E := fresh "E" in destruct x eqn:E; try discriminate H
         end.

Ltac decide_real c :=
  destruct c as [?H|?H];
  [ try (exfalso; cbn in *; lra) | try (exfalso; cbn in *; lra) ].

(** decide the comparisons of concrete reals met while evaluating *)
Ltac float_eval :=
  repeat (cbn -[Rplus Rminus Rmult Rdiv Ropp Rinv INR IZR ln exp PI];
    match goal with
    | |- context [Rle_dec ?a ?b] => decide_real (Rle_dec a b)
    | |- context [Rlt_dec ?a ?b] => decide_real (Rlt_dec a b)
    | |- context [Req_dec_T ?a ?b] => decide_real (Req_dec_T a b)
    end).

(** membership in a list that is written out *)
Ltac elem_of_list :=
  repeat first [apply list_elem_of_here | apply list_elem_of_further].

(* ===================================================================== *)
(** * Building the design matrix *)
(* ===================================================================== *)

(** ** The scatter assignment *)

Lemma set_item_middle (pre : matrix) row post j v :
  j < length row ->
  set_item (pre ++ row :: post) (length pre) j v
  = Ok (pre ++ <[j := v]> row :: post).
Proof.
  intros Hj. unfold set_item.
  rewrite list_lookup_middle by done.
  destruct (Nat.ltb_spec j (length row)); [|lia].
  f_equal. replace (length pre) with (length pre + 0) by lia.
  by rewrite insert_app_r.
Qed.

Lemma set_fancy_fold (v : float64) (M : matrix) :
  forall (pre : matrix) (cols : list nat),
    Forall2 (fun row j => j < length row) M cols ->
    foldl (fun acc ij => M' ← acc; set_item M' ij.1 ij.2 v)
          (Ok (pre ++ M)) (zip (seq (length pre) (length cols)) cols)
    = Ok (pre ++ zip_with (fun row j => <[j := v]> row) M cols).
Proof.
  induction M as [|row M IH]; intros pre cols Hall.
  - inversion Hall; subst. reflexivity.
  - inversion Hall as [|? j ? cols' Hj Hall']; subst.
    cbn [length seq zip zip_with foldl fst snd].
    change (Ok (pre ++ row :: M) ≫= _)
      with (set_item (pre ++ row :: M) (length pre) j v).
    rewrite set_item_middle by done.
    specialize (IH (pre ++ [<[j:=v]> row]) cols' Hall').
    rewrite length_app in IH. cbn [length] in IH.
    replace (length pre + 1) with (S (length pre)) in IH by lia.
    rewrite <- !app_assoc in IH. exact IH.
Qed.

Lemma Forall2_in_range (w : nat) (M : matrix) (cols : list nat) :
  length M = length cols ->
  Forall (fun r => length r = w) M ->
  Forall (fun j => j < w) cols ->
  Forall2 (fun row j => j < length row) M cols.
Proof.
  revert cols. induction M as [|row M IH]; intros [|j cols] Hlen HM Hc;
    try discriminate; constructor.
  - inversion HM; inversion Hc; subst. lia.
  - inversion HM; inversion Hc; subst. apply IH; auto.
Qed.

Lemma set_fancy_rows (w m : nat) (M : matrix) (cols : list nat) (v : float64) :
  length M = m -> length cols = m ->
  Forall (fun r => length r = w) M ->
  Forall (fun j => j < w) cols ->
  set_fancy M (seq 0 m) cols v
  = Ok (zip_with (fun row j => <[j := v]> row) M cols).
Proof.
  intros HM Hc Hw Hr. unfold set_fancy.
  rewrite length_seq, Hc, Nat.eqb_refl. rewrite <- Hc.
  apply (set_fancy_fold v M [] cols).
  apply (Forall2_in_range w); auto. lia.
Qed.

(** ** From the scatter to the closed form *)

Lemma replicate_mul {A} (m n : nat) (x : A) :
  replicate (m * n) x = concat (replicate m (replicate n x)).
Proof.
  induction m as [|m IH]; [done|].
  cbn [Nat.mul replicate concat]. by rewrite replicate_add, IH.
Qed.

Lemma design_block (z : vector) (N c : nat) :
  forall a,
    zip_with (fun row j => <[j := Fin 1]> row)
      (zip_with (fun row j => <[j := Fin 1]> row) (replicate N z) (seq a N))
      (replicate N c)
    = map (fun n => <[c := Fin 1]> (<[n := Fin 1]> z)) (seq a N).
Proof.
  induction N as [|N IH]; intros a; [done|].
  cbn. f_equal. apply IH.
Qed.

Lemma design_blocks (z : vector) (N : nat) (R : nat) :
  forall s,
    zip_with (fun row j => <[j := Fin 1]> row)
      (zip_with (fun row j => <[j := Fin 1]> row)
         (concat (replicate R (replicate N z)))
         (concat (replicate R (seq 0 N))))
      (map (Nat.add N) (concat (map (fun r => replicate N r) (seq s R))))
    = flat_map (fun r => map (fun n => <[N + r := Fin 1]> (<[n := Fin 1]> z))
                           (seq 0 N)) (seq s R).
Proof.
  induction R as [|R IH]; intros s; [done|].
  cbn [replicate concat seq map flat_map].
  rewrite fmap_app.
  rewrite zip_with_app by (by rewrite length_replicate, length_seq).
  rewrite zip_with_app.
  2:{ rewrite length_zip_with, length_replicate, length_seq, length_fmap,
        length_replicate. lia. }
  f_equal; [|apply IH].
  rewrite fmap_replicate. apply design_block.
Qed.

Lemma length_concat_replicate {A} (m n : nat) (l : list A) :
  length l = n -> length (concat (replicate m l)) = m * n.
Proof.
  intros Hl. induction m as [|m IH]; [done|].
  cbn [replicate concat]. rewrite length_app, IH, Hl. lia.
Qed.

Lemma length_concat_blocks {A B} (f : A -> list B) (n : nat) (l : list A) :
  (forall a, length (f a) = n) -> length (concat (map f l)) = length l * n.
Proof.
  intros Hf. induction l as [|a l IH]; [done|].
  cbn [map concat length]. rewrite length_app, IH, Hf. lia.
Qed.

Lemma Forall_concat_replicate {A} (P : A -> Prop) (m : nat) (l : list A) :
  Forall P l -> Forall P (concat (replicate m l)).
Proof.
  intros Hl. induction m as [|m IH]; [constructor|].
  cbn [replicate concat]. apply Forall_app; auto.
Qed.

Lemma get_design_matrix_build (self : Results) (restart : bool)
    (R N : nat) (m : value) :
  self !! "R"%string = Some (VInt R) ->
  self !! "N"%string = Some (VInt N) ->
  self !! "M"%string = Some m ->
  is_none m || restart = true ->
  get_design_matrix self restart
  = Ok (design_rows R N, <["M"%string := VArr (ND2 (design_rows R N))]> self).
Proof.
  intros HR HN HM Hb. unfold get_design_matrix, get_index_lists, get_int, get_attr.
  rewrite HM. cbn. rewrite Hb. rewrite HR, HN. cbn.
  unfold zeros, flatten.
  rewrite (set_fancy_rows (N + R) (R * N)).
  2:{ by rewrite length_replicate. }
  2:{ apply length_concat_replicate, length_seq. }
  2:{ apply Forall_replicate. apply length_replicate. }
  2:{ apply Forall_concat_replicate. apply Forall_seq. intros; lia. }
  cbn.
  rewrite (set_fancy_rows (N + R) (R * N)).
  2:{ rewrite length_zip_with, length_replicate.
      rewrite (length_concat_replicate R N) by apply length_seq. lia. }
  2:{ rewrite length_fmap.
      rewrite (length_concat_blocks _ N) by (intros; apply length_replicate).
      by rewrite length_seq. }
  2:{ apply Forall_forall. intros row Hin.
      apply elem_of_lookup_zip_with in Hin as (i & r0 & j & -> & Hr0 & _).
      rewrite length_insert.
      apply lookup_replicate in Hr0 as [-> _]. apply length_replicate. }
  2:{ apply Forall_fmap, Forall_concat, Forall_fmap.
      apply Forall_seq. intros r Hr. apply Forall_replicate. cbn. lia. }
  cbn. rewrite replicate_mul, design_blocks. reflexivity.
Qed.

(* ===================================================================== *)
(** * Linear algebra on lists of reals *)
(* ===================================================================== *)

Section RealAlgebra.
Local Open Scope R_scope.
Implicit Types (u v w p q : list R) (X Y : list (list R)).

Lemma dot_cons a b u v : dot (a :: u) (b :: v) = a * b + dot u v.
Proof. reflexivity. Qed.

Lemma dot_nil_l v : dot (T:=R) [] v = 0.
Proof. reflexivity. Qed.

Lemma dot_nil_r u : dot (T:=R) u [] = 0.
Proof. by destruct u. Qed.

Lemma dot_comm u v : dot u v = dot v u.
Proof.
  revert v. induction u as [|a u IH]; intros [|b v]; try reflexivity.
  rewrite !dot_cons, IH. ring.
Qed.

Lemma dot_app u1 u2 v1 v2 :
  length u1 = length v1 ->
  dot (u1 ++ u2) (v1 ++ v2) = dot u1 v1 + dot u2 v2.
Proof.
  revert v1. induction u1 as [|a u1 IH]; intros [|b v1] Hl; try discriminate.
  - cbn [app]. rewrite dot_nil_l. ring.
  - cbn [app]. rewrite !dot_cons, IH by (cbn in Hl; lia). ring.
Qed.

Lemma dot_replicate_0_l n v : dot (replicate n 0) v = 0.
Proof.
  revert v. induction n as [|n IH]; intros [|b v]; try reflexivity.
  cbn [replicate]. rewrite dot_cons, IH. ring.
Qed.

Lemma dot_replicate_0_r n u : dot u (replicate n 0) = 0.
Proof. rewrite dot_comm. apply dot_replicate_0_l. Qed.

Lemma dot_zip_plus u p q :
  length p = length q ->
  dot u (zip_with Rplus p q) = dot u p + dot u q.
Proof.
  revert p q. induction u as [|a u IH]; intros [|b p] [|c q] Hl;
    try discriminate; cbn [zip_with]; rewrite ?dot_nil_l, ?dot_nil_r;
    try ring.
  rewrite !dot_cons, IH by (cbn in Hl; lia). ring.
Qed.

Lemma dot_scale_r a u v : dot u (map (Rmult a) v) = a * dot u v.
Proof.
  revert v. induction u as [|b u IH]; intros [|c v]; cbn [map];
    rewrite ?dot_nil_l, ?dot_nil_r; try ring.
  rewrite !dot_cons, IH. ring.
Qed.

Lemma dot_replicate_r a n u :
  length u = n -> dot u (replicate n a) = a * nsum u.
Proof.
  revert n. induction u as [|b u IH]; intros [|n] Hl; try discriminate.
  - rewrite dot_nil_l. change (nsum (T:=R) []) with 0. ring.
  - cbn [replicate]. rewrite dot_cons, IH by (cbn in Hl; lia).
    change (nsum (b :: u)) with (b + nsum u). ring.
Qed.

Lemma length_matvec X v : length (matvec X v) = length X.
Proof. unfold matvec. by rewrite length_map. Qed.

Lemma matvec_app X Y v : matvec (X ++ Y) v = matvec X v ++ matvec Y v.
Proof. unfold matvec. by rewrite map_app. Qed.

(** ** The transpose *)

Lemma length_transpose_n {A} n (X : list (list A)) :
  Forall (fun r => length r = n) X -> length (transpose_n n X) = n.
Proof.
  unfold transpose_n. induction 1 as [|r X Hr _ IH]; cbn [foldr].
  - apply length_replicate.
  - rewrite length_zip_with, IH, Hr. lia.
Qed.

Lemma Forall_length_transpose_n {A} n (X : list (list A)) :
  Forall (fun r => length r = n) X ->
  Forall (fun c => length c = length X) (transpose_n n X).
Proof.
  unfold transpose_n. induction 1 as [|r X Hr HX IH]; cbn [foldr length].
  - by apply Forall_replicate.
  - apply Forall_forall. intros c Hc.
    apply elem_of_lookup_zip_with in Hc as (i & a & c' & -> & _ & Hc').
    cbn [length]. f_equal.
    rewrite Forall_forall in IH. apply IH. by eapply list_elem_of_lookup_2.
Qed.

Lemma matvec_zip_cons r X a w :
  length r = length X ->
  matvec (zip_with cons r X) (a :: w)
  = zip_with Rplus (map (Rmult a) r) (matvec X w).
Proof.
  revert X. induction r as [|b r IH]; intros [|c X] Hl; try discriminate;
    [reflexivity|].
  cbn [zip_with map matvec]. rewrite dot_cons. f_equal; [ring|].
  apply IH. cbn in Hl; lia.
Qed.

Lemma matvec_replicate_nil n w : matvec (replicate n []) w = replicate n 0.
Proof. induction n as [|n IH]; [done|]. cbn. by f_equal. Qed.

(** The transpose is the adjoint for the dot product. *)
Lemma dot_matvec_transpose n X u w :
  Forall (fun r => length r = n) X ->
  dot u (matvec (transpose_n n X) w) = dot (matvec X u) w.
Proof.
  intros HX. revert w. induction HX as [|r X Hr HX IH]; intros w.
  - unfold transpose_n. cbn [foldr]. rewrite matvec_replicate_nil.
    rewrite dot_replicate_0_r. reflexivity.
  - destruct w as [|a w].
    + cbn [matvec map]. rewrite dot_nil_r.
      assert (matvec (transpose_n n (r :: X)) [] = replicate n 0) as ->.
      { unfold matvec.
        rewrite <- (length_transpose_n n (r :: X)) at 2 by (by constructor).
        induction (transpose_n n (r :: X)) as [|c l IHl]; [done|].
        cbn. rewrite dot_nil_r. by f_equal. }
      apply dot_replicate_0_r.
    + change (transpose_n n (r :: X))
        with (zip_with cons r (transpose_n n X)).
      rewrite matvec_zip_cons by (by rewrite length_transpose_n).
      rewrite dot_zip_plus
        by (by rewrite length_map, length_matvec, length_transpose_n).
      rewrite dot_scale_r, IH.
      change (matvec (r :: X) u) with (dot r u :: matvec X u).
      rewrite dot_cons, (dot_comm r u). ring.
Qed.

Lemma ncols_transpose_n {A} n (X : list (list A)) :
  Forall (fun r => length r = n) X -> (0 < n)%nat ->
  ncols (transpose_n n X) = length X.
Proof.
  intros HX Hn. pose proof (Forall_length_transpose_n n X HX) as Hall.
  pose proof (length_transpose_n n X HX) as Hlen.
  unfold ncols. destruct (transpose_n n X) as [|c l]; [cbn in Hlen; lia|].
  cbn. by inversion Hall.
Qed.

(** ** Products *)

(** [np.dot] is associative on a matrix, a matrix and a vector. *)
Lemma matvec_matmul n X Y v :
  Forall (fun r => length r = n) Y -> ncols Y = n ->
  matvec (matmul X Y) v = matvec X (matvec Y v).
Proof.
  intros HY Hc. unfold matmul, transpose. rewrite Hc.
  unfold matvec at 1. rewrite map_map. unfold matvec at 2.
  apply map_ext. intros r.
  change (map (fun c => dot r c) (transpose_n n Y))
    with (map (fun c => dot r c) (transpose_n n Y)).
  assert (map (fun c => dot r c) (transpose_n n Y)
          = matvec (transpose_n n Y) r) as ->.
  { unfold matvec. apply map_ext. intros c. apply dot_comm. }
  rewrite dot_comm, (dot_matvec_transpose n) by done. apply dot_comm.
Qed.

Lemma matvec_scale_rows d X v :
  matvec (scale_rows d X) v = zip_with Rmult d (matvec X v).
Proof.
  revert X. induction d as [|a d IH]; intros [|r X]; try reflexivity.
  cbn [scale_rows zip_with matvec map]. f_equal; [|apply IH].
  rewrite dot_comm, dot_scale_r, dot_comm. reflexivity.
Qed.
End RealAlgebra.

(* ===================================================================== *)
(** * Finite arrays compute exactly *)
(* ===================================================================== *)

Lemma nsum_vFin (l : list real) : nsum (vFin l) = Fin (nsum l).
Proof.
  induction l as [|a l IH]; [reflexivity|].
  change (nsum (vFin (a :: l))) with (fadd (Fin a) (nsum (vFin l))).
  rewrite IH. reflexivity.
Qed.

Lemma zip_with_vFin (f : float64 -> float64 -> float64)
    (g : real -> real -> real) (a b : list real) :
  (forall x y, f (Fin x) (Fin y) = Fin (g x y)) ->
  zip_with f (vFin a) (vFin b) = vFin (zip_with g a b).
Proof.
  intros Hfg. revert b. induction a as [|x a IH]; intros [|y b]; try reflexivity.
  cbn. rewrite Hfg. f_equal. apply IH.
Qed.

Lemma dot_vFin (a b : list real) : dot (vFin a) (vFin b) = Fin (dot a b).
Proof.
  unfold dot. rewrite (zip_with_vFin _ Rmult) by reflexivity.
  apply nsum_vFin.
Qed.

Lemma matvec_mFin (X : list (list real)) (v : list real) :
  matvec (mFin X) (vFin v) = vFin (matvec X v).
Proof.
  unfold matvec, mFin, vFin. rewrite !map_map. apply map_ext.
  intros r. apply dot_vFin.
Qed.

Lemma ncols_mFin (X : list (list real)) : ncols (mFin X) = ncols X.
Proof. destruct X as [|r X]; [done|]. cbn. apply length_map. Qed.

Lemma nrows_mFin (X : list (list real)) : nrows (mFin X) = nrows X.
Proof. apply length_map. Qed.

Lemma transpose_n_mFin n (X : list (list real)) :
  transpose_n n (mFin X) = mFin (transpose_n n X).
Proof.
  unfold transpose_n. induction X as [|r X IH]; cbn [mFin map foldr].
  - induction n as [|n IHn]; [done|]. cbn. by f_equal.
  - unfold mFin in IH. rewrite IH. clear IH.
    generalize (foldr (zip_with cons) (replicate n []) X). intros Y.
    revert Y. induction r as [|a r IHr]; intros [|c Y]; try reflexivity.
    cbn. f_equal. apply IHr.
Qed.

Lemma transpose_mFin (X : list (list real)) :
  transpose (mFin X) = mFin (transpose X).
Proof. unfold transpose. rewrite ncols_mFin. apply transpose_n_mFin. Qed.

Lemma matmul_mFin (X Y : list (list real)) :
  matmul (mFin X) (mFin Y) = mFin (matmul X Y).
Proof.
  unfold matmul. rewrite transpose_mFin. unfold mFin.
  rewrite !map_map. apply map_ext. intros r.
  rewrite !map_map. apply map_ext. intros c. apply dot_vFin.
Qed.

Lemma design_rows_mFin (R N : nat) :
  design_rows (T:=float64) R N = mFin (design_rows (T:=real) R N).
Proof.
  unfold design_rows, mFin. generalize (seq 0 R). intros l.
  induction l as [|r l IH]; [done|].
  cbn [flat_map]. rewrite map_app, <- IH. f_equal.
  rewrite map_map. apply map_ext. intros n. unfold design_row.
  rewrite !list_fmap_insert, fmap_replicate. reflexivity.
Qed.

(** ** Broadcasting between equal shapes *)

Lemma stretch_same {A} (k : nat) (l : list A) : length l = k -> stretch k l = l.
Proof. destruct l as [|x [|y l]]; cbn; intros <-; reflexivity. Qed.

Lemma bcast_dim_same (n : nat) : bcast_dim n n = Some n.
Proof. unfold bcast_dim. by rewrite Nat.eqb_refl. Qed.

Lemma bcast1_same f (x y : vector) :
  length x = length y -> bcast1 f x y = Ok (zip_with f x y).
Proof.
  intros Hl. unfold bcast1. rewrite Hl, bcast_dim_same.
  by rewrite !stretch_same.
Qed.

Lemma ncols_has_shape {A} m n (X : list (list A)) :
  has_shape m n X -> 0 < m -> ncols X = n.
Proof.
  intros [Hm Hall] Hpos. destruct X as [|r X]; [cbn in Hm; lia|].
  by inversion Hall.
Qed.

Lemma map_stretch_same {A} n (X : list (list A)) :
  Forall (fun r => length r = n) X -> map (stretch n) X = X.
Proof.
  induction 1 as [|r X Hr _ IH]; [done|]. cbn. rewrite IH.
  by rewrite stretch_same.
Qed.

Lemma bcast2_same f m n (X Y : matrix) :
  has_shape m n X -> has_shape m n Y -> 0 < m ->
  bcast2 f X Y = Ok (zip_with (zip_with f) X Y).
Proof.
  intros HX HY Hm. unfold bcast2.
  rewrite (ncols_has_shape m n X), (ncols_has_shape m n Y) by done.
  destruct HX as [HX1 HX2], HY as [HY1 HY2]. unfold nrows.
  rewrite HX1, HY1, !bcast_dim_same.
  rewrite !map_stretch_same by done. by rewrite !stretch_same.
Qed.

Lemma has_shape_mFin m n (X : list (list real)) :
  has_shape m n X -> has_shape m n (mFin X).
Proof.
  intros [H1 H2]. unfold mFin. split; [by rewrite length_map|].
  apply Forall_fmap. eapply Forall_impl; [exact H2|].
  intros r Hr. cbn. by rewrite length_fmap.
Qed.

(* ===================================================================== *)
(** * The solver on finite input *)
(* ===================================================================== *)

Lemma get_design_matrix_cached (self : Results) (restart : bool) (R N : nat) :
  self !! "R"%string = Some (VInt R) ->
  self !! "N"%string = Some (VInt N) ->
  design_cache_ok self restart R N ->
  get_design_matrix self restart
  = Ok (design_rows R N, <["M"%string := VArr (ND2 (design_rows R N))]> self).
Proof.
  intros HR HN (m & HM & [Hb | ->]).
  - by eapply get_design_matrix_build.
  - destruct restart.
    + by eapply get_design_matrix_build.
    + unfold get_design_matrix, get_attr. rewrite HM. cbn.
      by rewrite insert_id.
Qed.

Lemma length_design_rows {T} `{Num T} (R N : nat) :
  length (design_rows (T:=T) R N) = R * N.
Proof.
  unfold design_rows. rewrite flat_map_concat_map.
  rewrite (length_concat_blocks _ N), length_seq; [done|].
  intros r. by rewrite length_map, length_seq.
Qed.

Lemma length_design_row {T} `{Num T} (R N r n : nat) :
  length (design_row (T:=T) R N r n) = N + R.
Proof. unfold design_row. by rewrite !length_insert, length_replicate. Qed.

Lemma Forall_design_rows {T} `{Num T} (R N : nat) :
  Forall (fun r => length r = N + R) (design_rows (T:=T) R N).
Proof.
  unfold design_rows. rewrite flat_map_concat_map.
  apply Forall_concat, Forall_fmap, Forall_forall. intros r _.
  apply Forall_fmap, Forall_forall. intros n _. apply length_design_row.
Qed.

Lemma has_shape_exact_design (R N : nat) :
  has_shape (R * N + 1) (N + R) (exact_design R N).
Proof.
  unfold exact_design. split.
  - rewrite length_app, length_design_rows. reflexivity.
  - apply Forall_app. split; [apply Forall_design_rows|].
    constructor; [|constructor]. unfold constraint_row.
    by rewrite length_app, !length_replicate.
Qed.

Lemma design_rows_head {T} `{Num T} (R N : nat) :
  1 <= R -> 1 <= N ->
  exists rest, design_rows (T:=T) R N = design_row R N 0 0 :: rest.
Proof.
  intros HR HN. destruct R as [|R]; [lia|]. destruct N as [|N]; [lia|].
  unfold design_rows. cbn [seq flat_map map app]. eauto.
Qed.

Lemma design_with_constraint_exact (self : Results) (restart : bool)
    (R N : nat) :
  self !! "R"%string = Some (VInt R) ->
  self !! "N"%string = Some (VInt N) ->
  1 <= R -> 1 <= N ->
  design_cache_ok self restart R N ->
  design_with_constraint self restart
  = Ok (mFin (exact_design R N),
        <["M"%string := VArr (ND2 (design_rows R N))]> self).
Proof.
  intros HR HN HR1 HN1 Hc. unfold design_with_constraint.
  rewrite (get_design_matrix_cached self restart R N) by done. cbn.
  destruct (design_rows_head (T:=float64) R N HR1 HN1) as [rest Hrest].
  rewrite Hrest. cbn. rewrite <- Hrest.
  unfold get_int, get_attr.
  rewrite !lookup_insert_ne by done. rewrite HR, HN. cbn.
  unfold py_inv. destruct (Nat.eqb_spec R 0) as [->|_]; [lia|]. cbn.
  f_equal. f_equal. unfold exact_design, mFin. rewrite map_app.
  rewrite app_comm_cons, <- Hrest.
  f_equal; [apply design_rows_mFin|]. cbn. f_equal.
  unfold assign_from, constraint_row.
  rewrite length_map, length_design_row.
  rewrite map_app, !fmap_replicate.
  replace (N + R - N) with R by lia. f_equal.
  assert (Hl : forall k (l : vector),
             take k (map (fun _ => Fin 0) l)
             = replicate (min k (length l)) (Fin 0%R)).
  { clear. intros k l. revert k. induction l as [|a l IH]; intros [|k]; try done.
    cbn. f_equal. apply IH. }
  rewrite Hl, length_design_row. f_equal. lia.
Qed.

(** ** The effective precisions *)

Lemma ivar_float_exact (w s : real) :
  (0 <= w)%R ->
  fdiv (Fin 1) (fadd (fdiv (Fin 1) (Fin w)) (fsquare (Fin s)))
  = Fin (ivar_exact w s).
Proof.
  intros Hw. unfold ivar_exact, fdiv at 2.
  destruct (Req_dec_T w 0) as [->|Hne].
  - unfold by_sign. destruct (Rlt_dec 0 1) as [_|Hn]; [|exfalso; lra].
    reflexivity.
  - cbn. destruct (Req_dec_T (1 / w + s * s) 0) as [Hz|_]; [|reflexivity].
    exfalso. assert (0 < 1 / w)%R.
    { apply Rdiv_lt_0_compat; lra. }
    nra.
Qed.

Lemma ivar_exact_pos (w s : real) : (0 < w)%R -> (0 < ivar_exact w s)%R.
Proof.
  intros Hw. unfold ivar_exact. destruct (Req_dec_T w 0); [lra|].
  assert (0 < 1 / w)%R by (apply Rdiv_lt_0_compat; lra).
  apply Rdiv_lt_0_compat; nra.
Qed.

Lemma ivar_exact_nonneg (w s : real) : (0 <= w)%R -> (0 <= ivar_exact w s)%R.
Proof.
  intros Hw. unfold ivar_exact. destruct (Req_dec_T w 0); [lra|].
  assert (Hp : (0 < w)%R) by lra. apply (ivar_exact_pos w s) in Hp.
  unfold ivar_exact in Hp. destruct (Req_dec_T w 0); [done|]. by left.
Qed.

Lemma map_lookup_total_seq {A B} `{Inhabited A} (f : A -> B) (l pre : list A) :
  map (fun i => f ((pre ++ l) !!! i)) (seq (length pre) (length l)) = map f l.
Proof.
  revert pre. induction l as [|a l IH]; intros pre; [done|].
  cbn [length seq map]. f_equal.
  - f_equal. apply list_lookup_total_middle. done.
  - specialize (IH (pre ++ [a])). rewrite length_app in IH. cbn in IH.
    rewrite <- app_assoc in IH. cbn in IH.
    replace (length pre + 1) with (S (length pre)) in IH by lia. exact IH.
Qed.

Lemma gather_rows (s : list real) (R N : nat) :
  length s = R ->
  gather (vFin s) (map (fun r => replicate N r) (seq 0 R))
  = Ok (map (fun a => replicate N (Fin a)) s).
Proof.
  intros Hs. unfold gather.
  assert (forallb (forallb (fun i => i <? length (vFin s)))
            (map (fun r => replicate N r) (seq 0 R)) = true) as ->.
  { apply forallb_forall. intros row Hin. apply in_map_iff in Hin
      as (r & <- & Hr). apply in_seq in Hr.
    apply forallb_forall. intros i Hi.
    apply list_elem_of_In, elem_of_replicate in Hi as [-> _]. apply Nat.ltb_lt. unfold vFin. rewrite length_map. lia. }
  f_equal. rewrite map_map.
  transitivity (map (fun x => replicate N x) (vFin s));
    [|unfold vFin; by rewrite map_map].
  rewrite <- (map_lookup_total_seq (fun x => replicate N x) (vFin s) []).
  cbn [length app]. unfold vFin at 3. rewrite length_map, Hs.
  apply map_ext. intros r. apply (fmap_replicate (fun i => vFin s !!! i)).
Qed.

Lemma ivar_row_exact (row : list real) (sr : real) (N : nat) :
  length row = N ->
  Forall (fun w => (0 <= w)%R) row ->
  map (fdiv (Fin 1))
      (zip_with fadd (map (fdiv (Fin 1)) (map Fin row))
                     (map fsquare (replicate N (Fin sr))))
  = vFin (map (fun w => ivar_exact w sr) row).
Proof.
  intros Hl Hpos. revert N Hl.
  induction Hpos as [|w row Hw _ IH]; intros [|N] Hl; try discriminate;
    [reflexivity|].
  cbn [map replicate zip_with vFin]. rewrite ivar_float_exact by done.
  f_equal. apply IH. cbn in Hl. lia.
Qed.

Lemma ivar_rows_exact (W : list (list real)) (s : list real) (N : nat) :
  Forall (fun r => length r = N) W ->
  Forall (Forall (fun w => (0 <= w)%R)) W ->
  map (map (fdiv (Fin 1)))
      (zip_with (zip_with fadd)
         (map (map (fdiv (Fin 1))) (mFin W))
         (map (map fsquare) (map (fun a => replicate N (Fin a)) s)))
  = map vFin (zip_with (fun row sr => map (fun w => ivar_exact w sr) row) W s).
Proof.
  intros Hlen Hpos. revert s.
  induction W as [|row W IH]; intros [|sr s]; try reflexivity.
  inversion Hlen; inversion Hpos; subst.
  cbn [mFin map zip_with]. rewrite ivar_row_exact by done.
  f_equal. apply IH; done.
Qed.

Lemma vFin_app (a b : list real) : vFin (a ++ b) = vFin a ++ vFin b.
Proof. apply map_app. Qed.

Lemma vFin_flatten (X : list (list real)) :
  vFin (flatten X) = flatten (mFin X).
Proof.
  unfold flatten, vFin, mFin. induction X as [|r X IH]; [done|].
  cbn. by rewrite map_app, IH.
Qed.

Lemma length_vFin (a : list real) : length (vFin a) = length a.
Proof. apply length_map. Qed.

Lemma effective_ivars_exact (self : Results) (R N : nat)
    (W : list (list real)) (s : list real) :
  self !! "R"%string = Some (VInt R) ->
  self !! "N"%string = Some (VInt N) ->
  self !! "all_ivars"%string = Some (VArr (ND2 (mFin W))) ->
  has_shape R N W -> 1 <= R -> length s = R ->
  Forall (Forall (fun w => (0 <= w)%R)) W ->
  effective_ivars self (vFin s) = Ok (vFin (exact_ivars W s)).
Proof.
  intros HR HN HW HsW HR1 Hs Hpos.
  unfold effective_ivars, get_index_lists, get_array, get_int, get_attr.
  rewrite HR, HN, HW. cbn [mbind result_bind nd_atleast_2d].
  rewrite gather_rows by done. cbn [mbind result_bind].
  rewrite (bcast2_same _ R N).
  - cbn [mbind result_bind]. f_equal. unfold exact_ivars.
    rewrite vFin_app, vFin_flatten. f_equal. unfold mFin at 2. f_equal.
    apply ivar_rows_exact; [apply HsW|done].
  - destruct HsW as [H1 H2]. unfold mFin.
    split; [by rewrite !length_map|].
    apply Forall_fmap, Forall_fmap. eapply Forall_impl; [exact H2|].
    intros r Hr. cbn. by rewrite !length_fmap.
  - split; [by rewrite !length_map|].
    apply Forall_fmap, Forall_fmap, Forall_forall. intros a _. cbn.
    by rewrite length_fmap, length_replicate.
  - lia.
Qed.

(** ** Shapes of the exact quantities *)

Lemma length_flatten_shape {A} (m n : nat) (X : list (list A)) :
  has_shape m n X -> length (flatten X) = m * n.
Proof.
  intros [Hm Hall]. subst m. unfold flatten.
  induction Hall as [|r X Hr _ IH]; [done|].
  cbn [concat length]. rewrite length_app, IH, Hr. lia.
Qed.

Lemma length_exact_ivars (R N : nat) (W : list (list real)) (s : list real) :
  has_shape R N W -> length s = R -> length (exact_ivars W s) = R * N + 1.
Proof.
  intros [HW1 HW2] Hs. unfold exact_ivars. rewrite length_app. cbn [length].
  f_equal. apply length_flatten_shape. split.
  - rewrite length_zip_with. lia.
  - apply Forall_forall. intros r Hr.
    apply elem_of_lookup_zip_with in Hr as (i & row & sr & -> & Hrow & _).
    rewrite length_map. rewrite Forall_forall in HW2. apply HW2.
    by eapply list_elem_of_lookup_2.
Qed.

Lemma length_exact_ys (R N : nat) (A : list (list real)) :
  has_shape R N A -> length (exact_ys A) = R * N + 1.
Proof.
  intros HA. unfold exact_ys. rewrite length_app. cbn [length].
  by rewrite (length_flatten_shape R N).
Qed.

Lemma bcast_dim_one (n : nat) : bcast_dim 1 n = Some n.
Proof.
  unfold bcast_dim. destruct (Nat.eqb_spec 1 n) as [<-|_]; reflexivity.
Qed.

Lemma zip_with_fmul_replicate (a : real) (r : list real) (n : nat) :
  length r = n ->
  zip_with fmul (replicate n (Fin a)) (vFin r) = vFin (map (Rmult a) r).
Proof.
  intros <-. induction r as [|b r IH]; [done|]. cbn. f_equal. apply IH.
Qed.

(** [d[:, None] * M] scales the rows of [M]. *)
Lemma bcast2_scale_rows (L n : nat) (d : list real) (M : list (list real)) :
  has_shape L n M -> length d = L -> 0 < L ->
  bcast2 fmul (map (fun a => [a]) (vFin d)) (mFin M)
  = Ok (mFin (scale_rows d M)).
Proof.
  intros HM Hd HL. unfold bcast2.
  assert (ncols (map (fun a => [a]) (vFin d)) = 1) as ->.
  { destruct d; [cbn in Hd; lia|reflexivity]. }
  rewrite ncols_mFin, (ncols_has_shape L n M) by done.
  unfold nrows. rewrite !length_map, length_vFin, Hd. unfold mFin at 1.
  destruct HM as [HM1 HM2]. rewrite length_map, HM1, bcast_dim_same, bcast_dim_one.
  f_equal. rewrite (map_stretch_same n (mFin M)).
  2:{ apply has_shape_mFin with (m := L). by split. }
  rewrite !stretch_same.
  2:{ unfold mFin. by rewrite length_map. }
  2:{ by rewrite !length_map, length_vFin. }
  clear Hd HL HM1. revert L d. induction HM2 as [|r M Hr _ IH]; intros L d.
  - destruct d; reflexivity.
  - destruct d as [|a d]; [reflexivity|].
    cbn [vFin map zip_with scale_rows mFin stretch].
    rewrite zip_with_fmul_replicate by done. f_equal. apply (IH L).
Qed.

Lemma transpose_shape (L n : nat) (M : list (list real)) :
  has_shape L n M -> 0 < L -> 0 < n ->
  transpose M = transpose_n n M /\
  ncols (transpose M) = L /\
  Forall (fun c => length c = L) (transpose M) /\
  length (transpose M) = n.
Proof.
  intros HM HL Hn. unfold transpose.
  rewrite (ncols_has_shape L n M) by done. destruct HM as [HM1 HM2].
  split; [done|]. split; [|split].
  - rewrite ncols_transpose_n by done. done.
  - rewrite <- HM1. by apply Forall_length_transpose_n.
  - by apply length_transpose_n.
Qed.

(** ** The solver up to the linear solve *)

Lemma np_dot21_ok (X : matrix) (v : vector) :
  ncols X = length v -> np_dot21 X v = Ok (matvec X v).
Proof. intros Hl. unfold np_dot21. by rewrite Hl, Nat.eqb_refl. Qed.

Lemma np_dot22_ok (X Y : matrix) :
  ncols X = nrows Y -> np_dot22 X Y = Ok (matmul X Y).
Proof. intros Hl. unfold np_dot22. by rewrite Hl, Nat.eqb_refl. Qed.

Lemma get_int_lookup (self : Results) (k : string) (n : nat) :
  self !! k = Some (VInt n) -> get_int self k = Ok n.
Proof. intros Hk. unfold get_int, get_attr. by rewrite Hk. Qed.

Lemma get_array_lookup (self : Results) (k : string) (a : ndarray) :
  self !! k = Some (VArr a) -> get_array self k = Ok a.
Proof. intros Hk. unfold get_array, get_attr. by rewrite Hk. Qed.

Lemma length_scale_rows (d : list real) (M : list (list real)) :
  length (scale_rows d M) = min (length d) (length M).
Proof. apply length_zip_with. Qed.

Lemma effective_ivars_cache (self : Results) (v : value) (sigmas : vector) :
  effective_ivars (<["M"%string := v]> self) sigmas
  = effective_ivars self sigmas.
Proof.
  unfold effective_ivars, get_index_lists, get_array, get_int, get_attr.
  by rewrite !lookup_insert_ne.
Qed.

(** The solver up to the solve, for any object and parameters whose
    effective precisions come out finite. *)
Lemma lnlike_sigmas_prefix_gen
    (linalg_solve : matrix -> vector -> result vector)
    (self : Results) (R N : nat) (A : list (list real)) (d : list real)
    (sigmas : vector) (return_rvs restart : bool) :
  self !! "R"%string = Some (VInt R) ->
  self !! "N"%string = Some (VInt N) ->
  1 <= R -> 1 <= N ->
  self !! "all_rvs"%string = Some (VArr (ND2 (mFin A))) ->
  has_shape R N A ->
  design_cache_ok self restart R N ->
  length sigmas = R ->
  effective_ivars self sigmas = Ok (vFin d) ->
  length d = R * N + 1 ->
  lnlike_sigmas linalg_solve self sigmas return_rvs restart
  = (xs ← linalg_solve (mFin (normal_matrix R N d))
                       (vFin (normal_rhs R N A d));
     lnlike_finish (mFin (exact_design R N)) (vFin d) (vFin (exact_ys A))
                   (<["M"%string := VArr (ND2 (design_rows R N))]> self)
                   return_rvs xs).
Proof.
  intros HR HN HR1 HN1 HA HsA Hc Hs Hiv Hd.
  pose proof (has_shape_exact_design R N) as HM.
  assert (HL : 0 < R * N + 1) by lia.
  assert (Hn : 0 < N + R) by lia.
  destruct (transpose_shape _ _ _ HM HL Hn) as (HT & HTc & HTall & HTlen).
  unfold lnlike_sigmas. rewrite (get_int_lookup self "R" R HR).
  cbn [mbind result_bind]. rewrite Hs, Nat.eqb_refl.
  cbn [negb]. rewrite (design_with_constraint_exact self restart R N) by done.
  cbn [mbind result_bind].
  rewrite effective_ivars_cache, Hiv.
  cbn [mbind result_bind].
  rewrite (bcast2_scale_rows (R * N + 1) (N + R)); try done.
  cbn [mbind result_bind].
  rewrite transpose_mFin. rewrite np_dot22_ok.
  2:{ rewrite ncols_mFin, HTc, nrows_mFin. unfold nrows.
      rewrite length_scale_rows, Hd.
      destruct HM as [HM1 HM2]. rewrite HM1. lia. }
  cbn [mbind result_bind].
  rewrite (get_array_lookup _ "all_rvs" (ND2 (mFin A)))
    by (by rewrite lookup_insert_ne).
  cbn [mbind result_bind nd_flatten].
  assert (flatten (mFin A) ++ [Fin 0] = vFin (exact_ys A)) as ->.
  { unfold exact_ys. by rewrite vFin_app, vFin_flatten. }
  rewrite bcast1_same.
  2:{ by rewrite !length_vFin, Hd, (length_exact_ys R N). }
  cbn [mbind result_bind]. rewrite (zip_with_vFin _ Rmult) by reflexivity.
  rewrite np_dot21_ok.
  2:{ rewrite ncols_mFin, HTc, length_vFin, length_zip_with.
      rewrite Hd, (length_exact_ys R N) by done. lia. }
  cbn [mbind result_bind].
  rewrite matvec_mFin, matmul_mFin. reflexivity.
Qed.

Lemma lnlike_sigmas_prefix
    (linalg_solve : matrix -> vector -> result vector)
    (self : Results) (R N : nat) (A W : list (list real)) (s : list real)
    (return_rvs restart : bool) :
  solver_input self R N A W ->
  design_cache_ok self restart R N ->
  length s = R ->
  Forall (Forall (fun w => (0 <= w)%R)) W ->
  lnlike_sigmas linalg_solve self (vFin s) return_rvs restart
  = (xs ← linalg_solve (mFin (normal_matrix R N (exact_ivars W s)))
                       (vFin (normal_rhs R N A (exact_ivars W s)));
     lnlike_finish (mFin (exact_design R N)) (vFin (exact_ivars W s))
                   (vFin (exact_ys A))
                   (<["M"%string := VArr (ND2 (design_rows R N))]> self)
                   return_rvs xs).
Proof.
  intros [HR HN HR1 HN1 HA HW HsA HsW] Hc Hs Hpos.
  apply lnlike_sigmas_prefix_gen; try done.
  - by rewrite length_vFin.
  - by apply (effective_ivars_exact self R N).
  - by apply length_exact_ivars.
Qed.

(** ** The solver after the linear solve *)

Lemma lnlike_finish_exact (self : Results) (R N : nat)
    (A : list (list real)) (d x : list real) (return_rvs : bool) :
  self !! "N"%string = Some (VInt N) ->
  has_shape R N A -> length d = R * N + 1 ->
  length x = N + R ->
  lnlike_finish (mFin (exact_design R N)) (vFin d)
                (vFin (exact_ys A)) self return_rvs (vFin x)
  = Ok (lnlike_at R N A d x return_rvs, self).
Proof.
  intros HN HA Hd Hx. unfold lnlike_finish.
  pose proof (has_shape_exact_design R N) as HM.
  pose proof (length_exact_ys R N A HA) as Hy.
  rewrite np_dot21_ok.
  2:{ rewrite ncols_mFin, (ncols_has_shape _ _ _ HM), length_vFin by lia.
      done. }
  cbn [mbind result_bind]. rewrite matvec_mFin.
  assert (Hmx : length (matvec (exact_design R N) x) = R * N + 1).
  { rewrite length_matvec. apply HM. }
  rewrite bcast1_same by (by rewrite !length_vFin, Hy, Hmx).
  cbn [mbind result_bind].
  rewrite (zip_with_vFin _ Rminus) by reflexivity.
  fold (exact_resid R N A x).
  assert (Hr : length (exact_resid R N A x) = R * N + 1).
  { unfold exact_resid. rewrite length_zip_with, Hy, Hmx. lia. }
  rewrite bcast1_same by (by rewrite !length_vFin, Hr, Hd).
  cbn [mbind result_bind].
  rewrite (zip_with_vFin _ Rmult) by reflexivity.
  rewrite bcast1_same
    by (by rewrite !length_vFin, length_zip_with, Hr, Hd, Nat.min_id).
  cbn [mbind result_bind].
  rewrite (zip_with_vFin _ Rmult) by reflexivity.
  rewrite bcast1_same.
  2:{ rewrite length_map, !length_vFin, !length_zip_with, Hr, Hd. lia. }
  cbn [mbind result_bind]. rewrite (get_int_lookup self "N" N HN).
  cbn [mbind result_bind]. unfold lnlike_at, lnlike_float.
  assert (Ht : take N (vFin x) = vFin (take N x))
    by (symmetry; apply fmap_take).
  assert (Hdr : drop N (vFin x) = vFin (drop N x))
    by (symmetry; apply fmap_drop).
  rewrite Ht, Hdr. destruct return_rvs; reflexivity.
Qed.

(** ** The normal equations are a square system *)

Lemma has_shape_scale_rows (L n : nat) (d : list real) (M : list (list real)) :
  has_shape L n M -> length d = L -> has_shape L n (scale_rows d M).
Proof.
  intros [HM1 HM2] Hd. split.
  - rewrite length_scale_rows. lia.
  - apply Forall_forall. intros r Hr.
    apply elem_of_lookup_zip_with in Hr as (i & a & row & -> & _ & Hrow).
    rewrite length_map. rewrite Forall_forall in HM2. apply HM2.
    by eapply list_elem_of_lookup_2.
Qed.

Lemma length_normal_rhs (R N : nat) (A : list (list real)) (d : list real) :
  length (normal_rhs R N A d) = N + R.
Proof.
  unfold normal_rhs. rewrite length_matvec. unfold transpose.
  pose proof (has_shape_exact_design R N) as [HM1 HM2].
  rewrite (ncols_has_shape (R * N + 1) (N + R)) by (done || lia).
  by apply length_transpose_n.
Qed.

Lemma has_shape_normal_matrix (R N : nat) (d : list real) :
  length d = R * N + 1 ->
  has_shape (N + R) (N + R) (normal_matrix R N d).
Proof.
  intros Hd. pose proof (has_shape_exact_design R N) as HM.
  pose proof (has_shape_scale_rows _ _ d _ HM Hd) as HY.
  unfold normal_matrix, matmul. split.
  - rewrite length_map. unfold transpose.
    rewrite (ncols_has_shape _ _ _ HM) by lia.
    apply length_transpose_n, HM.
  - apply Forall_fmap, Forall_forall. intros r _. cbn.
    rewrite length_map. unfold transpose.
    rewrite (ncols_has_shape _ _ _ HY) by lia.
    apply length_transpose_n, HY.
Qed.

(** ** What the solver returns when the precisions are finite *)

Section Solver.
Variable linalg_solve : matrix -> vector -> result vector.
Hypothesis linalg_solve_ok : linalg_solve_spec linalg_solve.

Variables (self : Results) (R N : nat) (A : list (list real)).
Variables (d : list real) (sigmas : vector) (return_rvs restart : bool).
Hypothesis HR : self !! "R"%string = Some (VInt R).
Hypothesis HN : self !! "N"%string = Some (VInt N).
Hypothesis HR1 : 1 <= R.
Hypothesis HN1 : 1 <= N.
Hypothesis HA : self !! "all_rvs"%string = Some (VArr (ND2 (mFin A))).
Hypothesis HsA : has_shape R N A.
Hypothesis Hcache : design_cache_ok self restart R N.
Hypothesis Hs : length sigmas = R.
Hypothesis Hiv : effective_ivars self sigmas = Ok (vFin d).
Hypothesis Hd : length d = R * N + 1.

Lemma lnlike_sigmas_solved_gen (x : list real) :
  solves (normal_matrix R N d) (normal_rhs R N A d) x ->
  lnlike_sigmas linalg_solve self sigmas return_rvs restart
  = Ok (lnlike_at R N A d x return_rvs,
        <["M"%string := VArr (ND2 (design_rows R N))]> self).
Proof.
  intros Hx. rewrite (lnlike_sigmas_prefix_gen _ _ R N A d) by done.
  destruct (linalg_solve_ok (N + R) (normal_matrix R N d)
              (normal_rhs R N A d)) as [Hfwd _].
  { by apply has_shape_normal_matrix. }
  { apply length_normal_rhs. }
  rewrite (Hfwd x Hx). cbn [mbind result_bind].
  apply lnlike_finish_exact; try done.
  - by rewrite lookup_insert_ne.
  - destruct Hx as [Hl _]. by rewrite Hl, length_normal_rhs.
Qed.

Lemma lnlike_sigmas_inv_gen (v : lnlike_value) (self' : Results) :
  lnlike_sigmas linalg_solve self sigmas return_rvs restart
  = Ok (v, self') ->
  exists x,
    solves (normal_matrix R N d) (normal_rhs R N A d) x /\
    v = lnlike_at R N A d x return_rvs /\
    self' = <["M"%string := VArr (ND2 (design_rows R N))]> self.
Proof.
  intros Hrun. pose proof Hrun as Hrun'.
  rewrite (lnlike_sigmas_prefix_gen _ _ R N A d) in Hrun by done.
  destruct (linalg_solve_ok (N + R) (normal_matrix R N d)
              (normal_rhs R N A d)) as [_ Hbwd].
  { by apply has_shape_normal_matrix. }
  { apply length_normal_rhs. }
  destruct (linalg_solve _ _) as [fx|e] eqn:Hsolve; [|discriminate].
  destruct (Hbwd fx eq_refl) as (x & -> & Hx).
  exists x. split; [done|].
  rewrite (lnlike_sigmas_solved_gen x Hx) in Hrun'. by inversion Hrun'.
Qed.
End Solver.

Section SolverInput.
Variable linalg_solve : matrix -> vector -> result vector.
Hypothesis linalg_solve_ok : linalg_solve_spec linalg_solve.

Variables (self : Results) (R N : nat) (A W : list (list real)).
Variables (s : list real) (return_rvs restart : bool).
Hypothesis Hin : solver_input self R N A W.
Hypothesis Hcache : design_cache_ok self restart R N.
Hypothesis Hs : length s = R.
Hypothesis Hpos : Forall (Forall (fun w => (0 <= w)%R)) W.

Let d := exact_ivars W s.

Lemma lnlike_sigmas_solved (x : list real) :
  solves (normal_matrix R N d) (normal_rhs R N A d) x ->
  lnlike_sigmas linalg_solve self (vFin s) return_rvs restart
  = Ok (lnlike_at R N A d x return_rvs,
        <["M"%string := VArr (ND2 (design_rows R N))]> self).
Proof.
  destruct Hin. apply lnlike_sigmas_solved_gen; try done.
  - by rewrite length_vFin.
  - by apply (effective_ivars_exact self R N).
  - by apply length_exact_ivars.
Qed.

Lemma lnlike_sigmas_inv (v : lnlike_value) (self' : Results) :
  lnlike_sigmas linalg_solve self (vFin s) return_rvs restart
  = Ok (v, self') ->
  exists x,
    solves (normal_matrix R N d) (normal_rhs R N A d) x /\
    v = lnlike_at R N A d x return_rvs /\
    self' = <["M"%string := VArr (ND2 (design_rows R N))]> self.
Proof.
  destruct Hin. apply lnlike_sigmas_inv_gen; try done.
  - by rewrite length_vFin.
  - by apply (effective_ivars_exact self R N).
  - by apply length_exact_ivars.
Qed.
End SolverInput.

(* ===================================================================== *)
(** * The normal equations of the additive model *)
(* ===================================================================== *)

Section NormalEquations.
Local Open Scope R_scope.

(** ** Rows of the design matrix applied to a vector *)

Lemma dot_insert (a : real) (row v : list real) (k : nat) :
  (k < length row)%nat ->
  dot (<[k := a]> row) v = dot row v + (a - nth k row 0) * nth k v 0.
Proof.
  revert v k. induction row as [|b row IH]; intros v k Hk;
    [cbn in Hk; lia|].
  destruct v as [|c v].
  - rewrite !dot_nil_r. destruct k; cbn; ring.
  - destruct k as [|k].
    + cbn [insert list_insert nth]. rewrite !dot_cons. ring.
    + change (<[S k := a]> (b :: row)) with (b :: <[k := a]> row).
      rewrite !dot_cons, IH by (cbn in Hk; lia). cbn [nth]. ring.
Qed.

Lemma nth_replicate_0 (n k : nat) : nth k (replicate n 0) 0 = 0.
Proof.
  revert k. induction n as [|n IH]; intros [|k]; cbn; auto.
Qed.

Lemma nth_insert_ne (row : list real) (j k : nat) (a : real) :
  j <> k -> nth k (<[j := a]> row) 0 = nth k row 0.
Proof.
  revert j k. induction row as [|b row IH]; intros [|j] [|k] Hne;
    cbn; try reflexivity; try congruence.
  apply IH. congruence.
Qed.

Lemma dot_design_row (R N r n : nat) (v : list real) :
  (n < N)%nat -> (r < R)%nat ->
  dot (design_row R N r n) v = nth n v 0 + nth (N + r) v 0.
Proof.
  intros Hn Hr. unfold design_row.
  rewrite dot_insert by (rewrite length_insert, length_replicate; lia).
  rewrite dot_insert by (rewrite length_replicate; lia).
  rewrite nth_insert_ne by lia. rewrite !nth_replicate_0.
  rewrite dot_replicate_0_l. cbn [nunit nzero R_num]. ring.
Qed.

Lemma map_nth_seq {B} (f : real -> B) (l pre : list real) :
  map (fun i => f (nth i (pre ++ l) 0)) (seq (length pre) (length l))
  = map f l.
Proof.
  revert pre. induction l as [|a l IH]; intros pre; [done|].
  cbn [length seq map]. f_equal.
  - f_equal. rewrite app_nth2 by lia. by rewrite Nat.sub_diag.
  - specialize (IH (pre ++ [a])). rewrite length_app in IH. cbn in IH.
    rewrite <- app_assoc in IH. cbn in IH.
    replace (length pre + 1)%nat with (S (length pre)) in IH by lia.
    exact IH.
Qed.

Lemma matvec_design_rows (R N : nat) (vt vo : list real) :
  length vt = N -> length vo = R ->
  matvec (design_rows R N) (vt ++ vo) = flatten (noiseless vt vo).
Proof.
  intros Ht Ho. unfold design_rows, matvec, noiseless, flatten.
  rewrite flat_map_concat_map, concat_map.
  f_equal. rewrite map_map.
  rewrite <- (map_nth_seq (fun o_r => map (fun t_n => t_n + o_r) vt) vo []).
  cbn [length app]. rewrite Ho. apply map_ext_in. intros r Hr.
  apply in_seq in Hr. rewrite map_map.
  rewrite <- (map_nth_seq (fun t_n => t_n + nth r vo 0) vt []).
  cbn [length app]. rewrite Ht. apply map_ext_in. intros n Hn.
  apply in_seq in Hn. rewrite dot_design_row by lia.
  rewrite app_nth1 by lia. rewrite app_nth2 by lia.
  by replace (N + r - length vt)%nat with r by lia.
Qed.

Lemma dot_constraint_row (R N : nat) (w : real) (vt vo : list real) :
  length vt = N -> length vo = R ->
  dot (constraint_row R N w) (vt ++ vo) = w * nsum vo.
Proof.
  intros Ht Ho. unfold constraint_row.
  rewrite dot_app by (by rewrite length_replicate).
  change (@nzero real R_num) with 0. rewrite dot_replicate_0_l.
  rewrite dot_comm, dot_replicate_r by done. ring.
Qed.

Lemma matvec_exact_design (R N : nat) (vt vo : list real) :
  length vt = N -> length vo = R ->
  matvec (exact_design R N) (vt ++ vo)
  = flatten (noiseless vt vo) ++ [1 / INR R * nsum vo].
Proof.
  intros Ht Ho. unfold exact_design. rewrite matvec_app.
  rewrite matvec_design_rows by done. f_equal.
  cbn [matvec map]. by rewrite dot_constraint_row.
Qed.
End NormalEquations.

Lemma transpose_exact_design (R N : nat) :
  transpose (exact_design R N) = transpose_n (N + R) (exact_design R N).
Proof.
  unfold transpose.
  by rewrite (ncols_has_shape _ _ _ (has_shape_exact_design R N)) by lia.
Qed.

Section Pairing.
Local Open Scope R_scope.
Variables (R N : nat) (A : list (list real)) (d : list real).
Hypothesis Hd : length d = (R * N + 1)%nat.

Let M := exact_design R N.

(** The normal matrix acts as M^T diag(d) M. *)
Lemma matvec_normal_matrix (v : list real) :
  matvec (normal_matrix R N d) v
  = matvec (transpose M) (zip_with Rmult d (matvec M v)).
Proof.
  unfold normal_matrix. fold M.
  pose proof (has_shape_scale_rows _ _ d _ (has_shape_exact_design R N) Hd)
    as HY.
  rewrite (matvec_matmul (N + R)).
  - by rewrite matvec_scale_rows.
  - apply HY.
  - apply (ncols_has_shape _ _ _ HY). lia.
Qed.

Lemma dot_normal_matrix (u v : list real) :
  dot u (matvec (normal_matrix R N d) v)
  = dot (matvec M u) (zip_with Rmult d (matvec M v)).
Proof.
  rewrite matvec_normal_matrix. unfold M.
  rewrite transpose_exact_design.
  apply dot_matvec_transpose, has_shape_exact_design.
Qed.

Lemma dot_normal_rhs (u : list real) :
  dot u (normal_rhs R N A d)
  = dot (matvec M u) (zip_with Rmult d (exact_ys A)).
Proof using Type.
  unfold normal_rhs, M. rewrite transpose_exact_design.
  apply dot_matvec_transpose, has_shape_exact_design.
Qed.
End Pairing.

Section SumZero.
Local Open Scope R_scope.

Lemma has_shape_noiseless (t o : list real) :
  has_shape (length o) (length t) (noiseless t o).
Proof.
  unfold noiseless. split; [by rewrite length_map|].
  apply Forall_fmap, Forall_forall. intros a _. cbn. by rewrite length_fmap.
Qed.

Lemma length_flatten_noiseless (t o : list real) :
  length (flatten (noiseless t o)) = (length o * length t)%nat.
Proof. apply length_flatten_shape, has_shape_noiseless. Qed.

Lemma flatten_noiseless_cancel (R N : nat) :
  flatten (noiseless (replicate N 1) (replicate R (-1)))
  = replicate (R * N) 0.
Proof.
  unfold noiseless, flatten. rewrite replicate_mul. f_equal.
  induction R as [|R IH]; [done|]. cbn [replicate map]. rewrite IH.
  f_equal. clear. induction N as [|N IH]; [done|].
  cbn [replicate map]. rewrite IH. f_equal. ring.
Qed.

Lemma nsum_replicate (n : nat) (a : real) :
  nsum (replicate n a) = INR n * a.
Proof.
  induction n as [|n IH]; [cbn; ring|].
  rewrite S_INR. cbn [replicate].
  change (nsum (a :: replicate n a)) with (a + nsum (replicate n a)).
  rewrite IH. ring.
Qed.

Lemma length_exact_ivars_flat (R N : nat) (W : list (list real))
    (s : list real) :
  has_shape R N W -> length s = R ->
  exists dflat, exact_ivars W s = dflat ++ [1] /\ length dflat = (R * N)%nat.
Proof.
  intros HW Hs. unfold exact_ivars. eexists. split; [reflexivity|].
  pose proof (length_exact_ivars R N W s HW Hs) as Hl.
  unfold exact_ivars in Hl. rewrite length_app in Hl. cbn in Hl. lia.
Qed.

(** Pairing a weighted vector with a vector supported on the last datum
    picks out the last datum. *)
Lemma dot_last_datum (m : nat) (a q : real) (dflat F : list real) :
  length dflat = m -> length F = m ->
  dot (replicate m 0 ++ [a]) (zip_with Rmult (dflat ++ [1]) (F ++ [q]))
  = a * q.
Proof.
  intros Hd HF. rewrite zip_with_app by lia.
  rewrite dot_app by (by rewrite length_replicate, length_zip_with; lia).
  rewrite dot_replicate_0_l. cbn [zip_with]. rewrite dot_cons, dot_nil_l.
  ring.
Qed.

(** Every solution of the normal equations has order RVs of zero sum:
    pair the equations with the direction (1, ..., 1, -1, ..., -1), along
    which the additive model does not change. *)
Lemma normal_solution_sum_zero (R N : nat) (A : list (list real))
    (dflat x : list real) :
  (1 <= R)%nat ->
  has_shape R N A -> length dflat = (R * N)%nat ->
  length x = (N + R)%nat ->
  matvec (normal_matrix R N (dflat ++ [1])) x
  = normal_rhs R N A (dflat ++ [1]) ->
  nsum (drop N x) = 0.
Proof.
  intros HR HA Hd Hx Heq.
  assert (Hdl : length (dflat ++ [1]) = (R * N + 1)%nat)
    by (rewrite length_app; cbn; lia).
  set (u := replicate N 1 ++ replicate R (-1)).
  apply (f_equal (dot u)) in Heq.
  rewrite (dot_normal_matrix R N _ Hdl) in Heq.
  rewrite (dot_normal_rhs R N A) in Heq.
  unfold u in Heq. cbv zeta in Heq.
  rewrite matvec_exact_design in Heq by (by rewrite length_replicate).
  rewrite flatten_noiseless_cancel, nsum_replicate in Heq.
  rewrite <- (take_drop N x) in Heq at 1.
  rewrite (matvec_exact_design R N) in Heq.
  2:{ rewrite length_take. lia. }
  2:{ rewrite length_drop. lia. }
  unfold exact_ys in Heq.
  assert (Hinv : 1 / INR R * (INR R * -1) = -1).
  { field. apply not_0_INR. lia. }
  rewrite Hinv in Heq.
  rewrite (dot_last_datum (R * N)) in Heq; [|done|].
  2:{ rewrite length_flatten_noiseless, length_take, length_drop. lia. }
  rewrite (dot_last_datum (R * N)) in Heq; [|done|].
  2:{ by apply length_flatten_shape. }
  assert (HRne : INR R <> 0) by (apply not_0_INR; lia).
  assert (Hz : 1 / INR R * nsum (drop N x) = 0) by lra.
  apply Rmult_integral in Hz as [Hz|Hz]; [|done].
  exfalso. unfold Rdiv in Hz. rewrite Rmult_1_l in Hz.
  by apply Rinv_neq_0_compat in HRne.
Qed.
End SumZero.

Section NonSingular.
Local Open Scope R_scope.

Lemma weighted_square_nonneg (d z : list real) :
  Forall (fun a => 0 < a) d -> 0 <= dot z (zip_with Rmult d z).
Proof.
  intros Hd. revert z. induction Hd as [|a d Ha _ IH]; intros [|b z];
    cbn [zip_with]; rewrite ?dot_nil_l, ?dot_nil_r; try lra.
  rewrite dot_cons. specialize (IH z). nra.
Qed.

Lemma weighted_square_zero (d z : list real) :
  Forall (fun a => 0 < a) d -> length d = length z ->
  dot z (zip_with Rmult d z) = 0 -> Forall (fun b => b = 0) z.
Proof.
  intros Hd. revert z. induction Hd as [|a d Ha Hd IH]; intros [|b z] Hl Hz;
    try discriminate; constructor.
  - cbn [zip_with] in Hz. rewrite dot_cons in Hz.
    pose proof (weighted_square_nonneg d z Hd).
    assert (0 <= a * (b * b)) by nra.
    assert (Hab : a * (b * b) = 0) by lra.
    apply Rmult_integral in Hab as [Hab|Hab]; [lra|].
    apply Rmult_integral in Hab as [Hab|Hab]; exact Hab.
  - apply IH; [cbn in Hl; lia|].
    cbn [zip_with] in Hz. rewrite dot_cons in Hz.
    pose proof (weighted_square_nonneg d z Hd).
    assert (0 <= b * (a * b)) by nra. lra.
Qed.

Lemma Forall_eq_replicate (a : real) (l : list real) :
  Forall (fun b => b = a) l -> l = replicate (length l) a.
Proof. induction 1 as [|b l -> _ IH]; [done|]. cbn. by f_equal. Qed.

Lemma exact_ivars_pos (W : list (list real)) (s : list real) :
  Forall (Forall (fun w => 0 < w)) W ->
  Forall (fun a => 0 < a) (exact_ivars W s).
Proof.
  intros HW. unfold exact_ivars. apply Forall_app. split.
  - unfold flatten. apply Forall_concat, Forall_forall. intros r Hr.
    apply elem_of_lookup_zip_with in Hr as (i & row & sr & -> & Hrow & _).
    apply Forall_fmap, Forall_forall. intros w Hw. cbn.
    apply ivar_exact_pos. rewrite Forall_forall in HW.
    specialize (HW row (list_elem_of_lookup_2 _ _ _ Hrow)).
    rewrite Forall_forall in HW. by apply HW.
  - constructor; [lra|constructor].
Qed.

(** The additive model with the constraint row has no hidden direction:
    if every t[n] + o[r] vanishes and the o[r] sum to zero, both vanish. *)
Lemma additive_model_kernel (vt vo : list real) :
  (1 <= length vt)%nat -> (1 <= length vo)%nat ->
  Forall (Forall (fun b => b = 0)) (noiseless vt vo) ->
  nsum vo = 0 ->
  vt = replicate (length vt) 0 /\ vo = replicate (length vo) 0.
Proof.
  intros Ht Ho Hall Hsum.
  destruct vt as [|t0 vt]; [cbn in Ht; lia|].
  destruct vo as [|o0 vo]; [cbn in Ho; lia|].
  assert (Hpair : forall o_r t_n, o_r ∈ o0 :: vo -> t_n ∈ t0 :: vt ->
                                  t_n + o_r = 0).
  { intros o_r t_n Hor Htn. unfold noiseless in Hall.
    rewrite List.Forall_map, Forall_forall in Hall.
    specialize (Hall o_r Hor). cbv beta in Hall.
    rewrite List.Forall_map, Forall_forall in Hall. by apply Hall. }
  assert (Hvo : Forall (fun b => b = - t0) (o0 :: vo)).
  { apply Forall_forall. intros o_r Hor.
    specialize (Hpair o_r t0 Hor (list_elem_of_here _ _)). lra. }
  apply Forall_eq_replicate in Hvo. rewrite Hvo, nsum_replicate in Hsum.
  assert (Ht0 : t0 = 0).
  { assert (INR (length (o0 :: vo)) <> 0)
      by (apply not_0_INR; cbn; lia). nra. }
  subst t0. rewrite Ropp_0 in Hvo. split; [|exact Hvo].
  apply Forall_eq_replicate, Forall_forall. intros t_n Htn.
  specialize (Hpair o0 t_n (list_elem_of_here _ _) Htn).
  assert (o0 = 0).
  { apply (f_equal (fun l => nth 0 l 0)) in Hvo. exact Hvo. }
  lra.
Qed.

Variables (R N : nat) (d : list real).
Hypothesis HR : (1 <= R)%nat.
Hypothesis HN : (1 <= N)%nat.
Hypothesis Hd : length d = (R * N + 1)%nat.
Hypothesis Hpos : Forall (fun a => 0 < a) d.

(** With strictly positive precisions the normal matrix is
    non-singular. *)
Lemma normal_matrix_nonsingular (v : list real) :
  length v = (N + R)%nat ->
  matvec (normal_matrix R N d) v = replicate (N + R) 0 ->
  v = replicate (N + R) 0.
Proof.
  intros Hv Hz. apply (f_equal (dot v)) in Hz.
  rewrite dot_replicate_0_r in Hz.
  rewrite (dot_normal_matrix R N d Hd) in Hz. cbv zeta in Hz.
  apply weighted_square_zero in Hz; [|done|].
  2:{ rewrite Hd, length_matvec. symmetry. apply has_shape_exact_design. }
  rewrite <- (take_drop N v) in Hz.
  rewrite (matvec_exact_design R N) in Hz.
  2:{ rewrite length_take. lia. }
  2:{ rewrite length_drop. lia. }
  apply Forall_app in Hz as [Hz1 Hz2].
  unfold flatten in Hz1. apply Forall_concat in Hz1.
  apply Forall_cons in Hz2 as [Hlast _].
  assert (HRne : INR R <> 0) by (apply not_0_INR; lia).
  assert (Hsum : nsum (drop N v) = 0).
  { apply Rmult_integral in Hlast as [Hl|Hl]; [|done].
    exfalso. unfold Rdiv in Hl. rewrite Rmult_1_l in Hl.
    by apply Rinv_neq_0_compat in HRne. }
  destruct (additive_model_kernel (take N v) (drop N v)) as [Ht Ho];
    try done.
  { rewrite length_take. lia. }
  { rewrite length_drop. lia. }
  rewrite <- (take_drop N v), Ht, Ho, length_take, length_drop.
  replace (N `min` length v)%nat with N by lia.
  replace (length v - N)%nat with R by lia.
  by rewrite replicate_add.
Qed.
End NonSingular.

Section Noiseless.
Local Open Scope R_scope.
Variables (R N : nat) (d t o : list real).
Hypothesis HR : (1 <= R)%nat.
Hypothesis Hd : length d = (R * N + 1)%nat.
Hypothesis Ht : length t = N.
Hypothesis Ho : length o = R.
Hypothesis Hsum : nsum o = 0.

(** Noiseless data is fitted exactly, whatever the weights. *)
Lemma matvec_exact_design_noiseless :
  matvec (exact_design R N) (t ++ o) = exact_ys (noiseless t o).
Proof.
  rewrite matvec_exact_design by done. unfold exact_ys. f_equal.
  rewrite Hsum. f_equal. ring.
Qed.

Lemma normal_equations_noiseless :
  matvec (normal_matrix R N d) (t ++ o) = normal_rhs R N (noiseless t o) d.
Proof.
  rewrite (matvec_normal_matrix R N d Hd). cbv zeta.
  rewrite matvec_exact_design_noiseless. reflexivity.
Qed.
End Noiseless.

(* ===================================================================== *)
(** * The external contracts can be met *)
(* ===================================================================== *)

Section Contracts.
Local Open Scope R_scope.

Lemma dot_minus (r u v : list real) :
  length u = length v ->
  dot r (zip_with Rminus u v) = dot r u - dot r v.
Proof.
  revert u v. induction r as [|a r IH]; intros [|b u] [|c v] Hl;
    try discriminate; cbn [zip_with]; rewrite ?dot_nil_l, ?dot_nil_r;
    try ring.
  rewrite !dot_cons, IH by (cbn in Hl; lia). ring.
Qed.

Lemma matvec_minus (X : list (list real)) (u v : list real) :
  length u = length v ->
  matvec X (zip_with Rminus u v)
  = zip_with Rminus (matvec X u) (matvec X v).
Proof.
  intros Hl. induction X as [|r X IH]; [done|].
  cbn [matvec map zip_with]. rewrite dot_minus by done. f_equal. apply IH.
Qed.

Lemma zip_minus_self (b : list real) :
  zip_with Rminus b b = replicate (length b) 0.
Proof. induction b as [|a b IH]; [done|]. cbn. f_equal; [ring|done]. Qed.

Lemma zip_minus_zero (u v : list real) :
  length u = length v ->
  zip_with Rminus u v = replicate (length v) 0 -> u = v.
Proof.
  revert v. induction u as [|a u IH]; intros [|b v] Hl Hz;
    try discriminate; [reflexivity|].
  cbn in Hz. inversion Hz as [[Hab Hrest]]. f_equal; [lra|].
  apply IH; [cbn in Hl; lia|]. by rewrite Hrest, Hab.
Qed.

(** A non-singular system has at most one solution. *)
Lemma solves_unique (A : list (list real)) (b x x' : list real) :
  solves A b x -> solves A b x' -> x = x'.
Proof.
  intros (Hl & Hx & Hinj) (Hl' & Hx' & _).
  apply zip_minus_zero; [lia|]. rewrite Hl'. apply Hinj.
  - rewrite length_zip_with. lia.
  - rewrite matvec_minus by lia. rewrite Hx, Hx'. apply zip_minus_self.
Qed.
End Contracts.

Lemma mapM_to_real_vFin (b : list real) : mapM to_real (vFin b) = Some b.
Proof.
  induction b as [|a b IH]; [done|]. cbn. unfold vFin in IH. by rewrite IH.
Qed.

Lemma mapM_to_real_mFin (A : list (list real)) :
  mapM (mapM to_real) (mFin A) = Some A.
Proof.
  induction A as [|r A IH]; [done|]. cbn.
  pose proof (mapM_to_real_vFin r) as Hr. unfold vFin in Hr. rewrite Hr.
  cbn. unfold mFin in IH. by rewrite IH.
Qed.

Lemma same_lengths_shape {A} (m n : nat) (X : list (list A)) :
  has_shape m n X -> same_lengths X = true.
Proof.
  intros [Hm Hall]. unfold same_lengths. apply forallb_forall.
  intros r Hr. apply Nat.eqb_eq. destruct X as [|r0 X]; [by destruct Hr|].
  inversion Hall as [|? ? Hr0 _]; subst. cbn [ncols hd].
  rewrite Forall_forall in Hall. apply Hall. by apply list_elem_of_In.
Qed.

Lemma ncols_square {A} (n : nat) (X : list (list A)) :
  has_shape n n X -> ncols X = nrows X.
Proof.
  intros HX. destruct (Nat.eq_dec n 0) as [->|Hn].
  - destruct HX as [H0 _]. by destruct X.
  - rewrite (ncols_has_shape n n X) by (done || lia). symmetry. apply HX.
Qed.

Lemma lapack_solve_spec : linalg_solve_spec lapack_solve.
Proof.
  intros n A b HA Hb.
  assert (Hrun : lapack_solve (mFin A) (vFin b)
                 = if excluded_middle_informative (exists x, solves A b x)
                   then Ok (vFin (epsilon (inhabits []) (solves A b)))
                   else Raise LinAlgError).
  { unfold lapack_solve.
    rewrite (same_lengths_shape n n) by (by apply has_shape_mFin).
    rewrite (ncols_square n) by (by apply has_shape_mFin).
    rewrite Nat.eqb_refl. cbn [andb negb].
    rewrite nrows_mFin, length_vFin. destruct HA as [HA1 HA2].
    unfold nrows. rewrite HA1, Hb, Nat.eqb_refl. cbn [negb].
    by rewrite mapM_to_real_mFin, mapM_to_real_vFin. }
  rewrite Hrun. split.
  - intros x Hx.
    destruct (excluded_middle_informative _) as [Hex|Hno];
      [|exfalso; apply Hno; eauto].
    f_equal. f_equal. apply (solves_unique A b); [|done].
    by apply epsilon_spec.
  - intros fx Hfx.
    destruct (excluded_middle_informative _) as [Hex|Hno]; [|discriminate].
    inversion Hfx; subst. eexists. split; [reflexivity|].
    by apply epsilon_spec.
Qed.

Lemma minimize_at_start_spec : minimize_spec minimize_at_start.
Proof.
  split.
  - intros f x0 s x s' Hrun. unfold minimize_at_start in Hrun.
    destruct (f x0 s) as [[v s1]|e] eqn:Hf; [|discriminate].
    cbn in Hrun. inversion Hrun; subst. split; [done|].
    eapply calls_step; [reflexivity|exact Hf|apply calls_done].
  - intros f x0 s e Hf. unfold minimize_at_start. by rewrite Hf.
Qed.

(* ===================================================================== *)
(** * A square system with no kernel has a solution *)
(* ===================================================================== *)

Section Elimination.
Local Open Scope R_scope.
Variables (p : real) (r : list real).
Hypothesis Hp : p <> 0.

Lemma dot_eliminate (a : real) (t y : list real) :
  length t = length r ->
  dot (eliminate p r (a :: t)) y = dot t y - a / p * dot r y.
Proof.
  intros Hl. cbn [eliminate].
  rewrite (dot_comm _ y), dot_minus by (by rewrite length_map).
  rewrite dot_scale_r, (dot_comm y t), (dot_comm y r). ring.
Qed.

(** the rows other than the pivot row, through the eliminated rows *)
Lemma matvec_eliminate (X : list (list real)) (y : list real)
    (x0 beta : real) :
  Forall (fun row => length row = S (length r)) X ->
  p * x0 + dot r y = beta ->
  matvec X (x0 :: y)
  = zip_with (fun row e => e + hd 0 row / p * beta) X
             (matvec (map (eliminate p r) X) y).
Proof.
  intros HX Hx0. induction HX as [|row X Hrow _ IH]; [done|].
  destruct row as [|a t]; [discriminate|]. injection Hrow as Hrow.
  cbn [matvec map zip_with hd]. fold (matvec X (x0 :: y)).
  fold (matvec (map (eliminate p r) X) y). rewrite <- IH. f_equal.
  rewrite dot_cons, dot_eliminate by done. subst beta. field. exact Hp.
Qed.

Lemma zip_eliminate_zero (X : list (list real)) :
  zip_with (fun row e => e + hd 0 row / p * 0) X (replicate (length X) 0)
  = replicate (length X) 0.
Proof.
  induction X as [|row X IH]; [done|]. cbn. rewrite IH. f_equal. field.
  exact Hp.
Qed.

Lemma zip_eliminate_back (X : list (list real)) (c : list real) (beta : real) :
  length c = length X ->
  zip_with (fun row e => e + hd 0 row / p * beta) X
    (zip_with (fun row b => b - hd 0 row / p * beta) X c)
  = c.
Proof.
  revert c. induction X as [|row X IH]; intros [|b c] Hl; try discriminate;
    [done|].
  cbn. rewrite IH by (by injection Hl). f_equal. ring.
Qed.

Lemma has_shape_eliminate (X : list (list real)) :
  Forall (fun row => length row = S (length r)) X ->
  has_shape (length X) (length r) (map (eliminate p r) X).
Proof.
  intros HX. split; [by rewrite length_map|].
  apply List.Forall_map. eapply Forall_impl; [exact HX|].
  intros [|a t] Hl; [discriminate|]. injection Hl as Hl. cbn.
  rewrite length_zip_with, length_map. lia.
Qed.
End Elimination.

Lemma matvec_unit_column (X : list (list real)) (n : nat) :
  Forall (fun row => hd 0%R row = 0%R) X ->
  matvec X (1%R :: replicate n 0%R) = replicate (length X) 0%R.
Proof.
  induction 1 as [|row X Hrow _ IH]; [done|].
  cbn [matvec map length replicate]. fold (matvec X (1%R :: replicate n 0%R)).
  rewrite IH. f_equal. destruct row as [|a t]; [done|].
  rewrite dot_cons, dot_replicate_0_r. cbn in Hrow. subst a. ring.
Qed.

Lemma trivial_kernel_solvable (n : nat) (A : list (list real)) :
  has_shape n n A ->
  (forall v, length v = n -> matvec A v = replicate n 0%R ->
             v = replicate n 0%R) ->
  forall b, length b = n -> exists x, length x = n /\ matvec A x = b.
Proof.
  revert A. induction n as [|n IH]; intros A [HA1 HA2] Hker b Hb.
  - exists []. split; [done|]. destruct A; [|done]. by destruct b.
  - (* a pivot in the first column *)
    destruct (excluded_middle_informative
                (Exists (fun row => hd 0%R row <> 0%R) A)) as [Hex|Hno].
    2:{ exfalso.
        assert (Hall : Forall (fun row => hd 0%R row = 0%R) A).
        { apply Forall_forall. intros row Hin.
          destruct (Req_dec_T (hd 0%R row) 0) as [E|E]; [done|].
          exfalso. apply Hno, Exists_exists. by exists row. }
        pose proof (matvec_unit_column A n Hall) as Hz. rewrite HA1 in Hz.
        apply Hker in Hz; [|cbn; by rewrite length_replicate].
        cbn [replicate] in Hz. injection Hz as Hz. lra. }
    apply Exists_exists in Hex as (row0 & Hin & Hp).
    apply list_elem_of_split in Hin as (A1 & A2 & ->).
    apply Forall_app in HA2 as [HA21 HA22].
    apply Forall_cons in HA22 as [Hrow0 HA22].
    destruct row0 as [|p r]; [discriminate|]. injection Hrow0 as Hr.
    cbn [hd] in Hp. rewrite length_app in HA1. cbn [length] in HA1.
    assert (HX : Forall (fun row => length row = S (length r)) (A1 ++ A2)).
    { rewrite Hr. apply Forall_app. by split. }
    assert (HlX : length (A1 ++ A2) = n) by (rewrite length_app; lia).
    (* the reduced system has no kernel *)
    assert (Hker' : forall y, length y = n ->
              matvec (map (eliminate p r) (A1 ++ A2)) y = replicate n 0%R ->
              y = replicate n 0%R).
    { intros y Hy Hz.
      pose proof (matvec_eliminate p r Hp (A1 ++ A2) y (- dot r y / p)%R 0%R HX)
        as Hrows.
      specialize (Hrows ltac:(field; exact Hp)).
      rewrite Hz, <- HlX, zip_eliminate_zero in Hrows by done.
      rewrite matvec_app in Hrows.
      assert (Hv : matvec (A1 ++ (p :: r) :: A2) ((- dot r y / p)%R :: y)
                   = replicate (S n) 0%R).
      { rewrite matvec_app. cbn [matvec map].
        fold (matvec A2 ((- dot r y / p)%R :: y)).
        rewrite length_app, replicate_add in Hrows.
        apply app_inj_1 in Hrows as [-> ->];
          [|by rewrite length_matvec, length_replicate].
        rewrite dot_cons.
        replace (p * (- dot r y / p) + dot r y)%R with 0%R
          by (field; exact Hp).
        change (0%R :: replicate (length A2) 0%R)
          with (replicate (S (length A2)) 0%R).
        rewrite <- replicate_add. f_equal. lia. }
      apply Hker in Hv; [|cbn; by rewrite Hy].
      by injection Hv. }
    (* split the right-hand side at the pivot row *)
    assert (Hsplit : exists b1 beta b2,
               b = b1 ++ beta :: b2 /\ length b1 = length A1 /\
               length b2 = length A2).
    { exists (take (length A1) b).
      destruct (drop (length A1) b) as [|beta b2] eqn:E.
      - apply (f_equal length) in E. rewrite length_drop in E. cbn in E. lia.
      - exists beta, b2. rewrite <- E, take_drop. split; [done|].
        apply (f_equal length) in E. rewrite length_drop in E. cbn in E.
        rewrite length_take. lia. }
    destruct Hsplit as (b1 & beta & b2 & -> & Hb1 & Hb2).
    destruct (IH (map (eliminate p r) (A1 ++ A2))) with
      (b := zip_with (fun row b => (b - hd 0 row / p * beta)%R)
              (A1 ++ A2) (b1 ++ b2))
      as (y & Hy & Hsol).
    { rewrite <- HlX at 1. rewrite <- Hr. by apply has_shape_eliminate. }
    { exact Hker'. }
    { rewrite length_zip_with, !length_app. lia. }
    exists (((beta - dot r y) / p)%R :: y). split; [cbn; by rewrite Hy|].
    pose proof (matvec_eliminate p r Hp (A1 ++ A2) y
                  ((beta - dot r y) / p)%R beta HX) as Hrows.
    specialize (Hrows ltac:(field; exact Hp)).
    rewrite Hsol, zip_eliminate_back in Hrows
      by (rewrite !length_app; lia).
    rewrite matvec_app in Hrows.
    apply app_inj_1 in Hrows as [H1 H2]; [|by rewrite length_matvec].
    rewrite matvec_app. cbn [matvec map].
    fold (matvec A1 (((beta - dot r y) / p)%R :: y)).
    fold (matvec A2 (((beta - dot r y) / p)%R :: y)).
    rewrite H1, H2, dot_cons. do 2 f_equal. field. exact Hp.
Qed.

(** With strictly positive precisions the normal equations have a
    solution, and one only, whatever the data. *)
Lemma normal_system_solvable (R N : nat) (A : list (list real))
    (d : list real) :
  1 <= R -> 1 <= N -> length d = R * N + 1 ->
  Forall (fun a => (0 < a)%R) d ->
  nonsingular_system (normal_matrix R N d) (normal_rhs R N A d).
Proof.
  intros HR HN Hd Hpos.
  destruct (trivial_kernel_solvable (N + R) (normal_matrix R N d))
    with (b := normal_rhs R N A d) as (x & Hx & Hsol).
  - by apply has_shape_normal_matrix.
  - by apply normal_matrix_nonsingular.
  - apply length_normal_rhs.
  - exists x. split; [by rewrite length_normal_rhs|]. split; [done|].
    rewrite length_normal_rhs. by apply normal_matrix_nonsingular.
Qed.

(* ===================================================================== *)
(** * The solver: constraint, round trip, sign of sigma *)
(* ===================================================================== *)

(** ** Example data *)

Lemma demo_normal_equations (w : real) :
  matvec (normal_matrix 2 2 [w; w; w; w; 1%R]) demo_fit
  = normal_rhs 2 2 demo_rvs [w; w; w; w; 1%R].
Proof.
  rewrite (matvec_normal_matrix 2 2) by reflexivity. cbv zeta.
  unfold normal_rhs.
  cbv [exact_design design_rows design_row constraint_row flat_map seq map app
       replicate insert list_insert Nat.add nzero nunit R_num demo_fit
       matvec dot nsum zip_with foldr nadd nmul exact_ys demo_rvs flatten
       concat INR transpose transpose_n ncols hd length].
  repeat (f_equal; try field).
Qed.

Lemma demo_solves (w : real) :
  (0 < w)%R ->
  solves (normal_matrix 2 2 [w; w; w; w; 1%R])
         (normal_rhs 2 2 demo_rvs [w; w; w; w; 1%R]) demo_fit.
Proof.
  intros Hw. split; [by rewrite length_normal_rhs|]. split.
  - apply demo_normal_equations.
  - rewrite length_normal_rhs. intros v Hv Hz.
    apply (normal_matrix_nonsingular 2 2 [w; w; w; w; 1%R]); try done; try lia.
    repeat constructor; lra.
Qed.

Lemma solver_object_input (R N : nat) (A W : list (list real)) :
  1 <= R -> 1 <= N -> has_shape R N A -> has_shape R N W ->
  solver_input (solver_object R N (ND2 (mFin A)) (ND2 (mFin W))) R N A W.
Proof. intros. by split. Qed.

Lemma solver_object_cache (R N : nat) (rvs ivars : ndarray) (restart : bool) :
  design_cache_ok (solver_object R N rvs ivars) restart R N.
Proof. exists VNone. split; [done|]. by left. Qed.


(** ** C3 *)

Lemma mean_vFin_zero (x : list real) :
  1 <= length x -> nsum x = 0%R -> mean (vFin x) = Fin 0.
Proof.
  intros Hl Hx. unfold mean. rewrite nsum_vFin, Hx, length_vFin. cbn.
  destruct (Req_dec_T (INR (length x)) 0) as [Hz|_].
  - exfalso. apply not_0_INR in Hz; [done|lia].
  - f_equal. unfold Rdiv. ring.
Qed.

(** C3. Whenever the augmented normal equations are non-singular, the
    solver returns, and the order RVs it returns have mean zero, whatever
    the data. *)
Theorem order_rvs_mean_zero
    (linalg_solve : matrix -> vector -> result vector)
    (self : Results) (R N : nat) (A W : list (list real)) (s : list real)
    (restart : bool) :
  linalg_solve_spec linalg_solve ->
  solver_input self R N A W ->
  design_cache_ok self restart R N ->
  length s = R ->
  Forall (Forall (fun w => (0 <= w)%R)) W ->
  nonsingular_system (normal_matrix R N (exact_ivars W s))
                     (normal_rhs R N A (exact_ivars W s)) ->
  exists lnlike rvs_N rvs_R self',
    lnlike_sigmas linalg_solve self (vFin s) true restart
    = Ok (LnlikeRvs lnlike rvs_N rvs_R, self') /\
    mean rvs_R = Fin 0.
Proof.
  intros Hsolve Hin Hc Hs Hpos [x Hx].
  rewrite (lnlike_sigmas_solved linalg_solve Hsolve self R N A W s true
             restart Hin Hc Hs Hpos x Hx).
  unfold lnlike_at. do 4 eexists. split; [reflexivity|].
  pose proof Hx as (Hl & Heq & _). rewrite length_normal_rhs in Hl.
  destruct Hin as [_ _ HR1 _ _ _ HsA HsW].
  destruct (length_exact_ivars_flat R N W s HsW Hs) as (dflat & Hdf & Hd).
  rewrite Hdf in Heq.
  apply mean_vFin_zero.
  - rewrite length_drop. lia.
  - by apply (normal_solution_sum_zero R N A dflat).
Qed.

Lemma order_rvs_mean_zero_witness :
  exists lnlike rvs_N rvs_R self',
    lnlike_sigmas lapack_solve
      (solver_object 2 2 (ND2 (mFin demo_rvs)) (ND2 (mFin unit_ivars)))
      (vFin [1%R; 1%R]) true false
    = Ok (LnlikeRvs lnlike rvs_N rvs_R, self') /\
    mean rvs_R = Fin 0.
Proof.
  apply (order_rvs_mean_zero lapack_solve _ 2 2 demo_rvs unit_ivars).
  - exact lapack_solve_spec.
  - apply solver_object_input; try lia; split; try done; by repeat constructor.
  - apply solver_object_cache.
  - reflexivity.
  - repeat constructor; lra.
  - exists demo_fit. apply (demo_solves (ivar_exact 1 1)).
    apply ivar_exact_pos. lra.
Defined.

(** ** C4 *)

(** C4. Round trip: from noiseless data A[r, n] = t[n] + o[r] with the
    o[r] summing to zero, strictly positive weights and sigma = 0, the
    solver returns exactly [t] and [o]. The sizes need only be at least
    one; the bound of 20 in the specification is that of its test. *)
Theorem noiseless_round_trip
    (linalg_solve : matrix -> vector -> result vector)
    (self : Results) (R N : nat) (W : list (list real)) (t o : list real)
    (restart : bool) :
  linalg_solve_spec linalg_solve ->
  solver_input self R N (noiseless t o) W ->
  design_cache_ok self restart R N ->
  length t = N -> length o = R ->
  nsum o = 0%R ->
  Forall (Forall (fun w => (0 < w)%R)) W ->
  exists lnlike self',
    lnlike_sigmas linalg_solve self (vFin (replicate R 0%R)) true restart
    = Ok (LnlikeRvs lnlike (vFin t) (vFin o), self').
Proof.
  intros Hsolve Hin Hc Ht Ho Hsum Hpos.
  assert (Hs : length (replicate R 0%R) = R) by apply length_replicate.
  assert (Hnn : Forall (Forall (fun w => (0 <= w)%R)) W).
  { eapply Forall_impl; [exact Hpos|]. intros r Hr.
    eapply Forall_impl; [exact Hr|]. intros w Hw. cbn in Hw. lra. }
  pose proof Hin as [_ _ HR1 HN1 _ _ _ HsW].
  set (d := exact_ivars W (replicate R 0%R)).
  assert (Hd : length d = R * N + 1) by (by apply length_exact_ivars).
  assert (Hx : solves (normal_matrix R N d)
                      (normal_rhs R N (noiseless t o) d) (t ++ o)).
  { split; [rewrite length_normal_rhs, length_app; lia|]. split.
    - by apply normal_equations_noiseless.
    - rewrite length_normal_rhs.
      apply (normal_matrix_nonsingular R N d); try done.
      by apply exact_ivars_pos. }
  rewrite (lnlike_sigmas_solved linalg_solve Hsolve self R N _ W _ true
             restart Hin Hc Hs Hnn (t ++ o) Hx).
  unfold lnlike_at. rewrite <- Ht.
  rewrite take_app_length, drop_app_length. eauto.
Qed.

Lemma noiseless_round_trip_witness :
  exists lnlike self',
    lnlike_sigmas lapack_solve
      (solver_object 2 2 (ND2 (mFin (noiseless [3; 5] [1; -1])))%R
                         (ND2 (mFin unit_ivars)))
      (vFin (replicate 2 0%R)) true false
    = Ok (LnlikeRvs lnlike (vFin [3; 5]%R) (vFin [1; -1]%R), self').
Proof.
  apply (noiseless_round_trip lapack_solve _ 2 2 unit_ivars).
  - exact lapack_solve_spec.
  - apply solver_object_input; try lia; split; try done; by repeat constructor.
  - apply solver_object_cache.
  - reflexivity.
  - reflexivity.
  - cbn. lra.
  - repeat constructor; lra.
Defined.

(** ** C8 *)

Lemma fsquare_fneg (a : float64) : fsquare (fneg a) = fsquare a.
Proof.
  destruct a; try reflexivity. cbn. f_equal. ring.
Qed.

Lemma fsquare_lookup_sign (sigmas sigmas' : vector) :
  Forall2 (fun a b => b = a \/ b = fneg a) sigmas sigmas' ->
  forall i, fsquare (sigmas' !!! i) = fsquare (sigmas !!! i).
Proof.
  induction 1 as [|a b sigmas sigmas' Hab _ IH]; intros i; [done|].
  destruct i as [|i]; [|apply IH]. cbn.
  destruct Hab as [->| ->]; [done|apply fsquare_fneg].
Qed.

Lemma effective_ivars_sign (self : Results) (sigmas sigmas' : vector) :
  Forall2 (fun a b => b = a \/ b = fneg a) sigmas sigmas' ->
  effective_ivars self sigmas' = effective_ivars self sigmas.
Proof.
  intros Hrel. unfold effective_ivars.
  destruct (get_index_lists self) as [[Rs Ns]|e]; [|done].
  cbn [mbind result_bind].
  destruct (get_array self "all_ivars") as [all_ivars|e]; [|done].
  cbn [mbind result_bind]. unfold gather.
  rewrite <- (Forall2_length _ _ _ Hrel).
  destruct (forallb _ Rs); [|done]. cbn [mbind result_bind].
  assert (map (map fsquare) (map (map (fun i => sigmas' !!! i)) Rs)
          = map (map fsquare) (map (map (fun i => sigmas !!! i)) Rs)) as ->;
    [|done].
  rewrite !map_map. apply map_ext. intros row. rewrite !map_map.
  apply map_ext. intros i. by apply fsquare_lookup_sign.
Qed.

Lemma get_design_matrix_pure (self : Results) (M0 M : matrix)
    (self' : Results) :
  self !! "M"%string = Some (VArr (ND2 M0)) ->
  get_design_matrix self false = Ok (M, self') -> self' = self.
Proof.
  intros HM. unfold get_design_matrix, get_attr. rewrite HM. cbn.
  by intros [= _ <-].
Qed.

Lemma design_with_constraint_pure (self : Results) (M0 M : matrix)
    (self' : Results) :
  self !! "M"%string = Some (VArr (ND2 M0)) ->
  design_with_constraint self false = Ok (M, self') -> self' = self.
Proof.
  intros HM Hrun. unfold design_with_constraint in Hrun.
  destruct (get_design_matrix self false) as [[M1 s1]|e] eqn:E;
    [|discriminate].
  apply (get_design_matrix_pure self M0) in E; [subst s1|done].
  cbn [mbind result_bind] in Hrun. bind_inv Hrun. by inversion Hrun.
Qed.

Lemma lnlike_sigmas_pure
    (linalg_solve : matrix -> vector -> result vector)
    (self : Results) (M0 : matrix) (sigmas : vector) (return_rvs : bool)
    (v : lnlike_value) (self' : Results) :
  self !! "M"%string = Some (VArr (ND2 M0)) ->
  lnlike_sigmas linalg_solve self sigmas return_rvs false = Ok (v, self') ->
  self' = self.
Proof.
  intros HM Hrun. unfold lnlike_sigmas in Hrun.
  bind_inv Hrun.
  all: match goal with
       | E : design_with_constraint _ _ = Ok (_, ?s) |- _ =>
           apply (design_with_constraint_pure self M0) in E; [subst s|done]
       end.
  all: by inversion Hrun.
Qed.

(** C8. The solver reads the noise-inflation vector through its squares:
    flipping the sign of any entries changes nothing of what is returned;
    and with a cached design matrix (no forced rebuild) the call leaves
    the object as it found it. *)
Theorem sigma_sign_immaterial
    (linalg_solve : matrix -> vector -> result vector)
    (self : Results) (sigmas sigmas' : vector) (return_rvs restart : bool) :
  Forall2 (fun a b => b = a \/ b = fneg a) sigmas sigmas' ->
  lnlike_sigmas linalg_solve self sigmas' return_rvs restart
  = lnlike_sigmas linalg_solve self sigmas return_rvs restart /\
  (forall M0 v self',
      self !! "M"%string = Some (VArr (ND2 M0)) ->
      lnlike_sigmas linalg_solve self sigmas return_rvs false
      = Ok (v, self') ->
      self' = self).
Proof.
  intros Hrel. split.
  - unfold lnlike_sigmas.
    destruct (get_int self "R") as [R|e]; [|done]. cbn [mbind result_bind].
    rewrite <- (Forall2_length _ _ _ Hrel).
    destruct (negb _); [done|].
    destruct (design_with_constraint self restart) as [[M s0]|e]; [|done].
    cbn [mbind result_bind]. by rewrite (effective_ivars_sign s0 sigmas sigmas').
  - intros M0 v self' HM Hrun. by eapply lnlike_sigmas_pure.
Qed.


(* ===================================================================== *)
(** * The design matrix, entry by entry *)
(* ===================================================================== *)

Lemma lookup_blocks {A} (f : nat -> list A) (N : nat) :
  (forall r, length (f r) = N) ->
  forall m s r n, r < m -> n < N ->
    flat_map f (seq s m) !! (r * N + n) = f (s + r) !! n.
Proof.
  intros Hf m. induction m as [|m IH]; intros s r n Hr Hn; [lia|].
  cbn [seq flat_map]. destruct r as [|r].
  - cbn [Nat.mul Nat.add]. rewrite lookup_app_l by (rewrite Hf; lia).
    by rewrite Nat.add_0_r.
  - cbn [Nat.mul]. rewrite lookup_app_r by (rewrite Hf; lia). rewrite Hf.
    replace (N + r * N + n - N) with (r * N + n) by lia.
    rewrite IH by lia. by replace (s + S r) with (S s + r) by lia.
Qed.

Section Entries.
Context {T : Type} `{Num T}.

Lemma lookup_design_rows (R N r n : nat) :
  r < R -> n < N ->
  design_rows (T:=T) R N !! (r * N + n) = Some (design_row R N r n).
Proof.
  intros Hr Hn. unfold design_rows.
  rewrite (lookup_blocks _ N) by (done || intros; by rewrite length_map, length_seq).
  cbn [Nat.add]. rewrite list_lookup_fmap, lookup_seq_lt by done.
  reflexivity.
Qed.

Lemma lookup_design_row (R N r n j : nat) :
  r < R -> n < N -> j < N + R ->
  design_row (T:=T) R N r n !! j
  = Some (if bool_decide (j = n \/ j = N + r) then nunit else nzero).
Proof.
  intros Hr Hn Hj. unfold design_row.
  destruct (decide (j = N + r)) as [->|Hne1].
  - rewrite list_lookup_insert_eq
      by (rewrite length_insert, length_replicate; lia).
    rewrite bool_decide_eq_true_2 by (by right). reflexivity.
  - rewrite list_lookup_insert_ne by done.
    destruct (decide (j = n)) as [->|Hne2].
    + rewrite list_lookup_insert_eq by (rewrite length_replicate; lia).
      rewrite bool_decide_eq_true_2 by (by left). reflexivity.
    + rewrite list_lookup_insert_ne by done.
      rewrite lookup_replicate_2 by done.
      rewrite bool_decide_eq_false_2 by (intros [?|?]; done). reflexivity.
Qed.

Lemma lookup_constraint_row (R N j : nat) (w : T) :
  j < N + R ->
  constraint_row R N w !! j
  = Some (if bool_decide (N <= j) then w else nzero).
Proof.
  intros Hj. unfold constraint_row. destruct (decide (N <= j)) as [Hle|Hlt].
  - rewrite lookup_app_r by (by rewrite length_replicate).
    rewrite length_replicate, lookup_replicate_2 by lia.
    by rewrite bool_decide_eq_true_2.
  - rewrite lookup_app_l by (rewrite length_replicate; lia).
    rewrite lookup_replicate_2 by lia.
    by rewrite bool_decide_eq_false_2.
Qed.
End Entries.

(** C2. For R >= 1 and N >= 1 the design matrix the solver works with (the
    matrix of [get_design_matrix] with the constraint row appended at lines
    166-168) has R N + 1 rows and N + R columns; row r N + n holds 1 in
    columns n and N + r and 0 elsewhere; the last row holds 1/R in the last
    R columns and 0 elsewhere. *)
Theorem design_matrix_shape_and_entries
    (self : Results) (restart : bool) (R N : nat) :
  self !! "R"%string = Some (VInt R) ->
  self !! "N"%string = Some (VInt N) ->
  1 <= R -> 1 <= N ->
  design_cache_ok self restart R N ->
  exists (M : matrix) (self' : Results),
    design_with_constraint self restart = Ok (M, self') /\
    has_shape (R * N + 1) (N + R) M /\
    (forall r n j, r < R -> n < N -> j < N + R ->
       M !! (r * N + n) ≫= (fun row => row !! j)
       = Some (if bool_decide (j = n \/ j = N + r) then Fin 1 else Fin 0)) /\
    (forall j, j < N + R ->
       M !! (R * N) ≫= (fun row => row !! j)
       = Some (if bool_decide (N <= j) then Fin (1 / INR R) else Fin 0)).
Proof.
  intros HR HN HR1 HN1 Hc.
  rewrite (design_with_constraint_exact self restart R N) by done.
  do 2 eexists. split; [reflexivity|].
  split; [apply has_shape_mFin, has_shape_exact_design|].
  unfold exact_design, mFin. rewrite map_app, <- design_rows_mFin.
  split.
  - intros r n j Hr Hn Hj.
    rewrite lookup_app_l by (rewrite length_design_rows; nia).
    rewrite lookup_design_rows by done. cbn [mbind option_bind].
    by rewrite lookup_design_row.
  - intros j Hj.
    rewrite lookup_app_r by (by rewrite length_design_rows).
    rewrite length_design_rows, Nat.sub_diag. cbn [map lookup list_lookup].
    cbn [mbind option_bind].
    rewrite list_lookup_fmap, lookup_constraint_row by done. cbn.
    by destruct (bool_decide (N <= j)).
Qed.

Lemma design_matrix_shape_and_entries_witness :
  exists (M : matrix) (self' : Results),
    design_with_constraint
      (solver_object 2 2 (ND2 (mFin demo_rvs)) (ND2 (mFin unit_ivars))) false
    = Ok (M, self') /\
    has_shape (2 * 2 + 1) (2 + 2) M /\
    (forall r n j, r < 2 -> n < 2 -> j < 2 + 2 ->
       M !! (r * 2 + n) ≫= (fun row => row !! j)
       = Some (if bool_decide (j = n \/ j = 2 + r) then Fin 1 else Fin 0)) /\
    (forall j, j < 2 + 2 ->
       M !! (2 * 2) ≫= (fun row => row !! j)
       = Some (if bool_decide (2 <= j) then Fin (1 / INR 2) else Fin 0)).
Proof.
  apply (design_matrix_shape_and_entries _ false 2 2); try done; try lia.
  apply solver_object_cache.
Defined.

(** The builder alone returns the R N data rows; the constraint row is
    added by the solver at every call and is not part of the cache. *)
Lemma get_design_matrix_shape (self : Results) (restart : bool) (R N : nat) :
  self !! "R"%string = Some (VInt R) ->
  self !! "N"%string = Some (VInt N) ->
  design_cache_ok self restart R N ->
  exists M self',
    get_design_matrix self restart = Ok (M, self') /\
    has_shape (R * N) (N + R) M /\
    self' !! "M"%string = Some (VArr (ND2 M)).
Proof.
  intros HR HN Hc. rewrite (get_design_matrix_cached self restart R N) by done.
  do 2 eexists. split; [reflexivity|]. split.
  - split; [apply length_design_rows|apply Forall_design_rows].
  - by rewrite lookup_insert_eq.
Qed.

(* ===================================================================== *)
(** * The solver against section 4.2 of the specification *)
(* ===================================================================== *)

Section IndexForm.
Local Open Scope R_scope.

Lemma rsum_ext (f g : nat -> real) (n : nat) :
  (forall i, (i < n)%nat -> f i = g i) -> rsum f n = rsum g n.
Proof.
  intros Hfg. unfold rsum. f_equal. apply map_ext_in. intros i Hi.
  apply in_seq in Hi. apply Hfg. lia.
Qed.

Lemma nsum_rsum (l : list real) :
  nsum l = rsum (fun i => nth i l 0) (length l).
Proof.
  unfold rsum. pose proof (map_nth_seq (fun a => a) l []) as Hm.
  cbn [app length] in Hm. rewrite Hm. by rewrite map_id.
Qed.

Lemma nth_zip_mult (a b : list real) (i : nat) :
  length a = length b ->
  nth i (zip_with Rmult a b) 0 = nth i a 0 * nth i b 0.
Proof.
  revert b i. induction a as [|x a IH]; intros [|y b] i Hl;
    try discriminate.
  - destruct i; cbn; ring.
  - destruct i as [|i]; [reflexivity|]. cbn [zip_with nth].
    apply IH. cbn in Hl. lia.
Qed.

Lemma dot_rsum (a b : list real) :
  length a = length b ->
  dot a b = rsum (fun i => nth i a 0 * nth i b 0) (length a).
Proof.
  intros Hl. unfold dot. rewrite nsum_rsum, length_zip_with.
  replace (length a `min` length b)%nat with (length a) by lia.
  apply rsum_ext. intros i _. by apply nth_zip_mult.
Qed.

Lemma nth_matvec (X : list (list real)) (x : list real) (i : nat) :
  nth i (matvec X x) 0 = dot (nth i X []) x.
Proof.
  revert i. induction X as [|r X IH]; intros [|i]; try reflexivity.
  apply IH.
Qed.

(** the unit vector e_j of length n *)
Lemma dot_unit (n j : nat) (v : list real) :
  (j < n)%nat ->
  dot (<[j := 1]> (replicate n 0)) v = nth j v 0.
Proof.
  intros Hj. rewrite dot_insert by (by rewrite length_replicate).
  rewrite dot_replicate_0_l, nth_replicate_0. ring.
Qed.

Lemma nth_matvec_transpose (n : nat) (X : list (list real))
    (w : list real) (j : nat) :
  Forall (fun r => length r = n) X -> (j < n)%nat ->
  length w = length X ->
  nth j (matvec (transpose_n n X) w) 0
  = rsum (fun i => entry X i j * nth i w 0) (length X).
Proof.
  intros HX Hj Hw.
  rewrite <- (dot_unit n j) by done.
  rewrite (dot_matvec_transpose n) by done.
  rewrite dot_rsum by (by rewrite length_matvec).
  rewrite length_matvec. apply rsum_ext. intros i _.
  rewrite nth_matvec. unfold entry. f_equal.
  rewrite dot_comm. by apply dot_unit.
Qed.

Lemma nth_flatten (m n : nat) (X : list (list real)) (i : nat) :
  has_shape m n X -> (i < m * n)%nat ->
  nth i (flatten X) 0 = entry X (i / n) (i mod n).
Proof.
  intros [Hm HX]. subst m. revert i.
  induction HX as [|r X Hr _ IH]; intros i Hi; [cbn in Hi; lia|].
  assert (Hn : (0 < n)%nat) by (destruct n; [cbn in Hi; lia|lia]).
  unfold flatten, entry. cbn [concat].
  destruct (Nat.lt_ge_cases i n) as [Hlt|Hge].
  - rewrite app_nth1 by lia.
    rewrite Nat.div_small, Nat.mod_small by done. reflexivity.
  - rewrite app_nth2 by lia. rewrite Hr.
    replace i with ((i - n) + 1 * n)%nat at 2 3 by lia.
    rewrite Nat.div_add, Nat.Div0.mod_add by lia.
    replace ((i - n) / n + 1)%nat with (S ((i - n) / n)) by lia.
    cbn [nth]. apply IH. cbn [length] in Hi. lia.
Qed.
End IndexForm.

Section AgainstSpec.
Local Open Scope R_scope.
Variables (R N : nat) (A W : list (list real)) (s : list real).
Hypothesis HR1 : (1 <= R)%nat.
Hypothesis HN1 : (1 <= N)%nat.
Hypothesis HsA : has_shape R N A.
Hypothesis HsW : has_shape R N W.
Hypothesis Hs : length s = R.
Hypothesis Hpos : Forall (Forall (fun w => 0 < w)) W.

Let M := exact_design R N.
Let d := exact_ivars W s.

Lemma index_split (i : nat) :
  (i < R * N)%nat ->
  (i / N < R)%nat /\ (i mod N < N)%nat /\ i = (i / N * N + i mod N)%nat.
Proof.
  intros Hi. split; [|split].
  - apply Nat.Div0.div_lt_upper_bound. lia.
  - apply Nat.mod_upper_bound. lia.
  - rewrite Nat.mul_comm. apply Nat.div_mod_eq.
Qed.

Lemma entry_exact_design (i j : nat) :
  (i < R * N + 1)%nat -> (j < N + R)%nat ->
  entry M i j = spec_M R N i j.
Proof.
  intros Hi Hj. unfold entry, spec_M, M, exact_design.
  destruct (Nat.ltb_spec i (R * N)) as [Hlt|Hge].
  - destruct (index_split i Hlt) as (Hr & Hn & Heq).
    rewrite app_nth1 by (by rewrite length_design_rows).
    rewrite (nth_lookup_Some _ _ _ (design_row R N (i / N) (i mod N))).
    2:{ rewrite Heq at 1. by apply lookup_design_rows. }
    rewrite (nth_lookup_Some _ _ _ _ (lookup_design_row R N _ _ j Hr Hn Hj)).
    destruct (Nat.eqb_spec j (i mod N)) as [->|Hne1].
    { by rewrite bool_decide_eq_true_2 by (by left). }
    destruct (Nat.eqb_spec j (N + i / N)) as [->|Hne2].
    { by rewrite bool_decide_eq_true_2 by (by right). }
    by rewrite bool_decide_eq_false_2 by (intros [?|?]; done).
  - assert (i = R * N)%nat as -> by lia.
    rewrite app_nth2 by (rewrite length_design_rows; lia).
    rewrite length_design_rows, Nat.sub_diag. cbn [nth].
    rewrite (nth_lookup_Some _ _ _ _
               (lookup_constraint_row R N j (1 / INR R) Hj)).
    destruct (Nat.leb_spec N j).
    + by rewrite bool_decide_eq_true_2.
    + by rewrite bool_decide_eq_false_2 by lia.
Qed.

Lemma nth_exact_ys (i : nat) :
  (i < R * N + 1)%nat -> nth i (exact_ys A) 0 = spec_y R N A i.
Proof.
  intros Hi. unfold exact_ys, spec_y.
  pose proof (length_flatten_shape R N A HsA) as Hl.
  destruct (Nat.ltb_spec i (R * N)) as [Hlt|Hge].
  - rewrite app_nth1 by lia. by apply (nth_flatten R N).
  - rewrite app_nth2 by lia. rewrite Hl.
    by replace (i - R * N)%nat with 0%nat by lia.
Qed.

Lemma nth_map_in_range {B} (g : real -> B) (l : list real) (n : nat)
    (db : B) :
  (n < length l)%nat -> nth n (map g l) db = g (nth n l 0).
Proof.
  intros Hn. rewrite (nth_indep _ db (g 0)) by (by rewrite length_map).
  apply map_nth.
Qed.

Lemma shape_row (X : list (list real)) (r : nat) :
  has_shape R N X -> (r < R)%nat -> length (nth r X []) = N.
Proof.
  intros [Hm HX] Hr. rewrite Forall_forall in HX. apply HX.
  apply list_elem_of_In, nth_In. lia.
Qed.

Lemma nth_exact_ivars (i : nat) :
  (i < R * N + 1)%nat -> nth i d 0 = spec_ivar R N W s i.
Proof.
  intros Hi. unfold d, exact_ivars, spec_ivar.
  set (f := fun (row : list real) (sr : real) =>
              map (fun w => ivar_exact w sr) row).
  assert (Hsh : has_shape R N (zip_with f W s)).
  { destruct HsW as [HW1 HW2]. split; [rewrite length_zip_with; lia|].
    apply Forall_forall. intros r Hr.
    apply elem_of_lookup_zip_with in Hr as (k & row & sr & -> & Hrow & _).
    unfold f. rewrite length_map. rewrite Forall_forall in HW2.
    apply HW2. by eapply list_elem_of_lookup_2. }
  pose proof (length_flatten_shape R N _ Hsh) as Hl.
  destruct (Nat.ltb_spec i (R * N)) as [Hlt|Hge].
  - destruct (index_split i Hlt) as (Hr & Hn & Heq).
    rewrite app_nth1 by lia. rewrite (nth_flatten R N) by done.
    unfold entry.
    assert (Hrow : nth (i / N) (zip_with f W s) []
                   = f (nth (i / N) W []) (nth (i / N) s 0)).
    { destruct HsW as [HW1 _]. clear -Hr HW1 Hs.
      revert R W HW1 Hs Hr. generalize (i / N)%nat as r.
      induction s as [|sr s' IH]; intros r R W HW1 Hs Hr;
        [cbn in Hs; lia|].
      destruct W as [|row W']; [cbn in HW1; lia|].
      destruct r as [|r]; [reflexivity|]. cbn [zip_with nth].
      apply (IH r (length s')); cbn in *; lia. }
    rewrite Hrow. unfold f.
    rewrite nth_map_in_range by (by rewrite (shape_row W)).
    unfold ivar_exact.
    assert (Hw : 0 < nth (i mod N) (nth (i / N) W []) 0).
    { rewrite Forall_forall in Hpos.
      assert (Hin : nth (i / N) W [] ∈ W).
      { apply list_elem_of_In, nth_In. destruct HsW. lia. }
      specialize (Hpos _ Hin). rewrite Forall_forall in Hpos.
      apply Hpos, list_elem_of_In, nth_In. by rewrite (shape_row W). }
    destruct (Req_dec_T _ 0) as [Hz|_]; [lra|].
    f_equal. f_equal. ring.
  - rewrite app_nth2 by lia. rewrite Hl.
    by replace (i - R * N)%nat with 0%nat by lia.
Qed.

Lemma nth_predict (x : list real) (i : nat) :
  length x = (N + R)%nat -> (i < R * N + 1)%nat ->
  nth i (matvec M x) 0 = spec_predict R N x i.
Proof.
  intros Hx Hi. rewrite nth_matvec. unfold spec_predict.
  pose proof (has_shape_exact_design R N) as [HM1 HM2].
  assert (Hrow : length (nth i M []) = (N + R)%nat).
  { rewrite Forall_forall in HM2. apply HM2.
    apply list_elem_of_In, nth_In. unfold M. lia. }
  rewrite dot_rsum by lia. rewrite Hrow. apply rsum_ext. intros k Hk.
  f_equal. by apply entry_exact_design.
Qed.

Lemma length_d : length d = (R * N + 1)%nat.
Proof. by apply length_exact_ivars. Qed.

(** The list form of the normal equations is the specification's. *)
Lemma normal_equations_spec (x : list real) :
  length x = (N + R)%nat ->
  matvec (normal_matrix R N d) x = normal_rhs R N A d ->
  spec_normal_equations R N A W s x.
Proof.
  intros Hx Heq j Hj.
  apply (f_equal (fun l => nth j l 0)) in Heq.
  rewrite (matvec_normal_matrix R N d length_d) in Heq. cbv zeta in Heq.
  unfold normal_rhs in Heq.
  rewrite (transpose_exact_design R N) in Heq. fold M in Heq.
  pose proof (has_shape_exact_design R N) as [HM1 HM2]. fold M in HM1, HM2.
  pose proof (length_exact_ys R N A HsA) as Hy.
  rewrite !(nth_matvec_transpose (N + R)) in Heq; try done.
  2:{ rewrite length_zip_with, length_d, Hy. lia. }
  2:{ rewrite length_zip_with, length_d, length_matvec. lia. }
  rewrite HM1 in Heq.
  etransitivity; [|etransitivity; [exact Heq|]]; apply rsum_ext; intros i Hi.
  - rewrite nth_zip_mult by (rewrite length_d, length_matvec; lia).
    rewrite entry_exact_design, nth_exact_ivars, nth_predict by done. ring.
  - rewrite nth_zip_mult by (rewrite length_d, Hy; lia).
    rewrite entry_exact_design, nth_exact_ivars, nth_exact_ys by done. ring.
Qed.
End AgainstSpec.

Section LogLikelihood.
Local Open Scope R_scope.

Lemma nth_zip_minus (a b : list real) (i : nat) :
  length a = length b ->
  nth i (zip_with Rminus a b) 0 = nth i a 0 - nth i b 0.
Proof.
  revert b i. induction a as [|x a IH]; intros [|y b] i Hl;
    try discriminate.
  - destruct i; cbn; ring.
  - destruct i as [|i]; [reflexivity|]. cbn [zip_with nth].
    apply IH. cbn in Hl. lia.
Qed.

Lemma log_terms_finite (d : list real) :
  Forall (fun a => 0 < a) d ->
  map (fun a => flog (fmul (Fin (2 * PI)) a)) (vFin d)
  = vFin (map (fun a => ln (2 * PI * a)) d).
Proof.
  induction 1 as [|a d Ha _ IH]; [done|]. cbn [vFin map].
  unfold vFin in IH. rewrite IH. f_equal. cbn.
  destruct (Rlt_dec 0 (2 * PI * a)) as [_|Hn]; [done|].
  exfalso. apply Hn. pose proof PI_RGT_0. nra.
Qed.

(** With positive precisions line 179 is finite and is the sum of the
    specification. *)
Lemma lnlike_float_finite (d resid : list real) :
  Forall (fun a => 0 < a) d -> length resid = length d ->
  lnlike_float d resid
  = Fin (-0.5 * rsum (fun i => nth i resid 0 ^ 2 * nth i d 0
                               - ln (2 * PI * nth i d 0)) (length d)).
Proof.
  intros Hd Hl. unfold lnlike_float. rewrite log_terms_finite by done.
  rewrite (zip_with_vFin _ Rminus) by reflexivity.
  rewrite nsum_vFin. cbn [fmul]. f_equal. f_equal.
  rewrite nsum_rsum.
  assert (Hlen : length (zip_with Rminus
                   (zip_with Rmult (zip_with Rmult resid d) resid)
                   (map (fun a => ln (2 * PI * a)) d)) = length d).
  { rewrite !length_zip_with. rewrite ?length_map, ?length_fmap. lia. }
  rewrite Hlen. apply rsum_ext. intros i Hi.
  rewrite nth_zip_minus.
  2:{ rewrite !length_zip_with. rewrite ?length_map, ?length_fmap. lia. }
  rewrite nth_zip_mult by (rewrite length_zip_with; lia).
  rewrite nth_zip_mult by lia.
  rewrite (nth_indep (map (fun a => ln (2 * PI * a)) d) 0 (ln (2 * PI * 0)))
    by (by rewrite length_map).
  rewrite (map_nth (fun a => ln (2 * PI * a))). ring.
Qed.
End LogLikelihood.

(** C5. The scalar the solver returns is the Gaussian log-likelihood of
    section 4.2: with ivar[r, n] = 1 / (1 / W[r, n] + sigma[r]^2), the data
    flattened row-major and one synthetic datum (value 0, precision 1)
    appended, it is -0.5 * sum(resid^2 * ivar - log(2 pi ivar)) for
    resid = y - M x, where x is the solution of the weighted normal
    equations handed to the direct solver; x is also what is returned as
    time and order RVs. Stated for strictly positive nominal precisions,
    the precondition of section 4.2, under which the normal equations
    always have their solution and the call returns. *)
Theorem lnlike_is_gaussian_log_likelihood
    (linalg_solve : matrix -> vector -> result vector)
    (self : Results) (R N : nat) (A W : list (list real)) (s : list real)
    (return_rvs restart : bool) :
  linalg_solve_spec linalg_solve ->
  solver_input self R N A W ->
  design_cache_ok self restart R N ->
  length s = R ->
  Forall (Forall (fun w => (0 < w)%R)) W ->
  exists (x : list real) (self' : Results),
    length x = N + R /\
    spec_normal_equations R N A W s x /\
    lnlike_sigmas linalg_solve self (vFin s) return_rvs restart
    = Ok (if return_rvs
          then LnlikeRvs (Fin (spec_lnlike R N A W s x))
                         (vFin (take N x)) (vFin (drop N x))
          else Lnlike (Fin (spec_lnlike R N A W s x)),
          self').
Proof.
  intros Hsolve Hin Hc Hs Hpos.
  assert (Hnn : Forall (Forall (fun w => (0 <= w)%R)) W).
  { eapply Forall_impl; [exact Hpos|]. intros r Hr.
    eapply Forall_impl; [exact Hr|]. intros w Hw. cbn in Hw. lra. }
  pose proof Hin as [_ _ HR1 HN1 _ _ HsA HsW].
  pose proof (length_exact_ivars R N W s HsW Hs) as Hd.
  destruct (normal_system_solvable R N A (exact_ivars W s) HR1 HN1 Hd)
    as [x Hx]; [by apply exact_ivars_pos|].
  rewrite (lnlike_sigmas_solved linalg_solve Hsolve self R N A W s return_rvs
             restart Hin Hc Hs Hnn x Hx).
  destruct Hx as (Hl & Heq & _). rewrite length_normal_rhs in Hl.
  exists x. eexists. split; [done|]. split.
  - by apply normal_equations_spec.
  - assert (Hres : length (exact_resid R N A x) = R * N + 1).
    { unfold exact_resid.
      rewrite length_zip_with, (length_exact_ys R N), length_matvec by done.
      destruct (has_shape_exact_design R N) as [-> _]. lia. }
    assert (Hlike : lnlike_float (exact_ivars W s) (exact_resid R N A x)
                    = Fin (spec_lnlike R N A W s x)).
    { rewrite lnlike_float_finite;
        [|by apply exact_ivars_pos|by rewrite Hres, Hd].
      unfold spec_lnlike. f_equal. f_equal. rewrite Hd.
      apply rsum_ext. intros i Hi.
      rewrite (nth_exact_ivars R N W s) by done.
      unfold exact_resid. rewrite nth_zip_minus.
      2:{ rewrite (length_exact_ys R N), length_matvec by done.
          by destruct (has_shape_exact_design R N) as [-> _]. }
      rewrite (nth_exact_ys R N A s), (nth_predict R N s) by done.
      reflexivity. }
    unfold lnlike_at. cbv zeta. rewrite Hlike.
    by destruct return_rvs.
Qed.

(* ===================================================================== *)
(** * The driver on the example data *)
(* ===================================================================== *)

(** The initial guess on [demo_rvs]: the medians give residuals of
    variance 4 in both orders, and the starting point is its logarithm. *)
Lemma demo_initial_guess (self : Results) :
  self !! "all_rvs"%string = Some (VArr (ND2 (mFin demo_rvs))) ->
  self !! "R"%string = Some (VInt 2) ->
  self !! "N"%string = Some (VInt 2) ->
  initial_guess self = Ok (vFin [ln demo_var; ln demo_var]).
Proof.
  intros HA HR HN. unfold initial_guess.
  rewrite (get_array_lookup _ _ _ HA), (get_int_lookup _ _ _ HR),
    (get_int_lookup _ _ _ HN).
  unfold demo_rvs, bcast2, median, var, mean, transpose, tile_columns,
    tile_rows.
  float_eval.
  unfold demo_var. repeat f_equal; cbn [INR]; lra.
Qed.

Lemma ln_demo_var_pos : (0 < ln demo_var)%R.
Proof.
  rewrite <- ln_1. apply ln_increasing; unfold demo_var; lra.
Qed.

(** The solver on the example data, whatever the common sigma. *)
Lemma demo_lnlike_sigmas (self : Results) (restart return_rvs : bool)
    (k : real) :
  solver_input self 2 2 demo_rvs unit_ivars ->
  design_cache_ok self restart 2 2 ->
  lnlike_sigmas lapack_solve self (vFin [k; k]) return_rvs restart
  = Ok (lnlike_at 2 2 demo_rvs (exact_ivars unit_ivars [k; k]) demo_fit
                  return_rvs,
        <["M"%string := VArr (ND2 (design_rows 2 2))]> self).
Proof.
  intros Hin Hc.
  apply (lnlike_sigmas_solved lapack_solve lapack_solve_spec self 2 2
           demo_rvs unit_ivars [k; k] return_rvs restart Hin Hc).
  - reflexivity.
  - repeat constructor; lra.
  - apply (demo_solves (ivar_exact 1 k)). apply ivar_exact_pos. lra.
Qed.

Lemma demo_solver_input :
  solver_input (solver_object 2 2 (ND2 (mFin demo_rvs)) (ND2 (mFin unit_ivars)))
               2 2 demo_rvs unit_ivars.
Proof.
  apply solver_object_input; try lia; split; try done; by repeat constructor.
Qed.

(** ** C5: a run *)

Lemma lnlike_is_gaussian_log_likelihood_witness :
  exists (x : list real) (self' : Results),
    length x = 2 + 2 /\
    spec_normal_equations 2 2 demo_rvs unit_ivars [1; 1]%R x /\
    lnlike_sigmas lapack_solve
      (solver_object 2 2 (ND2 (mFin demo_rvs)) (ND2 (mFin unit_ivars)))
      (vFin [1; 1]%R) true false
    = Ok (LnlikeRvs (Fin (spec_lnlike 2 2 demo_rvs unit_ivars [1; 1]%R x))
                    (vFin (take 2 x)) (vFin (drop 2 x)),
          self').
Proof.
  apply (lnlike_is_gaussian_log_likelihood lapack_solve
           (solver_object 2 2 (ND2 (mFin demo_rvs)) (ND2 (mFin unit_ivars)))
           2 2 demo_rvs unit_ivars [1; 1]%R true false).
  - exact lapack_solve_spec.
  - exact demo_solver_input.
  - apply solver_object_cache.
  - reflexivity.
  - repeat constructor; lra.
Defined.

(* ===================================================================== *)
(** * Registration of components *)
(* ===================================================================== *)

Lemma isin_elem (nm : string) (l : list value) :
  VStr nm ∈ l -> isin nm l = true.
Proof.
  intros Hin. unfold isin. apply existsb_exists. exists (VStr nm).
  split; [by apply list_elem_of_In|]. apply String.eqb_refl.
Qed.

(** C10. Registering a component whose name is already in
    [component_names] returns at once: the object is left as it was, and
    [component_names] with it. *)
Theorem add_component_duplicate_is_noop
    (self : Results) (c : Component) (names : list value) :
  self !! "component_names"%string = Some (VList names) ->
  VStr (name c) ∈ names ->
  add_component self c = Ok self.
Proof.
  intros Hnames Hin. unfold add_component, get_attr. rewrite Hnames. cbn.
  by rewrite isin_elem.
Qed.

Lemma add_component_duplicate_is_noop_witness :
  add_component demo_results {| name := "star" |} = Ok demo_results.
Proof.
  apply (add_component_duplicate_is_noop demo_results {| name := "star" |}
           [VStr "star"]).
  - reflexivity.
  - apply list_elem_of_here.
Defined.

(* ===================================================================== *)
(** * The parameters of the optimization *)
(* ===================================================================== *)

Lemma demo_effective_ivars (p : real) :
  effective_ivars demo_object (vFin [p; p])
  = Ok (vFin [1 / (1 / 1 + p * p); 1 / (1 / 1 + p * p);
              1 / (1 / 1 + p * p); 1 / (1 / 1 + p * p); 1])%R.
Proof.
  rewrite (effective_ivars_exact demo_object 2 2 unit_ivars [p; p]);
    try done; try lia.
  - f_equal. unfold exact_ivars, unit_ivars, ivar_exact. cbn.
    destruct (Req_dec_T 1 0) as [H|_]; [exfalso; lra|]. reflexivity.
  - split; [done|]. by repeat constructor.
  - repeat constructor; lra.
Qed.

(** C1 fails on the code. The driver starts the optimizer at the
    logarithm of a variance, but the objective squares its parameter: at
    p = 0 nothing is added to 1/W (the precision stays 1), where a
    log-variance reading adds exp(0) = 1 (precision 1/2). *)
Theorem noise_parameter_is_squared :
  initial_guess demo_object = Ok (vFin [ln demo_var; ln demo_var]) /\
  (forall p : real,
      effective_ivars demo_object (vFin [p; p])
      = Ok (vFin [1 / (1 / 1 + p * p); 1 / (1 / 1 + p * p);
                  1 / (1 / 1 + p * p); 1 / (1 / 1 + p * p); 1])%R) /\
  (1 / (1 / 1 + 0 * 0) = 1 /\ logvar_ivar 1 0 = 1 / 2)%R.
Proof.
  split; [by apply demo_initial_guess|]. split; [apply demo_effective_ivars|].
  unfold logvar_ivar. rewrite exp_0. split; field.
Qed.

(* ===================================================================== *)
(** * The driver: what it leaves on the object *)
(* ===================================================================== *)

(** ** Attribute names *)

Lemma length_append (a b : string) :
  String.length (a +:+ b) = String.length a + String.length b.
Proof.
  induction a as [|c a IH]; [done|].
  change (S (String.length (a +:+ b)) = S (String.length a + String.length b)).
  by rewrite IH.
Qed.

Lemma append_assoc (a b c : string) : (a +:+ b) +:+ c = a +:+ (b +:+ c).
Proof.
  induction a as [|x a IH]; [done|].
  change (String x ((a +:+ b) +:+ c) = String x (a +:+ (b +:+ c))).
  by rewrite IH.
Qed.

(** a result attribute [name_suffix] is not one of the transient ones *)
Lemma result_key_fresh (nm suffix tmp : string) :
  String.length tmp < String.length suffix ->
  nm +:+ suffix <> tmp.
Proof.
  intros Hlen Heq. apply (f_equal String.length) in Heq.
  rewrite length_append in Heq. lia.
Qed.

Lemma time_rvs_key_fresh (nm : string) :
  nm +:+ "_time_rvs" <> "M" /\ nm +:+ "_time_rvs" <> "all_rvs" /\
  nm +:+ "_time_rvs" <> "all_ivars".
Proof.
  split; [|split]; try (apply result_key_fresh; cbn; lia).
  destruct nm as [|c nm]; [done|]. intros Heq.
  apply (f_equal String.length) in Heq. cbn in Heq.
  rewrite length_append in Heq. cbn in Heq. lia.
Qed.

Lemma order_rvs_key_fresh (nm : string) :
  nm +:+ "_order_rvs" <> "M" /\ nm +:+ "_order_rvs" <> "all_rvs" /\
  nm +:+ "_order_rvs" <> "all_ivars".
Proof. repeat split; apply result_key_fresh; cbn; lia. Qed.

Lemma order_sigmas_key_fresh (nm : string) :
  nm +:+ "_order_sigmas" <> "M" /\ nm +:+ "_order_sigmas" <> "all_rvs" /\
  nm +:+ "_order_sigmas" <> "all_ivars".
Proof. repeat split; apply result_key_fresh; cbn; lia. Qed.

Lemma result_keys_distinct (nm : string) :
  nm +:+ "_time_rvs" <> nm +:+ "_order_rvs" /\
  nm +:+ "_time_rvs" <> nm +:+ "_order_sigmas" /\
  nm +:+ "_order_rvs" <> nm +:+ "_order_sigmas".
Proof.
  repeat split; intros Heq; by apply String.app_inj in Heq.
Qed.

(** ** The solver changes the cache only *)

Lemma design_with_constraint_run (self : Results) (restart : bool)
    (R N : nat) (M : matrix) (self' : Results) :
  self !! "R"%string = Some (VInt R) ->
  self !! "N"%string = Some (VInt N) ->
  design_cache_ok self restart R N ->
  design_with_constraint self restart = Ok (M, self') ->
  1 <= R /\ 1 <= N /\ M = mFin (exact_design R N) /\
  self' = <["M"%string := VArr (ND2 (design_rows R N))]> self.
Proof.
  intros HR HN Hc Hrun.
  assert (Hpos : 1 <= R /\ 1 <= N).
  { unfold design_with_constraint in Hrun.
    rewrite (get_design_matrix_cached self restart R N) in Hrun by done.
    cbn [mbind result_bind] in Hrun.
    destruct (design_rows R N) as [|r0 rest] eqn:E; [discriminate|].
    apply (f_equal length) in E. rewrite length_design_rows in E.
    cbn in E. nia. }
  destruct Hpos as [HR1 HN1]. do 2 (split; [done|]).
  rewrite (design_with_constraint_exact self restart R N) in Hrun by done.
  by inversion Hrun.
Qed.

Lemma np_dot21_inv (X : matrix) (v y : vector) :
  np_dot21 X v = Ok y -> ncols X = length v.
Proof.
  unfold np_dot21. by destruct (Nat.eqb_spec (ncols X) (length v)).
Qed.

Lemma lnlike_sigmas_run
    (linalg_solve : matrix -> vector -> result vector)
    (self : Results) (R N : nat) (sigmas : vector)
    (return_rvs restart : bool) (v : lnlike_value) (self' : Results) :
  self !! "R"%string = Some (VInt R) ->
  self !! "N"%string = Some (VInt N) ->
  design_cache_ok self restart R N ->
  lnlike_sigmas linalg_solve self sigmas return_rvs restart = Ok (v, self') ->
  self' = <["M"%string := VArr (ND2 (design_rows R N))]> self /\
  length sigmas = R /\
  match v with
  | LnlikeRvs _ rvs_N rvs_R => length rvs_N = N /\ length rvs_R = R
  | Lnlike _ => True
  end.
Proof.
  intros HR HN Hc Hrun. unfold lnlike_sigmas in Hrun.
  rewrite (get_int_lookup _ _ _ HR) in Hrun. cbn [mbind result_bind] in Hrun.
  destruct (Nat.eqb_spec (length sigmas) R) as [Hlen|]; [|discriminate].
  cbn [negb] in Hrun.
  destruct (design_with_constraint self restart) as [[M s1]|e] eqn:Ed;
    [|discriminate].
  destruct (design_with_constraint_run _ _ R N _ _ HR HN Hc Ed)
    as (HR1 & HN1 & -> & ->).
  cbn [mbind result_bind] in Hrun. bind_inv Hrun.
  all: match goal with
       | E : np_dot21 (mFin (exact_design _ _)) _ = Ok _ |- _ =>
           apply np_dot21_inv in E; rewrite ncols_mFin in E;
           rewrite (ncols_has_shape _ _ _ (has_shape_exact_design R N)) in E
             by lia
       end.
  all: match goal with
       | E : get_int _ "N" = Ok ?n |- _ =>
           rewrite (get_int_lookup _ "N" N) in E
             by (by rewrite lookup_insert_ne);
           inversion E; subst n
       end.
  all: inversion Hrun; subst; split; [done|]; split; [done|]; try done.
  rewrite length_take, length_drop. lia.
Qed.

Lemma design_cache_ok_cached (self : Results) (R N : nat) :
  design_cache_ok (<["M"%string := VArr (ND2 (design_rows R N))]> self)
                  false R N.
Proof. eexists. split; [apply lookup_insert_eq|]. by right. Qed.

Lemma objective_keeps_optimizing
    (linalg_solve : matrix -> vector -> result vector)
    (R N : nat) (s0 s s' : Results) (p : vector) (v : float64) :
  optimizing R N s0 s ->
  opposite_lnlike_sigmas linalg_solve p s = Ok (v, s') ->
  optimizing R N s0 s'.
Proof.
  intros (HR & HN & Hc & Hframe) Hrun. unfold opposite_lnlike_sigmas in Hrun.
  destruct (lnlike_sigmas linalg_solve s p false false) as [[r s1]|e] eqn:E;
    [|discriminate].
  destruct (lnlike_sigmas_run _ _ R N _ _ _ _ _ HR HN Hc E) as (-> & _ & _).
  cbn [mbind result_bind] in Hrun. destruct r; inversion Hrun; subst.
  split; [by rewrite lookup_insert_ne|].
  split; [by rewrite lookup_insert_ne|].
  split; [apply design_cache_ok_cached|].
  intros k Hk. rewrite lookup_insert_ne by done. by apply Hframe.
Qed.

Lemma objective_calls_optimizing
    (linalg_solve : matrix -> vector -> result vector)
    (R N n : nat) (s0 s s' : Results) :
  optimizing R N s0 s ->
  objective_calls (opposite_lnlike_sigmas linalg_solve) n s s' ->
  optimizing R N s0 s'.
Proof.
  intros Hopt Hcalls. induction Hcalls as [s|s p v s1 s2 _ Hf _ IH]; [done|].
  apply IH. by eapply objective_keeps_optimizing.
Qed.

Lemma del_attr_inv (s s' : Results) (k : string) :
  del_attr s k = Ok s' -> s' = delete k s.
Proof.
  unfold del_attr. destruct (s !! k); [|discriminate]. by intros [= <-].
Qed.

(** C9. After a successful [combine_orders] the transient attributes M,
    all_rvs and all_ivars are gone, the three results are in place with
    N, R and R entries, and every other attribute is as it was before the
    call. (It holds for any name on which the call succeeds.) *)
Theorem combine_orders_frame
    (linalg_solve : matrix -> vector -> result vector)
    (minimize : objective -> vector -> Results -> result (vector * Results))
    (self self' : Results) (component_name : string) (R N : nat) :
  minimize_spec minimize ->
  self !! "R"%string = Some (VInt R) ->
  self !! "N"%string = Some (VInt N) ->
  combine_orders linalg_solve minimize self component_name = Ok self' ->
  (self' !! "M"%string = None /\
   self' !! "all_rvs"%string = None /\
   self' !! "all_ivars"%string = None) /\
  (exists rvs_N rvs_R sigmas : vector,
      self' !! (component_name +:+ "_time_rvs") = Some (VArr (ND1 rvs_N)) /\
      length rvs_N = N /\
      self' !! (component_name +:+ "_order_rvs") = Some (VArr (ND1 rvs_R)) /\
      length rvs_R = R /\
      self' !! (component_name +:+ "_order_sigmas")
      = Some (VArr (ND1 sigmas)) /\
      length sigmas = R) /\
  (forall k : string,
      k ∉ ["M"; "all_rvs"; "all_ivars"; component_name +:+ "_time_rvs";
           component_name +:+ "_order_rvs";
           component_name +:+ "_order_sigmas"]%string ->
      self' !! k = self !! k).
Proof.
  intros [Hmin _] HR HN Hrun. unfold combine_orders in Hrun.
  rewrite !append_assoc in Hrun.
  change ("_" +:+ "time_rvs") with "_time_rvs" in Hrun.
  change ("_" +:+ "order_rvs") with "_order_rvs" in Hrun.
  change ("_" +:+ "order_sigmas") with "_order_sigmas" in Hrun.
  destruct (get_attr self "component_names") as [names|]; [|discriminate].
  cbn [mbind result_bind] in Hrun.
  destruct (get_attr self _ ≫= asarray) as [all_rvs|]; [|discriminate].
  cbn [mbind result_bind] in Hrun.
  destruct (get_attr _ _ ≫= asarray) as [all_ivars|]; [|discriminate].
  cbn [mbind result_bind] in Hrun.
  destruct (initial_guess _) as [x0|]; [|discriminate].
  cbn [mbind result_bind] in Hrun.
  set (s_c := <["M"%string := VNone]>
                (<["all_ivars"%string := VArr all_ivars]>
                   (<["all_rvs"%string := VArr all_rvs]> self))) in *.
  destruct (minimize _ x0 s_c) as [[soln s2]|] eqn:Emin; [|discriminate].
  cbn [mbind result_bind] in Hrun.
  destruct (Hmin _ _ _ _ _ Emin) as [_ Hcalls].
  assert (Hopt : optimizing R N s_c s_c).
  { unfold s_c. split; [by rewrite !lookup_insert_ne|].
    split; [by rewrite !lookup_insert_ne|]. split; [|done].
    exists VNone. split; [apply lookup_insert_eq|]. by left. }
  apply (objective_calls_optimizing linalg_solve R N _ s_c s_c s2 Hopt)
    in Hcalls as (HR2 & HN2 & Hc2 & Hframe).
  destruct (lnlike_sigmas linalg_solve s2 soln true false)
    as [[v s3]|] eqn:Efinal; [|discriminate].
  cbn [mbind result_bind] in Hrun.
  destruct (lnlike_sigmas_run _ _ R N _ _ _ _ _ HR2 HN2 Hc2 Efinal)
    as (-> & Hsoln & Hv).
  destruct v as [|lnlike rvs_N rvs_R]; [discriminate|].
  destruct Hv as [HrN HrR]. cbn [foldl mbind result_bind] in Hrun.
  repeat match goal with
         | H : (?m ≫= _) = Ok _ |- _ =>
             destruct m eqn:?; [cbn [mbind result_bind] in H|discriminate H]
         end.
  repeat match goal with
         | E : del_attr _ _ = Ok ?x |- _ => apply del_attr_inv in E; subst x
         end.
  destruct (time_rvs_key_fresh component_name) as (Ht1 & Ht2 & Ht3).
  destruct (order_rvs_key_fresh component_name) as (Ho1 & Ho2 & Ho3).
  destruct (order_sigmas_key_fresh component_name) as (Hs1 & Hs2 & Hs3).
  destruct (result_keys_distinct component_name) as (Hd1 & Hd2 & Hd3).
  split; [|split].
  - split; [|split].
    + rewrite lookup_delete_ne by done. rewrite lookup_delete_ne by done.
      apply lookup_delete_eq.
    + rewrite lookup_delete_ne by done. apply lookup_delete_eq.
    + apply lookup_delete_eq.
  - exists rvs_N, rvs_R, soln.
    rewrite !lookup_delete_ne by done.
    rewrite !(lookup_insert_ne _ (component_name +:+ "_order_sigmas")
                (component_name +:+ "_time_rvs")) by done.
    rewrite !(lookup_insert_ne _ (component_name +:+ "_order_rvs")
                (component_name +:+ "_time_rvs")) by done.
    rewrite !(lookup_insert_ne _ (component_name +:+ "_order_sigmas")
                (component_name +:+ "_order_rvs")) by done.
    rewrite !lookup_insert_eq. done.
  - intros k Hk. rewrite !not_elem_of_cons in Hk.
    destruct Hk as (Hk1 & Hk2 & Hk3 & Hk4 & Hk5 & Hk6 & _).
    rewrite !lookup_delete_ne by done. rewrite !lookup_insert_ne by done.
    rewrite Hframe by done. unfold s_c. by rewrite !lookup_insert_ne.
Qed.

(* ===================================================================== *)
(** * Runs of the driver on the example data *)
(* ===================================================================== *)

Lemma demo_lnlike_sigmas_gen (self : Results) (restart return_rvs : bool)
    (sigmas : vector) (w : real) :
  self !! "R"%string = Some (VInt 2) ->
  self !! "N"%string = Some (VInt 2) ->
  self !! "all_rvs"%string = Some (VArr (ND2 (mFin demo_rvs))) ->
  design_cache_ok self restart 2 2 ->
  length sigmas = 2 ->
  (0 < w)%R ->
  effective_ivars self sigmas = Ok (vFin [w; w; w; w; 1%R]) ->
  lnlike_sigmas lapack_solve self sigmas return_rvs restart
  = Ok (lnlike_at 2 2 demo_rvs [w; w; w; w; 1%R] demo_fit return_rvs,
        <["M"%string := VArr (ND2 (design_rows 2 2))]> self).
Proof.
  intros HR HN HA Hc Hs Hw Hiv.
  apply (lnlike_sigmas_solved_gen lapack_solve lapack_solve_spec self 2 2
           demo_rvs [w; w; w; w; 1%R] sigmas return_rvs restart);
    try done; try lia.
  - split; [done|]. by repeat constructor.
  - by apply demo_solves.
Qed.

(** The driver on the example data, for any stored precisions that give
    all four data one finite positive effective precision [w] at the
    starting point: the optimizer stops at the starting point, and the fit
    is that of equal weights. *)
Lemma demo_combine_orders (ivars : ndarray) (w : real) :
  (0 < w)%R ->
  effective_ivars
    (staged (demo_results_with ivars) (ND2 (mFin demo_rvs)) ivars)
    (vFin [ln demo_var; ln demo_var])
  = Ok (vFin [w; w; w; w; 1%R]) ->
  exists self' : Results,
    combine_orders lapack_solve minimize_at_start
                   (demo_results_with ivars) "star" = Ok self' /\
    self' !! "star_time_rvs"%string = Some (VArr (ND1 (vFin [0; 4]%R))) /\
    self' !! "star_order_rvs"%string = Some (VArr (ND1 (vFin [2; -2]%R))) /\
    self' !! "star_order_sigmas"%string
    = Some (VArr (ND1 (vFin [ln demo_var; ln demo_var]))).
Proof.
  intros Hw Hiv. unfold combine_orders. unfold staged in Hiv.
  set (s_b := <["all_ivars"%string := VArr ivars]>
                (<["all_rvs"%string := VArr (ND2 (mFin demo_rvs))]>
                   (demo_results_with ivars))) in *.
  assert (Hstage : forall v : value,
             (<["M"%string := v]> s_b) !! "R"%string = Some (VInt 2) /\
             (<["M"%string := v]> s_b) !! "N"%string = Some (VInt 2) /\
             (<["M"%string := v]> s_b) !! "all_rvs"%string
             = Some (VArr (ND2 (mFin demo_rvs)))).
  { intros v. repeat split; reflexivity. }
  assert (Hx0 : initial_guess s_b = Ok (vFin [ln demo_var; ln demo_var]))
    by (by apply demo_initial_guess).
  assert (Hobj : forall (v : value) (rr : bool),
             design_cache_ok (<["M"%string := v]> s_b) false 2 2 ->
             lnlike_sigmas lapack_solve (<["M"%string := v]> s_b)
               (vFin [ln demo_var; ln demo_var]) rr false
             = Ok (lnlike_at 2 2 demo_rvs [w; w; w; w; 1%R] demo_fit rr,
                   <["M"%string := VArr (ND2 (design_rows 2 2))]>
                     (<["M"%string := v]> s_b))).
  { intros v rr Hc. destruct (Hstage v) as (HR & HN & HA).
    apply demo_lnlike_sigmas_gen; try done. }
  change (get_attr (demo_results_with ivars) "component_names")
    with (Ok (A:=value) (VList [VStr "star"])).
  cbn [mbind result_bind].
  change (get_attr (demo_results_with ivars) (("star" +:+ "_") +:+ "rvs"))
    with (Ok (VArr (ND2 (mFin demo_rvs)))).
  cbn [mbind result_bind asarray].
  change (get_attr _ (("star" +:+ "_") +:+ "ivars")) with (Ok (VArr ivars)).
  cbn [mbind result_bind asarray]. fold s_b. rewrite Hx0.
  cbn [mbind result_bind]. unfold minimize_at_start, opposite_lnlike_sigmas.
  rewrite (Hobj VNone false).
  2:{ exists VNone. split; [apply lookup_insert_eq|by left]. }
  cbn [mbind result_bind lnlike_at].
  rewrite insert_insert_eq. rewrite (Hobj _ true)
    by apply design_cache_ok_cached.
  cbn [mbind result_bind lnlike_at foldl]. rewrite insert_insert_eq.
  eexists. split; [reflexivity|].
  split; [reflexivity|]. split; reflexivity.
Qed.

(** ** C9: a run *)

Lemma demo_unit_ivars_start :
  effective_ivars
    (staged (demo_results_with (ND2 (mFin unit_ivars))) (ND2 (mFin demo_rvs))
            (ND2 (mFin unit_ivars)))
    (vFin [ln demo_var; ln demo_var])
  = Ok (vFin [ivar_exact 1 (ln demo_var); ivar_exact 1 (ln demo_var);
              ivar_exact 1 (ln demo_var); ivar_exact 1 (ln demo_var); 1%R]).
Proof.
  rewrite (effective_ivars_exact _ 2 2 unit_ivars); try done; try lia.
  - split; [done|]. by repeat constructor.
  - repeat constructor; lra.
Qed.

Lemma combine_orders_frame_witness :
  exists self' : Results,
    combine_orders lapack_solve minimize_at_start
      (demo_results_with (ND2 (mFin unit_ivars))) "star" = Ok self' /\
    (self' !! "M"%string = None /\
     self' !! "all_rvs"%string = None /\
     self' !! "all_ivars"%string = None) /\
    (exists rvs_N rvs_R sigmas : vector,
        self' !! ("star" +:+ "_time_rvs") = Some (VArr (ND1 rvs_N)) /\
        length rvs_N = 2 /\
        self' !! ("star" +:+ "_order_rvs") = Some (VArr (ND1 rvs_R)) /\
        length rvs_R = 2 /\
        self' !! ("star" +:+ "_order_sigmas") = Some (VArr (ND1 sigmas)) /\
        length sigmas = 2) /\
    (forall k : string,
        k ∉ ["M"; "all_rvs"; "all_ivars"; "star" +:+ "_time_rvs";
             "star" +:+ "_order_rvs"; "star" +:+ "_order_sigmas"]%string ->
        self' !! k = demo_results_with (ND2 (mFin unit_ivars)) !! k).
Proof.
  destruct (demo_combine_orders (ND2 (mFin unit_ivars))
              (ivar_exact 1 (ln demo_var)))
    as (self' & Hrun & _).
  - apply ivar_exact_pos. lra.
  - exact demo_unit_ivars_start.
  - exists self'. split; [exact Hrun|].
    exact (combine_orders_frame lapack_solve minimize_at_start
             (demo_results_with (ND2 (mFin unit_ivars))) self' "star" 2 2
             minimize_at_start_spec eq_refl eq_refl Hrun).
Defined.

(** ** C6: shapes of the RVs and of their precisions *)

Lemma demo_normal_equations_weighted (w0 w1 : real) :
  (0 < w0)%R -> (0 < w1)%R ->
  matvec (normal_matrix 2 2 [w0; w0; w1; w1; 1%R]) (demo_fit_weighted w0 w1)
  = normal_rhs 2 2 demo_rvs [w0; w0; w1; w1; 1%R].
Proof.
  intros H0 H1.
  rewrite (matvec_normal_matrix 2 2) by reflexivity. cbv zeta.
  unfold normal_rhs.
  cbv [exact_design design_rows design_row constraint_row flat_map seq map app
       replicate insert list_insert Nat.add nzero nunit R_num
       demo_fit_weighted
       matvec dot nsum zip_with foldr nadd nmul exact_ys demo_rvs flatten
       concat INR transpose transpose_n ncols hd length].
  repeat (f_equal; try field).
  all: lra.
Qed.

Lemma demo_solves_weighted (w0 w1 : real) :
  (0 < w0)%R -> (0 < w1)%R ->
  solves (normal_matrix 2 2 [w0; w0; w1; w1; 1%R])
         (normal_rhs 2 2 demo_rvs [w0; w0; w1; w1; 1%R])
         (demo_fit_weighted w0 w1).
Proof.
  intros H0 H1. split; [by rewrite length_normal_rhs|]. split.
  - by apply demo_normal_equations_weighted.
  - rewrite length_normal_rhs. intros v Hv Hz.
    apply (normal_matrix_nonsingular 2 2 [w0; w0; w1; w1; 1%R]);
      try done; try lia.
    repeat constructor; lra.
Qed.

(** One stored precision for all data: the sum [1/W + sigma**2] broadcasts
    it against the [(R, N)] grid of the sigmas. *)
Lemma scalar_ivars_effective (self : Results) (p0 p1 : real) :
  self !! "R"%string = Some (VInt 2) ->
  self !! "N"%string = Some (VInt 2) ->
  self !! "all_ivars"%string = Some (VArr (ND2 scalar_ivars)) ->
  effective_ivars self (vFin [p0; p1])
  = Ok (vFin [ivar_exact 1 p0; ivar_exact 1 p0;
              ivar_exact 1 p1; ivar_exact 1 p1; 1%R]).
Proof.
  intros HR HN HW. unfold effective_ivars, get_index_lists.
  rewrite (get_int_lookup _ _ _ HR), (get_int_lookup _ _ _ HN),
    (get_array_lookup _ _ _ HW).
  cbn -[fdiv fadd fsquare].
  rewrite <- !(ivar_float_exact 1) by lra. reflexivity.
Qed.

Lemma scalar_ivars_objective (p0 p1 : real) (self : Results) :
  self !! "R"%string = Some (VInt 2) ->
  self !! "N"%string = Some (VInt 2) ->
  self !! "all_rvs"%string = Some (VArr (ND2 (mFin demo_rvs))) ->
  self !! "all_ivars"%string = Some (VArr (ND2 scalar_ivars)) ->
  design_cache_ok self false 2 2 ->
  is_ok (opposite_lnlike_sigmas lapack_solve (vFin [p0; p1]) self) = true.
Proof.
  intros HR HN HA HW Hc. unfold opposite_lnlike_sigmas.
  set (d := [ivar_exact 1 p0; ivar_exact 1 p0;
             ivar_exact 1 p1; ivar_exact 1 p1; 1%R]).
  assert (E : lnlike_sigmas lapack_solve self (vFin [p0; p1]) false false
              = Ok (lnlike_at 2 2 demo_rvs d
                      (demo_fit_weighted (ivar_exact 1 p0) (ivar_exact 1 p1))
                      false,
                    <["M"%string := VArr (ND2 (design_rows 2 2))]> self)).
  { apply (lnlike_sigmas_solved_gen lapack_solve lapack_solve_spec self 2 2
             demo_rvs d (vFin [p0; p1]) false false);
      try done; try lia.
    - split; [done|]. by repeat constructor.
    - by apply scalar_ivars_effective.
    - apply demo_solves_weighted; apply ivar_exact_pos; lra. }
  rewrite E. reflexivity.
Qed.

(** ** The initial guess on arrays of floats *)

Lemma get_attr_lookup (self : Results) (k : string) (v : value) :
  self !! k = Some v -> get_attr self k = Ok v.
Proof. intros E. unfold get_attr. by rewrite E. Qed.

Lemma has_shape_tile_columns (x : vector) (m n : nat) :
  length x = m -> has_shape m n (tile_columns x n).
Proof.
  intros Hx. unfold tile_columns. split; [by rewrite length_map|].
  apply List.Forall_map, Forall_forall. intros a _. apply length_replicate.
Qed.

Lemma has_shape_tile_rows (x : vector) (m n : nat) :
  length x = n -> has_shape m n (tile_rows x m).
Proof.
  intros Hx. unfold tile_rows. split; [apply length_replicate|].
  by apply Forall_replicate.
Qed.

Lemma has_shape_zip2 (f : float64 -> float64 -> float64) (m n : nat)
    (X Y : matrix) :
  has_shape m n X -> has_shape m n Y ->
  has_shape m n (zip_with (zip_with f) X Y).
Proof.
  intros [HX1 HX2] [HY1 HY2]. split.
  - rewrite length_zip_with. lia.
  - apply Forall_forall. intros row Hrow.
    apply elem_of_lookup_zip_with in Hrow as (i & a & b & -> & Ha & Hb).
    rewrite length_zip_with.
    rewrite (proj1 (Forall_forall _ _) HX2 a)
      by (by eapply list_elem_of_lookup_2).
    rewrite (proj1 (Forall_forall _ _) HY2 b)
      by (by eapply list_elem_of_lookup_2).
    lia.
Qed.

(** Lines 147-150 on an array with [R] rows and [N] columns: no step can
    fail, and the guess has one entry per order. *)
Lemma initial_guess_eval (self : Results) (R N : nat) (A : matrix) :
  self !! "all_rvs"%string = Some (VArr (ND2 A)) ->
  self !! "R"%string = Some (VInt R) ->
  self !! "N"%string = Some (VInt N) ->
  has_shape R N A -> 1 <= R ->
  initial_guess self
  = Ok (map (fun row => flog (var row))
          (zip_with (zip_with fsub) A
             (zip_with (zip_with fadd)
                (tile_columns (map median A) N)
                (tile_rows
                   (map median
                      (transpose_n N
                         (zip_with (zip_with fsub) A
                            (tile_columns (map median A) N))))
                   R)))).
Proof.
  intros HA HR HN Hsh HR1. unfold initial_guess.
  rewrite (get_array_lookup _ _ _ HA), (get_int_lookup _ _ _ HR),
    (get_int_lookup _ _ _ HN).
  cbn [mbind result_bind nd_matrix].
  assert (Ht : has_shape R N (tile_columns (map median A) N)).
  { apply has_shape_tile_columns. rewrite length_map. apply Hsh. }
  rewrite (bcast2_same _ R N) by (done || lia).
  cbn [mbind result_bind].
  assert (Hd : has_shape R N
                 (zip_with (zip_with fsub) A (tile_columns (map median A) N)))
    by (by apply has_shape_zip2).
  unfold transpose. rewrite (ncols_has_shape R N) by (done || lia).
  assert (Hr : has_shape R N
                 (tile_rows
                    (map median
                       (transpose_n N
                          (zip_with (zip_with fsub) A
                             (tile_columns (map median A) N)))) R)).
  { apply has_shape_tile_rows. rewrite length_map.
    apply length_transpose_n, Hd. }
  rewrite (bcast2_same _ R N) by (done || lia).
  cbn [mbind result_bind].
  rewrite (bcast2_same _ R N); [reflexivity|done| |lia].
  by apply has_shape_zip2.
Qed.

Lemma initial_guess_length (self : Results) (R N : nat) (A : matrix) :
  self !! "all_rvs"%string = Some (VArr (ND2 A)) ->
  self !! "R"%string = Some (VInt R) ->
  self !! "N"%string = Some (VInt N) ->
  has_shape R N A -> 1 <= R ->
  exists x0, initial_guess self = Ok x0 /\ length x0 = R.
Proof.
  intros HA HR HN Hsh HR1. eexists. split.
  - by apply (initial_guess_eval self R N A).
  - rewrite length_map.
    assert (Ht : has_shape R N (tile_columns (map median A) N)).
    { apply has_shape_tile_columns. rewrite length_map. apply Hsh. }
    apply (has_shape_zip2 fsub R N); [done|].
    apply has_shape_zip2; [done|].
    apply has_shape_tile_rows. rewrite length_map.
    apply length_transpose_n. by apply (has_shape_zip2 fsub R N).
Qed.

(** ** Shapes that do not broadcast *)

Lemma gather_grid (v : vector) (R N : nat) :
  length v = R ->
  gather v (map (fun r => replicate N r) (seq 0 R))
  = Ok (map (fun r => replicate N (v !!! r)) (seq 0 R)).
Proof.
  intros Hv. unfold gather.
  assert (forallb (forallb (fun i => i <? length v))
            (map (fun r => replicate N r) (seq 0 R)) = true) as ->.
  { apply forallb_forall. intros row Hin. apply in_map_iff in Hin
      as (r & <- & Hr). apply in_seq in Hr.
    apply forallb_forall. intros i Hi.
    apply list_elem_of_In, elem_of_replicate in Hi as [-> _].
    apply Nat.ltb_lt. lia. }
  f_equal. rewrite map_map. apply map_ext. intros r.
  induction N as [|n IH]; [done|]. cbn. by rewrite IH.
Qed.

Lemma ncols_map_map {A B} (f : A -> B) (X : list (list A)) :
  ncols (map (map f) X) = ncols X.
Proof. destruct X as [|r X]; [done|]. cbn. apply length_map. Qed.

(** The sum [1/W + sigma**2] of line 170 raises numpy's ValueError when the
    stored precisions do not broadcast against the [(R, N)] grid. *)
Lemma effective_ivars_raise (self : Results) (sigmas : vector) (R N : nat)
    (W : matrix) :
  self !! "R"%string = Some (VInt R) ->
  self !! "N"%string = Some (VInt N) ->
  self !! "all_ivars"%string = Some (VArr (ND2 W)) ->
  length sigmas = R -> 1 <= R ->
  bcast_dim (nrows W) R = None \/ bcast_dim (ncols W) N = None ->
  effective_ivars self sigmas = Raise ValueError.
Proof.
  intros HR HN HW Hs HR1 Hbad. unfold effective_ivars, get_index_lists.
  rewrite (get_int_lookup _ _ _ HR), (get_int_lookup _ _ _ HN),
    (get_array_lookup _ _ _ HW).
  cbn [mbind result_bind nd_atleast_2d]. rewrite (gather_grid _ _ _ Hs).
  cbn [mbind result_bind]. unfold bcast2. rewrite !ncols_map_map.
  unfold nrows at 1 2. rewrite !length_map, length_seq.
  assert (HN' : ncols (map (fun r : nat => replicate N (sigmas !!! r))
                         (seq 0 R)) = N).
  { destruct R as [|m]; [lia|]. cbn. apply length_replicate. }
  rewrite HN'. unfold nrows in Hbad.
  destruct Hbad as [-> | ->]; [done|].
  by destruct (bcast_dim _ R).
Qed.

Lemma ivars_key_not_all_rvs (nm : string) :
  nm +:+ "_ivars" <> "all_rvs"%string.
Proof.
  destruct nm as [|c [|c' nm]]; [done| |].
  - intros Heq. injection Heq as _ Heq. discriminate Heq.
  - intros Heq. apply (f_equal String.length) in Heq. cbn in Heq.
    rewrite length_append in Heq. cbn in Heq. lia.
Qed.

Lemma ncols_tile_columns (x : vector) (n : nat) :
  1 <= length x -> ncols (tile_columns x n) = n.
Proof.
  destruct x as [|a x]; [cbn; lia|]. intros _. cbn. apply length_replicate.
Qed.

Lemma bcast2_raise (f : float64 -> float64 -> float64) (X Y : matrix) :
  bcast_dim (nrows X) (nrows Y) = None \/
  bcast_dim (ncols X) (ncols Y) = None ->
  bcast2 f X Y = Raise ValueError.
Proof.
  unfold bcast2. intros [->| ->]; [done|]. by destruct (bcast_dim _ _).
Qed.

(** ** Shapes that broadcast *)

Lemma bcast_dim_Some (a b c : nat) :
  bcast_dim a b = Some c ->
  (a = c \/ a = 1) /\ (b = c \/ b = 1) /\ (c = a \/ c = b).
Proof.
  unfold bcast_dim.
  destruct (Nat.eqb_spec a b) as [->|Hab]; [intros [= ->]; auto|].
  destruct (Nat.eqb_spec a 1) as [->|Ha]; [intros [= ->]; auto|].
  destruct (Nat.eqb_spec b 1) as [->|Hb]; [intros [= ->]; auto|done].
Qed.

Lemma bcast_dim_None (a b : nat) :
  a <> b -> a <> 1 -> b <> 1 -> bcast_dim a b = None.
Proof.
  intros Hab Ha Hb. unfold bcast_dim.
  destruct (Nat.eqb_spec a b); [done|].
  destruct (Nat.eqb_spec a 1); [done|].
  by destruct (Nat.eqb_spec b 1).
Qed.

Lemma bcast_dim_stretch (a c : nat) :
  a = c \/ a = 1 -> bcast_dim a c = Some c.
Proof. intros [->| ->]; [apply bcast_dim_same|apply bcast_dim_one]. Qed.

Lemma length_stretch {A} (c a : nat) (l : list A) :
  length l = a -> a = c \/ a = 1 -> length (stretch c l) = c.
Proof.
  intros Hl Ha. destruct l as [|x [|y l]]; cbn in *.
  - lia.
  - apply length_replicate.
  - lia.
Qed.

Lemma map_stretch {A B} (g : A -> B) (k : nat) (l : list A) :
  map g (stretch k l) = stretch k (map g l).
Proof.
  destruct l as [|x [|y l]]; cbn; try done. apply (fmap_replicate g).
Qed.

Lemma has_shape_map_map {A B} (g : A -> B) (m n : nat) (X : list (list A)) :
  has_shape m n X -> has_shape m n (map (map g) X).
Proof.
  intros [H1 H2]. split; [by rewrite length_map|].
  apply List.Forall_map. eapply Forall_impl; [exact H2|].
  intros r Hr. cbn. by rewrite length_map.
Qed.

Lemma has_shape_broadcast_to (a b m n : nat) (X : matrix) :
  has_shape a b X -> a = m \/ a = 1 -> b = n \/ b = 1 ->
  has_shape m n (broadcast_to m n X).
Proof.
  intros [Ha Hall] Hm Hn. unfold broadcast_to.
  assert (Hrows : Forall (fun r => length r = n) (map (stretch n) X)).
  { apply List.Forall_map. eapply Forall_impl; [exact Hall|].
    intros r Hr. cbn. by apply (length_stretch n b). }
  assert (Hlen : length (map (stretch n) X) = a) by (by rewrite length_map).
  split; [by apply (length_stretch m a)|].
  destruct (map (stretch n) X) as [|x [|y l]]; cbn; try done.
  apply Forall_replicate. by inversion Hrows.
Qed.

Lemma broadcast_to_same (m n : nat) (X : matrix) :
  has_shape m n X -> broadcast_to m n X = X.
Proof.
  intros [H1 H2]. unfold broadcast_to.
  rewrite map_stretch_same by done. by apply stretch_same.
Qed.

Lemma broadcast_to_map (g : float64 -> float64) (m n : nat) (X : matrix) :
  map (map g) (broadcast_to m n X) = broadcast_to m n (map (map g) X).
Proof.
  unfold broadcast_to. rewrite map_stretch, !map_map. f_equal.
  apply map_ext. intros r. apply map_stretch.
Qed.

(** what numpy computes for two operands whose shapes broadcast *)
Lemma bcast2_broadcast (f : float64 -> float64 -> float64) (X Y : matrix)
    (a b a' b' m n : nat) :
  has_shape a b X -> has_shape a' b' Y -> 1 <= a -> 1 <= a' ->
  bcast_dim a a' = Some m -> bcast_dim b b' = Some n ->
  bcast2 f X Y
  = Ok (zip_with (zip_with f) (broadcast_to m n X) (broadcast_to m n Y)).
Proof.
  intros HX HY Ha Ha' Hm Hn. unfold bcast2.
  rewrite (ncols_has_shape a b X), (ncols_has_shape a' b' Y) by (done || lia).
  unfold nrows. destruct HX as [HX _], HY as [HY _].
  by rewrite HX, HY, Hm, Hn.
Qed.

Lemma has_shape_grid (g : nat -> float64) (R N : nat) :
  has_shape R N (map (fun r => replicate N (g r)) (seq 0 R)).
Proof.
  split; [by rewrite length_map, length_seq|].
  apply List.Forall_map, Forall_forall. intros r _. apply length_replicate.
Qed.

(** Line 170 when the stored precisions broadcast against the grid of the
    sigmas to shape (m, n): the sum has m n entries. *)
Lemma effective_ivars_broadcast (self : Results) (sigmas : vector)
    (R N R' N' m n : nat) (W : matrix) :
  self !! "R"%string = Some (VInt R) ->
  self !! "N"%string = Some (VInt N) ->
  self !! "all_ivars"%string = Some (VArr (ND2 W)) ->
  has_shape R' N' W -> 1 <= R' -> 1 <= R -> length sigmas = R ->
  bcast_dim R' R = Some m -> bcast_dim N' N = Some n ->
  exists v, effective_ivars self sigmas = Ok (v ++ [Fin 1]) /\
            length v = m * n.
Proof.
  intros HR HN HW HsW HR'1 HR1 Hs Hm Hn.
  unfold effective_ivars, get_index_lists.
  rewrite (get_int_lookup _ _ _ HR), (get_int_lookup _ _ _ HN),
    (get_array_lookup _ _ _ HW).
  cbn [mbind result_bind nd_atleast_2d]. rewrite (gather_grid _ _ _ Hs).
  cbn [mbind result_bind]. rewrite map_map.
  pose proof (has_shape_grid (fun r => sigmas !!! r) R N) as Hg.
  apply (has_shape_map_map fsquare) in Hg. rewrite map_map in Hg.
  rewrite (bcast2_broadcast fadd _ _ R' N' R N m n); try done.
  2:{ by apply has_shape_map_map. }
  cbn [mbind result_bind]. eexists. split; [reflexivity|].
  apply length_flatten_shape, has_shape_map_map.
  destruct (bcast_dim_Some _ _ _ Hm) as (Hm1 & Hm2 & _).
  destruct (bcast_dim_Some _ _ _ Hn) as (Hn1 & Hn2 & _).
  apply has_shape_zip2.
  - apply (has_shape_broadcast_to R' N'); try done.
    by apply has_shape_map_map.
  - by apply (has_shape_broadcast_to R N).
Qed.

(** Stored precisions with axes of length 1 are stretched: line 170 gives
    what it gives for the precisions broadcast to shape (R, N). *)
Lemma effective_ivars_stretched (self : Results) (sigmas : vector)
    (R N R' N' : nat) (W : matrix) :
  self !! "R"%string = Some (VInt R) ->
  self !! "N"%string = Some (VInt N) ->
  1 <= R -> 1 <= N -> has_shape R' N' W ->
  R' = R \/ R' = 1 -> N' = N \/ N' = 1 ->
  effective_ivars (<["all_ivars"%string := VArr (ND2 W)]> self) sigmas
  = effective_ivars
      (<["all_ivars"%string := VArr (ND2 (broadcast_to R N W))]> self) sigmas.
Proof.
  intros HR HN HR1 HN1 HsW HR' HN'.
  unfold effective_ivars, get_index_lists, get_int, get_array, get_attr.
  rewrite !lookup_insert_eq, !lookup_insert_ne by done. rewrite HR, HN.
  cbn [mbind result_bind nd_atleast_2d].
  destruct (gather sigmas _) as [sig|e] eqn:Eg; [|reflexivity].
  cbn [mbind result_bind].
  assert (Hsig : has_shape R N (map (map fsquare) sig)).
  { unfold gather in Eg.
    destruct (forallb _ _); [|discriminate]. injection Eg as <-.
    rewrite map_map. split; [by rewrite !length_map, length_seq|].
    apply List.Forall_map, List.Forall_map, Forall_forall. intros r _.
    by rewrite !length_map, length_replicate. }
  assert (HR'1 : 1 <= R') by lia.
  rewrite (bcast2_broadcast fadd _ _ R' N' R N R N); try done.
  2:{ by apply has_shape_map_map. }
  2:{ by apply bcast_dim_stretch. }
  2:{ by apply bcast_dim_stretch. }
  rewrite (bcast2_same fadd R N); [| |exact Hsig|lia].
  2:{ apply has_shape_map_map. by apply (has_shape_broadcast_to R' N'). }
  cbn [mbind result_bind].
  by rewrite (broadcast_to_same R N _ Hsig), broadcast_to_map.
Qed.

(** ** What the design matrix writes *)

Lemma get_design_matrix_frame
    (self self' : Results) (restart : bool) (M : matrix) :
  get_design_matrix self restart = Ok (M, self') ->
  self' !! "M"%string = Some (VArr (ND2 M)) /\
  (forall k : string, k <> "M"%string -> self' !! k = self !! k).
Proof.
  unfold get_design_matrix, get_attr.
  destruct (self !! "M"%string) as [m|] eqn:EM; [|discriminate].
  cbn [mbind result_bind].
  destruct (is_none m || restart) eqn:Eb.
  - intros Hrun. bind_inv Hrun. injection Hrun as <- <-.
    split; [apply lookup_insert_eq|].
    intros k Hk. by rewrite lookup_insert_ne.
  - destruct m as [| | |[| |M0|]|]; try discriminate. by intros [= <- <-].
Qed.

Lemma design_with_constraint_frame (self self' : Results) (restart : bool)
    (M : matrix) :
  design_with_constraint self restart = Ok (M, self') ->
  (exists M0, self' !! "M"%string = Some (VArr (ND2 M0))) /\
  (forall k : string, k <> "M"%string -> self' !! k = self !! k).
Proof.
  intros Hrun. unfold design_with_constraint in Hrun.
  destruct (get_design_matrix self restart) as [[M1 s1]|e] eqn:E;
    [|discriminate].
  apply get_design_matrix_frame in E as (HM & Hframe).
  cbn [mbind result_bind] in Hrun. bind_inv Hrun. injection Hrun as _ <-.
  split; [by exists M1|done].
Qed.

(** ** An attribute the design matrix does not read *)

Lemma get_design_matrix_insert (self : Results) (k : string) (v : value)
    (restart : bool) :
  k <> "M"%string -> k <> "R"%string -> k <> "N"%string ->
  get_design_matrix (<[k := v]> self) restart
  = match get_design_matrix self restart with
    | Ok (M, s) => Ok (M, <[k := v]> s)
    | Raise e => Raise e
    end.
Proof.
  intros HM HR HN.
  unfold get_design_matrix, get_index_lists, get_int, get_attr.
  rewrite !lookup_insert_ne by done.
  destruct (self !! "M"%string) as [m|]; [|reflexivity].
  cbn [mbind result_bind].
  destruct (is_none m || restart).
  - destruct (self !! "R"%string) as [[]|]; try reflexivity.
    cbn [mbind result_bind].
    destruct (self !! "N"%string) as [[]|]; try reflexivity.
    cbn [mbind result_bind].
    destruct (set_fancy _ _ _ _) as [M1|]; [|reflexivity].
    cbn [mbind result_bind].
    destruct (set_fancy _ _ _ _) as [M2|]; [|reflexivity].
    cbn [mbind result_bind]. by rewrite insert_insert_ne.
  - by destruct m as [| | |[| |M0|]|].
Qed.

Lemma design_with_constraint_insert (self : Results) (k : string) (v : value)
    (restart : bool) :
  k <> "M"%string -> k <> "R"%string -> k <> "N"%string ->
  design_with_constraint (<[k := v]> self) restart
  = match design_with_constraint self restart with
    | Ok (M, s) => Ok (M, <[k := v]> s)
    | Raise e => Raise e
    end.
Proof.
  intros HM HR HN. unfold design_with_constraint.
  rewrite get_design_matrix_insert by done.
  destruct (get_design_matrix self restart) as [[M s]|e]; [|reflexivity].
  cbn [mbind result_bind].
  destruct M as [|r M]; [reflexivity|]. cbn [mbind result_bind].
  unfold get_int, get_attr. rewrite !lookup_insert_ne by done.
  destruct (s !! "R"%string) as [[]|]; try reflexivity.
  cbn [mbind result_bind].
  destruct (py_inv n) as [w|]; [|reflexivity]. cbn [mbind result_bind].
  destruct (s !! "N"%string) as [[]|]; reflexivity.
Qed.

(** The stored precisions enter the solver on line 170 only: two arrays
    that give the same effective precisions give the same result. *)
Lemma lnlike_sigmas_same_precisions
    (linalg_solve : matrix -> vector -> result vector)
    (self : Results) (v1 v2 : value) (sigmas : vector)
    (return_rvs restart : bool) :
  (forall s : Results,
      (forall k : string, k <> "M"%string -> s !! k = self !! k) ->
      effective_ivars (<["all_ivars"%string := v1]> s) sigmas
      = effective_ivars (<["all_ivars"%string := v2]> s) sigmas) ->
  lnlike_sigmas linalg_solve (<["all_ivars"%string := v1]> self) sigmas
                return_rvs restart
  = match lnlike_sigmas linalg_solve (<["all_ivars"%string := v2]> self)
            sigmas return_rvs restart with
    | Ok (v, s) => Ok (v, <["all_ivars"%string := v1]> s)
    | Raise e => Raise e
    end.
Proof.
  intros Heq. unfold lnlike_sigmas.
  assert (HR : forall v, get_int (<["all_ivars"%string := v]> self) "R"
                         = get_int self "R").
  { intros v. unfold get_int, get_attr. by rewrite lookup_insert_ne. }
  rewrite !HR.
  destruct (get_int self "R") as [n|]; [|reflexivity].
  cbn [mbind result_bind].
  destruct (negb (length sigmas =? n)); [reflexivity|].
  rewrite !design_with_constraint_insert by done.
  destruct (design_with_constraint self restart) as [[M s]|e] eqn:E;
    [|reflexivity].
  cbn [mbind result_bind].
  apply design_with_constraint_frame in E as [_ Hframe].
  rewrite (Heq s Hframe).
  destruct (effective_ivars _ sigmas) as [ivars|]; [|reflexivity].
  cbn [mbind result_bind].
  destruct (bcast2 fmul _ M) as [wM|]; [|reflexivity].
  cbn [mbind result_bind].
  destruct (np_dot22 _ wM) as [MTM|]; [|reflexivity].
  cbn [mbind result_bind].
  assert (HA : forall v, get_array (<["all_ivars"%string := v]> s) "all_rvs"
                         = get_array s "all_rvs").
  { intros v. unfold get_array, get_attr. by rewrite lookup_insert_ne. }
  rewrite !HA.
  destruct (get_array s "all_rvs") as [all_rvs|]; [|reflexivity].
  cbn [mbind result_bind].
  destruct (nd_flatten all_rvs) as [ys|]; [|reflexivity].
  cbn [mbind result_bind].
  destruct (bcast1 fmul ivars _) as [wy|]; [|reflexivity].
  cbn [mbind result_bind].
  destruct (np_dot21 _ wy) as [MTy|]; [|reflexivity].
  cbn [mbind result_bind].
  destruct (linalg_solve MTM MTy) as [xs|]; [|reflexivity].
  cbn [mbind result_bind].
  destruct (np_dot21 M xs) as [Mx|]; [|reflexivity].
  cbn [mbind result_bind].
  destruct (bcast1 fsub _ Mx) as [resids|]; [|reflexivity].
  cbn [mbind result_bind].
  destruct (bcast1 fmul resids ivars) as [ri|]; [|reflexivity].
  cbn [mbind result_bind].
  destruct (bcast1 fmul ri resids) as [rir|]; [|reflexivity].
  cbn [mbind result_bind].
  destruct (bcast1 fsub rir _) as [terms|]; [|reflexivity].
  cbn [mbind result_bind].
  assert (HN : forall v, get_int (<["all_ivars"%string := v]> s) "N"
                         = get_int s "N").
  { intros v. unfold get_int, get_attr. by rewrite lookup_insert_ne. }
  rewrite !HN.
  destruct (get_int s "N") as [N|]; [|reflexivity].
  cbn [mbind result_bind].
  destruct return_rvs; by rewrite insert_insert_eq.
Qed.

(** Stored precisions whose shape numpy cannot use: the solver raises
    ValueError before the linear solve, on line 170 when the shape does not
    broadcast against the grid of the sigmas, and else on line 173, where
    the precisions are more than the rows of the design matrix. *)
Lemma lnlike_sigmas_shape_error
    (linalg_solve : matrix -> vector -> result vector)
    (self : Results) (sigmas : vector) (return_rvs restart : bool)
    (R N R' N' : nat) (W : matrix) :
  self !! "R"%string = Some (VInt R) ->
  self !! "N"%string = Some (VInt N) ->
  self !! "all_ivars"%string = Some (VArr (ND2 W)) ->
  1 <= R -> 1 <= N -> 1 <= R' -> 1 <= N' -> has_shape R' N' W ->
  design_cache_ok self restart R N -> length sigmas = R ->
  (R' <> 1 /\ R' <> R) \/ (N' <> 1 /\ N' <> N) ->
  (bcast_dim R' R = None \/ bcast_dim N' N = None ->
   effective_ivars self sigmas = Raise ValueError) /\
  (bcast_dim R' R <> None -> bcast_dim N' N <> None ->
   exists ivars,
     effective_ivars self sigmas = Ok ivars /\
     bcast2 fmul (map (fun a => [a]) ivars) (mFin (exact_design R N))
     = Raise ValueError) /\
  lnlike_sigmas linalg_solve self sigmas return_rvs restart
  = Raise ValueError.
Proof.
  intros HR HN HW HR1 HN1 HR'1 HN'1 HsW Hc Hs Hbad.
  assert (Hline170 : bcast_dim R' R = None \/ bcast_dim N' N = None ->
                     effective_ivars self sigmas = Raise ValueError).
  { intros Hnone. apply (effective_ivars_raise self sigmas R N W);
      try done.
    rewrite (ncols_has_shape R' N' W) by (done || lia).
    unfold nrows. by rewrite (proj1 HsW). }
  assert (Hline173 : forall m n,
             bcast_dim R' R = Some m -> bcast_dim N' N = Some n ->
             exists ivars,
               effective_ivars self sigmas = Ok ivars /\
               bcast2 fmul (map (fun a => [a]) ivars)
                      (mFin (exact_design R N)) = Raise ValueError).
  { intros m n Hm Hn.
    destruct (effective_ivars_broadcast self sigmas R N R' N' m n W)
      as (v & Hv & Hlen); try done.
    exists (v ++ [Fin 1]). split; [exact Hv|].
    apply bcast2_raise. left. unfold nrows.
    rewrite length_map, length_app, Hlen. cbn [length].
    unfold mFin. rewrite length_map.
    rewrite (proj1 (has_shape_exact_design R N)).
    destruct (bcast_dim_Some _ _ _ Hm) as (Hm1 & Hm2 & Hm3).
    destruct (bcast_dim_Some _ _ _ Hn) as (Hn1 & Hn2 & Hn3).
    apply bcast_dim_None; nia. }
  split; [exact Hline170|]. split.
  { intros Hm Hn.
    destruct (bcast_dim R' R) as [m|]; [|done].
    destruct (bcast_dim N' N) as [n|]; [|done]. by apply (Hline173 m n). }
  unfold lnlike_sigmas. rewrite (get_int_lookup _ _ _ HR).
  cbn [mbind result_bind]. rewrite Hs, Nat.eqb_refl. cbn [negb].
  rewrite (design_with_constraint_exact _ restart R N) by done.
  cbn [mbind result_bind]. rewrite effective_ivars_cache.
  destruct (bcast_dim R' R) as [m|] eqn:Em.
  - destruct (bcast_dim N' N) as [n|] eqn:En.
    + destruct (Hline173 m n eq_refl eq_refl) as (ivars & -> & Hraise).
      cbn [mbind result_bind]. by rewrite Hraise.
    + rewrite Hline170 by (by right). reflexivity.
  - rewrite Hline170 by (by left). reflexivity.
Qed.

(** C6, as stated: RVs of shape (2, 2) with precisions of shape (1, 1) are
    accepted. The objective returns a value at every finite pair of
    parameters, and the driver returns the fit of equal weights; no
    exception is raised. *)
Lemma mismatched_shapes_accepted :
  shape_of (mFin demo_rvs) = (2, 2) /\
  shape_of scalar_ivars = (1, 1) /\
  (forall p0 p1 : real,
      is_ok (opposite_lnlike_sigmas lapack_solve (vFin [p0; p1])
               (<["M"%string := VNone]>
                  (staged (demo_results_with (ND2 scalar_ivars))
                          (ND2 (mFin demo_rvs)) (ND2 scalar_ivars))))
      = true) /\
  exists self' : Results,
    combine_orders lapack_solve minimize_at_start
                   (demo_results_with (ND2 scalar_ivars)) "star" = Ok self' /\
    self' !! "star_time_rvs"%string = Some (VArr (ND1 (vFin [0; 4]%R))) /\
    self' !! "star_order_rvs"%string = Some (VArr (ND1 (vFin [2; -2]%R))).
Proof.
  split; [reflexivity|]. split; [reflexivity|]. split.
  - intros p0 p1. apply scalar_ivars_objective; try reflexivity.
    exists VNone. split; [reflexivity|by left].
  - destruct (demo_combine_orders (ND2 scalar_ivars)
                (ivar_exact 1 (ln demo_var)))
      as (self' & Hrun & Ht & Ho & _).
    + apply ivar_exact_pos. lra.
    + by apply scalar_ivars_effective.
    + by exists self'.
Qed.

(** C6, amended: the code never compares the shapes of the RVs and of
    their precisions; the two arrays meet in numpy arithmetic only, under
    numpy's broadcasting. For RVs of shape (R, N) and precisions of shape
    (R', N'):

    - if R' is neither 1 nor R, or N' neither 1 nor N, the initial guess is
      formed, and the first evaluation of the objective raises numpy's
      ValueError: where the effective variance is formed (line 170) when
      the shapes do not broadcast, and else (R = 1 < R' or N = 1 < N')
      where the precisions meet the design matrix (line 173); then
      [combine_orders] ends with ValueError, whatever the solver, for every
      optimizer that evaluates its starting point first;

    - if R' is 1 or R and N' is 1 or N, the precisions are accepted as
      they are: [lnlike_sigmas] returns the value, or raises the exception,
      that it gives for the precisions broadcast to shape (R, N). *)
Theorem shapes_follow_numpy_broadcasting
    (linalg_solve : matrix -> vector -> result vector)
    (R N R' N' : nat) (W : matrix) :
  1 <= R -> 1 <= N -> 1 <= R' -> 1 <= N' -> has_shape R' N' W ->
  ((R' <> 1 /\ R' <> R) \/ (N' <> 1 /\ N' <> N) ->
   forall (minimize : objective -> vector -> Results
                      -> result (vector * Results))
          (self : Results) (component_name : string) (names : value)
          (A : matrix),
     minimize_spec minimize ->
     self !! "component_names"%string = Some names ->
     self !! "R"%string = Some (VInt R) ->
     self !! "N"%string = Some (VInt N) ->
     self !! (component_name +:+ "_rvs") = Some (VArr (ND2 A)) ->
     self !! (component_name +:+ "_ivars") = Some (VArr (ND2 W)) ->
     has_shape R N A ->
     exists x0 : vector,
       initial_guess (staged self (ND2 A) (ND2 W)) = Ok x0 /\
       (bcast_dim R' R = None \/ bcast_dim N' N = None ->
        effective_ivars (staged self (ND2 A) (ND2 W)) x0
        = Raise ValueError) /\
       (bcast_dim R' R <> None -> bcast_dim N' N <> None ->
        exists ivars : vector,
          effective_ivars (staged self (ND2 A) (ND2 W)) x0 = Ok ivars /\
          bcast2 fmul (map (fun a => [a]) ivars) (mFin (exact_design R N))
          = Raise ValueError) /\
       combine_orders linalg_solve minimize self component_name
       = Raise ValueError) /\
  ((R' = 1 \/ R' = R) /\ (N' = 1 \/ N' = N) ->
   forall (self : Results) (sigmas : vector) (return_rvs restart : bool),
     self !! "R"%string = Some (VInt R) ->
     self !! "N"%string = Some (VInt N) ->
     lnlike_sigmas linalg_solve
       (<["all_ivars"%string := VArr (ND2 W)]> self)
       sigmas return_rvs restart
     = match lnlike_sigmas linalg_solve
               (<["all_ivars"%string := VArr (ND2 (broadcast_to R N W))]> self)
               sigmas return_rvs restart with
       | Ok (v, s) => Ok (v, <["all_ivars"%string := VArr (ND2 W)]> s)
       | Raise e => Raise e
       end).
Proof.
  intros HR1 HN1 HR'1 HN'1 HsW. split.
  - intros Hbad minimize self component_name names A [_ Hraise] Hnames HR HN
      HA HW Hsh.
    set (s_b := staged self (ND2 A) (ND2 W)).
    assert (HRb : forall v, (<["M"%string := v]> s_b) !! "R"%string
                            = Some (VInt R)).
    { intros v. unfold s_b, staged. by rewrite !lookup_insert_ne. }
    assert (HNb : forall v, (<["M"%string := v]> s_b) !! "N"%string
                            = Some (VInt N)).
    { intros v. unfold s_b, staged. by rewrite !lookup_insert_ne. }
    assert (HWb : forall v, (<["M"%string := v]> s_b) !! "all_ivars"%string
                            = Some (VArr (ND2 W))).
    { intros v. unfold s_b, staged. rewrite lookup_insert_ne by done.
      apply lookup_insert_eq. }
    destruct (initial_guess_length s_b R N A) as (x0 & Hx0 & Hlen);
      try done.
    { unfold s_b, staged. rewrite lookup_insert_ne by done.
      apply lookup_insert_eq. }
    { unfold s_b, staged. by rewrite !lookup_insert_ne. }
    { unfold s_b, staged. by rewrite !lookup_insert_ne. }
    destruct (lnlike_sigmas_shape_error linalg_solve
                (<["M"%string := VNone]> s_b) x0 false false R N R' N' W)
      as (H170 & H173 & Hobj); try done.
    { exists VNone. split; [apply lookup_insert_eq|by left]. }
    rewrite effective_ivars_cache in H170, H173.
    exists x0. split; [exact Hx0|]. split; [exact H170|].
    split; [exact H173|].
    unfold combine_orders.
    rewrite (get_attr_lookup _ _ _ Hnames). cbn [mbind result_bind].
    rewrite !append_assoc.
    change ("_" +:+ "rvs")%string with "_rvs"%string.
    change ("_" +:+ "ivars")%string with "_ivars"%string.
    rewrite (get_attr_lookup _ _ _ HA). cbn [mbind result_bind asarray].
    rewrite (get_attr_lookup _ _ (VArr (ND2 W))).
    2:{ rewrite lookup_insert_ne; [done|].
        intros E. by apply (ivars_key_not_all_rvs component_name). }
    cbn [mbind result_bind asarray]. unfold s_b, staged in Hx0, Hobj.
    rewrite Hx0. cbn [mbind result_bind].
    rewrite (Hraise _ _ _ ValueError); [reflexivity|].
    unfold opposite_lnlike_sigmas. by rewrite Hobj.
  - intros [HR' HN'] self sigmas return_rvs restart HR HN.
    apply lnlike_sigmas_same_precisions. intros s Hframe.
    apply (effective_ivars_stretched s sigmas R N R' N' W); try done.
    + by rewrite Hframe.
    + by rewrite Hframe.
    + destruct HR'; auto.
    + destruct HN'; auto.
Qed.

Lemma shapes_follow_numpy_broadcasting_witness :
  combine_orders lapack_solve minimize_at_start
                 (demo_results_with (ND2 wide_ivars)) "star"
  = Raise ValueError /\
  forall (sigmas : vector) (return_rvs restart : bool),
    lnlike_sigmas lapack_solve
      (<["all_ivars"%string := VArr (ND2 scalar_ivars)]> demo_object)
      sigmas return_rvs restart
    = match lnlike_sigmas lapack_solve
              (<["all_ivars"%string
                 := VArr (ND2 (broadcast_to 2 2 scalar_ivars))]> demo_object)
              sigmas return_rvs restart with
      | Ok (v, s) =>
          Ok (v, <["all_ivars"%string := VArr (ND2 scalar_ivars)]> s)
      | Raise e => Raise e
      end.
Proof.
  split.
  - destruct (shapes_follow_numpy_broadcasting lapack_solve 2 2 1 3 wide_ivars)
      as [Hbad _].
    + lia.
    + lia.
    + lia.
    + lia.
    + split; [reflexivity|]. by repeat constructor.
    + assert (Hshape : (1 <> 1 /\ 1 <> 2) \/ (3 <> 1 /\ 3 <> 2))
        by (right; lia).
      destruct (Hbad Hshape minimize_at_start
                  (demo_results_with (ND2 wide_ivars))
                  "star" (VList [VStr "star"]) (mFin demo_rvs))
        as (x0 & _ & _ & _ & Hrun).
      * exact minimize_at_start_spec.
      * reflexivity.
      * reflexivity.
      * reflexivity.
      * reflexivity.
      * reflexivity.
      * split; [reflexivity|]. repeat constructor.
      * exact Hrun.
  - intros sigmas return_rvs restart.
    destruct (shapes_follow_numpy_broadcasting lapack_solve 2 2 1 1
                scalar_ivars) as [_ Hgood].
    + lia.
    + lia.
    + lia.
    + lia.
    + split; [reflexivity|]. by repeat constructor.
    + apply Hgood.
      * split; by left.
      * reflexivity.
      * reflexivity.
Defined.

(** ** C7: values that are not finite *)

Lemma fadd_nan_r (a : float64) : fadd a NaN = NaN.
Proof. by destruct a. Qed.

Lemma fsub_nan_r (a : float64) : fsub a NaN = NaN.
Proof. by destruct a. Qed.

Lemma median_nan (l : vector) : NaN ∈ l -> median l = NaN.
Proof.
  intros Hin. unfold median.
  assert (existsb is_nan l = true) as ->; [|done].
  apply existsb_exists. exists NaN. split; [|done].
  by apply list_elem_of_In.
Qed.

Lemma zip_nan_r (f : float64 -> float64 -> float64) (row : vector) (n : nat) :
  (forall a, f a NaN = NaN) -> length row = n ->
  zip_with f row (replicate n NaN) = replicate n NaN.
Proof.
  intros Hf Hlen. subst n. induction row as [|a row IH]; [done|].
  cbn. by rewrite Hf, IH.
Qed.

Lemma zip2_nan_r (f : float64 -> float64 -> float64) (X : matrix) (m n : nat) :
  (forall a, f a NaN = NaN) -> has_shape m n X ->
  zip_with (zip_with f) X (replicate m (replicate n NaN))
  = replicate m (replicate n NaN).
Proof.
  intros Hf [Hm Hall]. subst m.
  induction Hall as [|row X Hrow _ IH]; [done|].
  cbn. by rewrite (zip_nan_r f row n), IH.
Qed.

Lemma map_const_replicate {A B} (f : A -> B) (c : B) (l : list A) :
  Forall (fun x => f x = c) l -> map f l = replicate (length l) c.
Proof. induction 1 as [|x l Hx _ IH]; [done|]. cbn. by rewrite Hx, IH. Qed.

(** a row of NaN puts a NaN into every column *)
Lemma transpose_nan_columns (n : nat) (X : matrix) :
  replicate n NaN ∈ X -> Forall (fun c => NaN ∈ c) (transpose_n n X).
Proof.
  unfold transpose_n. induction X as [|row X IH]; intros Hin.
  - by apply elem_of_nil in Hin.
  - cbn [foldr]. apply Forall_forall. intros c Hc.
    apply elem_of_lookup_zip_with in Hc as (i & a & c' & -> & Ha & Hc').
    apply elem_of_cons in Hin as [<- | Hin].
    + apply lookup_replicate in Ha as [-> _]. apply list_elem_of_here.
    + apply list_elem_of_further.
      apply (proj1 (Forall_forall _ _) (IH Hin)).
      by eapply list_elem_of_lookup_2.
Qed.

(** subtracting the medians of the orders turns an order that holds a NaN
    into a row of NaN *)
Lemma nan_row_after_medians (n : nat) (A : matrix) (row : vector) :
  Forall (fun r => length r = n) A -> row ∈ A -> NaN ∈ row ->
  replicate n NaN
  ∈ zip_with (zip_with fsub) A (tile_columns (map median A) n).
Proof.
  intros Hall Hrow Hnan. induction Hall as [|r A Hr _ IH].
  - by apply elem_of_nil in Hrow.
  - cbn. apply elem_of_cons in Hrow as [<- | Hrow].
    + rewrite (median_nan row Hnan).
      rewrite (zip_nan_r fsub row n fsub_nan_r Hr). apply list_elem_of_here.
    + apply list_elem_of_further. by apply IH.
Qed.

Lemma var_nan (n : nat) : 1 <= n -> var (replicate n NaN) = NaN.
Proof. destruct n as [|n]; [lia|]. reflexivity. Qed.

(** A NaN anywhere in the RVs makes the whole initial guess NaN. *)
Lemma initial_guess_nan (self : Results) (R N : nat) (A : matrix)
    (row : vector) :
  self !! "all_rvs"%string = Some (VArr (ND2 A)) ->
  self !! "R"%string = Some (VInt R) ->
  self !! "N"%string = Some (VInt N) ->
  has_shape R N A -> 1 <= R -> 1 <= N ->
  row ∈ A -> NaN ∈ row ->
  initial_guess self = Ok (replicate R NaN).
Proof.
  intros HA HR HN Hsh HR1 HN1 Hrow Hnan.
  rewrite (initial_guess_eval self R N A) by done. f_equal.
  assert (Ht : has_shape R N (tile_columns (map median A) N)).
  { apply has_shape_tile_columns. rewrite length_map. apply Hsh. }
  assert (Hd : has_shape R N
                 (zip_with (zip_with fsub) A (tile_columns (map median A) N)))
    by (by apply has_shape_zip2).
  rewrite (map_const_replicate median NaN (transpose_n N _)).
  2:{ eapply Forall_impl.
      - apply transpose_nan_columns.
        apply (nan_row_after_medians N A row); [apply Hsh|done|done].
      - intros c. apply median_nan. }
  rewrite (length_transpose_n N) by apply Hd.
  unfold tile_rows.
  rewrite (zip2_nan_r fadd _ R N fadd_nan_r Ht).
  rewrite (zip2_nan_r fsub _ R N fsub_nan_r Hsh).
  rewrite (map_const_replicate _ NaN).
  - by rewrite length_replicate.
  - apply Forall_replicate. by rewrite var_nan.
Qed.

(** Infinite stored precisions: [1/W] is zero, and the effective precision
    of every datum of order [r] is [1/sigma_r**2]. *)
Lemma infinite_ivars_effective (self : Results) (R N : nat) (s : list real) :
  self !! "R"%string = Some (VInt R) ->
  self !! "N"%string = Some (VInt N) ->
  self !! "all_ivars"%string
  = Some (VArr (ND2 (replicate R (replicate N PInf)))) ->
  length s = R -> 1 <= R ->
  Forall (fun a => a <> 0%R) s ->
  effective_ivars self (vFin s)
  = Ok (vFin (flatten (map (fun a => replicate N (1 / (a * a))%R) s)
              ++ [1%R])).
Proof.
  intros HR HN HW Hs HR1 Hnz. unfold effective_ivars, get_index_lists.
  rewrite (get_int_lookup _ _ _ HR), (get_int_lookup _ _ _ HN),
    (get_array_lookup _ _ _ HW).
  cbn [mbind result_bind nd_atleast_2d]. rewrite (gather_rows s R N Hs).
  cbn [mbind result_bind].
  rewrite (bcast2_same _ R N); [| | |lia].
  - cbn [mbind result_bind]. f_equal. rewrite vFin_app. f_equal.
    rewrite vFin_flatten. unfold flatten. f_equal. subst R. clear -Hnz.
    induction Hnz as [|a s Ha _ IH]; [done|].
    cbn [map replicate zip_with length mFin]. rewrite IH. f_equal.
    clear IH. induction N as [|n IHn]; [done|].
    cbn [map replicate zip_with vFin]. rewrite IHn. f_equal.
    cbn. destruct (Req_dec_T (0 + a * a) 0) as [E|_].
    + exfalso. apply Ha. nra.
    + f_equal. f_equal. lra.
  - split; [by rewrite length_map, length_replicate|].
    apply List.Forall_map, Forall_replicate. by rewrite length_map, length_replicate.
  - split; [by rewrite !length_map|].
    apply List.Forall_map, List.Forall_map, Forall_forall. intros a _.
    rewrite length_map. apply length_replicate.
Qed.

(** ** Values that are not finite, up to the linear solve *)

Lemma fdiv_infinite_precision (x : float64) :
  fdiv (Fin 1) (fadd (fdiv (Fin 1) PInf) x) = fdiv (Fin 1) x.
Proof.
  destruct x as [y| | |]; try reflexivity.
  cbn [fdiv fadd]. by rewrite Rplus_0_l.
Qed.

(** Infinite stored precisions: [1/W] is zero, and the effective precision
    of every datum of order [r] is [1/sigma_r**2], whatever the sigmas. *)
Lemma infinite_ivars_any_sigmas (self : Results) (R N : nat)
    (sigmas : vector) :
  self !! "R"%string = Some (VInt R) ->
  self !! "N"%string = Some (VInt N) ->
  self !! "all_ivars"%string
  = Some (VArr (ND2 (replicate R (replicate N PInf)))) ->
  length sigmas = R -> 1 <= R ->
  effective_ivars self sigmas = Ok (ivars_of_sigmas N sigmas).
Proof.
  intros HR HN HW Hs HR1. unfold effective_ivars, get_index_lists.
  rewrite (get_int_lookup _ _ _ HR), (get_int_lookup _ _ _ HN),
    (get_array_lookup _ _ _ HW).
  cbn [mbind result_bind nd_atleast_2d]. rewrite (gather_grid _ _ _ Hs).
  cbn [mbind result_bind].
  rewrite (bcast2_same _ R N); [| | |lia].
  2:{ apply has_shape_map_map. split; [apply length_replicate|].
      apply Forall_replicate, length_replicate. }
  2:{ apply has_shape_map_map, has_shape_grid. }
  cbn [mbind result_bind]. unfold ivars_of_sigmas. f_equal. f_equal.
  unfold flatten. f_equal.
  rewrite <- (map_lookup_total_seq
                (fun s => replicate N (fdiv (Fin 1) (fsquare s))) sigmas []).
  cbn [length app]. rewrite Hs.
  assert (Hrow : forall x,
             map (fdiv (Fin 1))
                 (zip_with fadd (map (fdiv (Fin 1)) (replicate N PInf))
                           (map fsquare (replicate N x)))
             = replicate N (fdiv (Fin 1) (fsquare x))).
  { intros x. clear. induction N as [|n IH]; [done|].
    cbn [replicate map zip_with]. rewrite IH. f_equal.
    apply fdiv_infinite_precision. }
  rewrite !map_map.
  change (map (fdiv (Fin 1)) <$> replicate R (replicate N PInf))
    with (map (map (fdiv (Fin 1))) (replicate R (replicate N PInf))).
  change (map (map (fdiv (Fin 1))) (replicate R (replicate N PInf)))
    with (map (fdiv (Fin 1)) <$> replicate R (replicate N PInf)).
  rewrite fmap_replicate.
  rewrite zip_with_replicate_l by (rewrite length_map, length_seq; lia).
  change (?f <$> ?l) with (map f l). rewrite !map_map.
  apply map_ext. intros r. apply Hrow.
Qed.

(** [d[:, None] * M] on floats: the rows of [M] weighed by [d] *)
Lemma bcast2_weigh_rows (L n : nat) (d : vector) (M : matrix) :
  has_shape L n M -> length d = L -> 0 < L ->
  bcast2 fmul (map (fun a => [a]) d) M = Ok (weigh_rows d M).
Proof.
  intros HM Hd HL. unfold bcast2.
  assert (ncols (map (fun a => [a]) d) = 1) as ->.
  { destruct d; [cbn in Hd; lia|reflexivity]. }
  rewrite (ncols_has_shape L n M) by done.
  unfold nrows. rewrite length_map, Hd.
  destruct HM as [HM1 HM2]. rewrite HM1, bcast_dim_same, bcast_dim_one.
  f_equal. rewrite (map_stretch_same n M) by done.
  rewrite (stretch_same L M) by done.
  rewrite map_map. cbn [stretch].
  rewrite (stretch_same L) by (rewrite length_map; exact Hd).
  unfold weigh_rows. clear Hd HL HM1. revert d.
  induction HM2 as [|r M Hr _ IH]; intros d.
  - by destruct d.
  - destruct d as [|a d]; [reflexivity|].
    cbn [map zip_with]. rewrite zip_with_replicate_l by lia.
    f_equal. apply IH.
Qed.

(** The solver up to the linear solve on arrays of floats, finite or not:
    with effective precisions of the right length no step before the
    solve can fail, and the linear solver is called. *)
Lemma lnlike_sigmas_reaches_solve
    (linalg_solve : matrix -> vector -> result vector)
    (self : Results) (R N : nat) (A : matrix) (ivars sigmas : vector)
    (return_rvs restart : bool) :
  self !! "R"%string = Some (VInt R) ->
  self !! "N"%string = Some (VInt N) ->
  1 <= R -> 1 <= N ->
  self !! "all_rvs"%string = Some (VArr (ND2 A)) ->
  has_shape R N A ->
  design_cache_ok self restart R N ->
  length sigmas = R ->
  effective_ivars self sigmas = Ok ivars ->
  length ivars = R * N + 1 ->
  let M := mFin (exact_design R N) in
  let ys := flatten A ++ [Fin 0] in
  lnlike_sigmas linalg_solve self sigmas return_rvs restart
  = (xs ← linalg_solve (matmul (transpose M) (weigh_rows ivars M))
                       (matvec (transpose M) (zip_with fmul ivars ys));
     lnlike_finish M ivars ys
                   (<["M"%string := VArr (ND2 (design_rows R N))]> self)
                   return_rvs xs).
Proof.
  intros HR HN HR1 HN1 HA HsA Hc Hs Hiv Hd M ys.
  pose proof (has_shape_exact_design R N) as HM.
  assert (HL : 0 < R * N + 1) by lia.
  assert (Hn : 0 < N + R) by lia.
  destruct (transpose_shape _ _ _ HM HL Hn) as (HT & HTc & HTall & HTlen).
  assert (Hys : length ys = R * N + 1).
  { unfold ys. rewrite length_app, (length_flatten_shape R N) by done.
    reflexivity. }
  unfold lnlike_sigmas. rewrite (get_int_lookup self "R" R HR).
  cbn [mbind result_bind]. rewrite Hs, Nat.eqb_refl.
  cbn [negb]. rewrite (design_with_constraint_exact self restart R N) by done.
  cbn [mbind result_bind].
  rewrite effective_ivars_cache, Hiv.
  cbn [mbind result_bind]. fold M.
  rewrite (bcast2_weigh_rows (R * N + 1) (N + R)); try done.
  2:{ by apply has_shape_mFin. }
  cbn [mbind result_bind].
  rewrite np_dot22_ok.
  2:{ unfold M. rewrite transpose_mFin, ncols_mFin, HTc. unfold nrows, weigh_rows.
      rewrite length_zip_with, Hd. unfold mFin. rewrite length_map.
      destruct HM as [HM1 HM2]. rewrite HM1. lia. }
  cbn [mbind result_bind].
  rewrite (get_array_lookup _ "all_rvs" (ND2 A))
    by (by rewrite lookup_insert_ne).
  cbn [mbind result_bind nd_flatten]. fold ys.
  rewrite bcast1_same by (by rewrite Hd, Hys).
  cbn [mbind result_bind].
  rewrite np_dot21_ok.
  2:{ unfold M. rewrite transpose_mFin, ncols_mFin, HTc, length_zip_with.
      rewrite Hd, Hys. lia. }
  cbn [mbind result_bind]. reflexivity.
Qed.

(** Lines 140-153 of [combine_orders]: once the arrays of the component
    are read and the initial guess is formed, the optimizer is called on the
    objective with that starting point, and what it returns or raises is
    all the rest of the call depends on. *)
Lemma combine_orders_hands_over
    (linalg_solve : matrix -> vector -> result vector)
    (self : Results) (component_name : string) (names : value)
    (A W : ndarray) (x0 : vector) :
  self !! "component_names"%string = Some names ->
  self !! (component_name +:+ "_rvs") = Some (VArr A) ->
  self !! (component_name +:+ "_ivars") = Some (VArr W) ->
  initial_guess (staged self A W) = Ok x0 ->
  exists k : vector * Results -> result Results,
    forall minimize : objective -> vector -> Results
                      -> result (vector * Results),
      combine_orders linalg_solve minimize self component_name
      = minimize (opposite_lnlike_sigmas linalg_solve) x0
                 (<["M"%string := VNone]> (staged self A W)) ≫= k.
Proof.
  intros Hnames HA HW Hx0. unfold combine_orders.
  rewrite (get_attr_lookup _ _ _ Hnames). cbn [mbind result_bind].
  rewrite !append_assoc.
  change ("_" +:+ "rvs")%string with "_rvs"%string.
  change ("_" +:+ "ivars")%string with "_ivars"%string.
  rewrite (get_attr_lookup _ _ _ HA). cbn [mbind result_bind asarray].
  rewrite (get_attr_lookup _ _ (VArr W)).
  2:{ rewrite lookup_insert_ne; [done|].
      intros E. by apply (ivars_key_not_all_rvs component_name). }
  cbn [mbind result_bind asarray]. unfold staged in Hx0. rewrite Hx0.
  cbn [mbind result_bind]. eexists. intros minimize. reflexivity.
Qed.


(** C7, as stated: stored precisions that are all infinite are accepted.
    The driver returns, and what it stores is finite: the fit of equal
    weights. No exception is raised. *)
Lemma infinite_precisions_accepted :
  Forall (Forall (fun w => is_finite w = false)) infinite_ivars /\
  exists self' : Results,
    combine_orders lapack_solve minimize_at_start
                   (demo_results_with (ND2 infinite_ivars)) "star"
    = Ok self' /\
    self' !! "star_time_rvs"%string = Some (VArr (ND1 (vFin [0; 4]%R))) /\
    self' !! "star_order_rvs"%string = Some (VArr (ND1 (vFin [2; -2]%R))) /\
    self' !! "star_order_sigmas"%string
    = Some (VArr (ND1 (vFin [ln demo_var; ln demo_var]))).
Proof.
  split; [by repeat constructor|].
  pose proof ln_demo_var_pos as Hk.
  apply (demo_combine_orders (ND2 infinite_ivars)
           (1 / (ln demo_var * ln demo_var))%R).
  - apply Rdiv_lt_0_compat; nra.
  - apply (infinite_ivars_effective _ 2 2 [ln demo_var; ln demo_var]);
      try reflexivity; try lia.
    repeat constructor; lra.
Qed.

(** C7, amended: the code has no check of finiteness, and values that
    are not finite propagate.

    - A NaN anywhere in the RVs makes the starting point computed on lines
      147-150 NaN in every component; no exception is raised, the
      optimizer is called on the objective with that starting point, and
      the rest of [combine_orders] depends on the optimizer only through
      what it returns or raises there.

    - Stored precisions that are all +inf contribute the variance 0 on
      line 170: whatever the sigmas, the effective precision of every datum
      of order r is the value of 1/sigma[r]**2, no step before the linear
      solve fails, and the linear solver is called on the normal equations
      weighed with these precisions. (Finite arithmetic is exact here;
      float64 rounds the same expression, so that sigma[r]**2 can underflow
      to 0 or overflow, and the precision be inf or 0.) *)
Theorem non_finite_values_propagate
    (linalg_solve : matrix -> vector -> result vector) (R N : nat) :
  1 <= R -> 1 <= N ->
  (forall (self : Results) (component_name : string) (names : value)
          (A : matrix) (W : ndarray) (row : vector),
      self !! "component_names"%string = Some names ->
      self !! "R"%string = Some (VInt R) ->
      self !! "N"%string = Some (VInt N) ->
      self !! (component_name +:+ "_rvs") = Some (VArr (ND2 A)) ->
      self !! (component_name +:+ "_ivars") = Some (VArr W) ->
      has_shape R N A -> row ∈ A -> NaN ∈ row ->
      initial_guess (staged self (ND2 A) W) = Ok (replicate R NaN) /\
      exists k : vector * Results -> result Results,
        forall minimize : objective -> vector -> Results
                          -> result (vector * Results),
          combine_orders linalg_solve minimize self component_name
          = minimize (opposite_lnlike_sigmas linalg_solve) (replicate R NaN)
                     (<["M"%string := VNone]> (staged self (ND2 A) W))
            ≫= k) /\
  (forall (self : Results) (A : matrix) (sigmas : vector)
          (return_rvs restart : bool),
      self !! "R"%string = Some (VInt R) ->
      self !! "N"%string = Some (VInt N) ->
      self !! "all_rvs"%string = Some (VArr (ND2 A)) ->
      has_shape R N A ->
      self !! "all_ivars"%string
      = Some (VArr (ND2 (replicate R (replicate N PInf)))) ->
      design_cache_ok self restart R N ->
      length sigmas = R ->
      let M := mFin (exact_design R N) in
      let ivars := ivars_of_sigmas N sigmas in
      let ys := flatten A ++ [Fin 0] in
      effective_ivars self sigmas = Ok ivars /\
      lnlike_sigmas linalg_solve self sigmas return_rvs restart
      = (xs ← linalg_solve (matmul (transpose M) (weigh_rows ivars M))
                           (matvec (transpose M) (zip_with fmul ivars ys));
         lnlike_finish M ivars ys
           (<["M"%string := VArr (ND2 (design_rows R N))]> self)
           return_rvs xs)).
Proof.
  intros HR1 HN1. split.
  - intros self component_name names A W row Hnames HR HN HA HW Hsh Hrow Hnan.
    assert (Hx0 : initial_guess (staged self (ND2 A) W)
                  = Ok (replicate R NaN)).
    { apply (initial_guess_nan _ R N A row); try done; unfold staged.
      - rewrite lookup_insert_ne by done. apply lookup_insert_eq.
      - by rewrite !lookup_insert_ne.
      - by rewrite !lookup_insert_ne. }
    split; [exact Hx0|].
    by apply (combine_orders_hands_over linalg_solve self component_name
                names (ND2 A) W).
  - intros self A sigmas return_rvs restart HR HN HA Hsh HW Hc Hs M ivars ys.
    assert (Hiv : effective_ivars self sigmas = Ok ivars)
      by (by apply (infinite_ivars_any_sigmas self R N sigmas)).
    split; [exact Hiv|].
    apply (lnlike_sigmas_reaches_solve linalg_solve self R N A ivars sigmas);
      try done.
    unfold ivars, ivars_of_sigmas. rewrite length_app. cbn [length].
    f_equal. rewrite (length_flatten_shape R N); [reflexivity|].
    split; [by rewrite length_map|].
    apply List.Forall_map, Forall_forall. intros s _. apply length_replicate.
Qed.

Lemma non_finite_values_propagate_witness :
  initial_guess
    (staged (component_object 2 2 "star" (VArr (ND2 nan_rvs))
                              (VArr (ND2 infinite_ivars)))
            (ND2 nan_rvs) (ND2 infinite_ivars))
  = Ok [NaN; NaN] /\
  effective_ivars (solver_object 2 2 (ND2 nan_rvs) (ND2 infinite_ivars))
                  [Fin 1; NInf]
  = Ok (ivars_of_sigmas 2 [Fin 1; NInf]).
Proof.
  destruct (non_finite_values_propagate lapack_solve 2 2) as [Hnan Hinf].
  - lia.
  - lia.
  - split.
    + apply (Hnan (component_object 2 2 "star" (VArr (ND2 nan_rvs))
                                    (VArr (ND2 infinite_ivars)))
                  "star" (VList [VStr "star"]) nan_rvs (ND2 infinite_ivars)
                  [Fin 0; NaN]).
      * reflexivity.
      * reflexivity.
      * reflexivity.
      * reflexivity.
      * reflexivity.
      * split; [reflexivity|]. repeat constructor.
      * apply list_elem_of_here.
      * apply list_elem_of_further, list_elem_of_here.
    + apply (Hinf (solver_object 2 2 (ND2 nan_rvs) (ND2 infinite_ivars))
                  nan_rvs [Fin 1; NInf] true false).
      * reflexivity.
      * reflexivity.
      * reflexivity.
      * split; [reflexivity|]. repeat constructor.
      * reflexivity.
      * apply solver_object_cache.
      * reflexivity.
Defined.

(** ** C8: a run with a cached design matrix *)

Lemma cached_solver_input :
  solver_input
    (cached_object 2 2 (ND2 (mFin demo_rvs)) (ND2 (mFin unit_ivars)))
    2 2 demo_rvs unit_ivars.
Proof. split; try done; try lia; split; try done; by repeat constructor. Qed.

Lemma sigma_sign_immaterial_witness :
  lnlike_sigmas lapack_solve
    (cached_object 2 2 (ND2 (mFin demo_rvs)) (ND2 (mFin unit_ivars)))
    [Fin (- (3)); Fin 3] true false
  = lnlike_sigmas lapack_solve
      (cached_object 2 2 (ND2 (mFin demo_rvs)) (ND2 (mFin unit_ivars)))
      [Fin 3; Fin 3] true false /\
  exists v : lnlike_value,
    lnlike_sigmas lapack_solve
      (cached_object 2 2 (ND2 (mFin demo_rvs)) (ND2 (mFin unit_ivars)))
      [Fin 3; Fin 3] true false
    = Ok (v, cached_object 2 2 (ND2 (mFin demo_rvs)) (ND2 (mFin unit_ivars))).
Proof.
  destruct (sigma_sign_immaterial lapack_solve
              (cached_object 2 2 (ND2 (mFin demo_rvs)) (ND2 (mFin unit_ivars)))
              [Fin 3; Fin 3] [Fin (- (3)); Fin 3] true false)
    as [Hsign Hpure].
  - constructor; [by right|]. constructor; [by left|]. constructor.
  - split; [exact Hsign|].
    pose proof (demo_lnlike_sigmas
                  (cached_object 2 2 (ND2 (mFin demo_rvs))
                                 (ND2 (mFin unit_ivars)))
                  false true 3 cached_solver_input
                  (design_cache_ok_cached _ 2 2)) as Hrun.
    pose proof (Hpure (design_rows 2 2) _ _ eq_refl Hrun) as Hsame.
    rewrite Hsame in Hrun. eexists. exact Hrun.
Defined.

(* ===================================================================== *)
(** * Registering components *)
(* ===================================================================== *)

Lemma isin_spec (nm : string) (l : list value) :
  isin nm l = true <-> VStr nm ∈ l.
Proof.
  split; [|apply isin_elem].
  unfold isin. intros H. apply existsb_exists in H as (v & Hin & Hv).
  destruct v; try discriminate. apply String.eqb_eq in Hv as ->.
  by apply list_elem_of_In.
Qed.

Lemma append_suffix (a b t : string) : a +:+ b = t -> b ∈ suffixes t.
Proof.
  revert t. induction a as [|c a IH]; intros t Ht.
  - cbn in Ht. subst t. destruct b; apply list_elem_of_here.
  - destruct t as [|c' t]; [discriminate|].
    change (String c (a +:+ b) = String c' t) in Ht.
    injection Ht as _ Ht. cbn [suffixes]. apply list_elem_of_further.
    by apply IH.
Qed.

(** no attribute of a component is one of the attributes of the object *)
Lemma component_key_fresh (nm attr : string) :
  attr ∈ COMPONENT_ARRAY_ATTRS ++ COMPONENT_LIST_ATTRS ->
  (nm +:+ "_") +:+ attr <> "component_names"%string /\
  (nm +:+ "_") +:+ attr <> "R"%string /\
  (nm +:+ "_") +:+ attr <> "N"%string.
Proof.
  intros Hin. rewrite append_assoc.
  assert (Hall : Forall (fun a => (("_" +:+ a) ∉ suffixes "component_names") /\
                                  (("_" +:+ a) ∉ suffixes "R") /\
                                  (("_" +:+ a) ∉ suffixes "N"))
                        (COMPONENT_ARRAY_ATTRS ++ COMPONENT_LIST_ATTRS)).
  { apply (bool_decide_unpack _). vm_compute. exact I. }
  rewrite Forall_forall in Hall. destruct (Hall attr Hin) as (H1 & H2 & H3).
  repeat split; intros E; apply append_suffix in E; done.
Qed.

Section Registration.
Variables (basename : string) (keys : list string).
Hypothesis Hfresh :
  forall a, a ∈ keys ->
            basename +:+ a <> "R"%string /\ basename +:+ a <> "N"%string.

(** a run of [setattr]s that all store the value [v] *)
Lemma lookup_foldl_insert (v : value) (s : Results) (k : string)
    (attrs : list string) :
  foldl (fun s a => <[basename +:+ a := v]> s) s attrs !! k
  = if bool_decide (k ∈ map (String.append basename) attrs)
    then Some v else s !! k.
Proof.
  revert s. induction attrs as [|a attrs IH]; intros s; [done|].
  cbn [foldl map]. rewrite IH.
  destruct (decide (k ∈ map (String.append basename) attrs)) as [Hin|Hin].
  - rewrite !bool_decide_eq_true_2; [done| |done]. by apply list_elem_of_further.
  - rewrite (bool_decide_eq_false_2 _ Hin).
    destruct (decide (k = basename +:+ a)) as [->|Hne].
    + rewrite lookup_insert_eq, bool_decide_eq_true_2; [done|].
      apply list_elem_of_here.
    + rewrite lookup_insert_ne by done. rewrite bool_decide_eq_false_2; [done|].
      intros [E|E]%elem_of_cons; done.
Qed.

Lemma lookup_foldl_insert_ne (v : value) (s : Results) (k : string)
    (attrs : list string) :
  (forall a, a ∈ attrs -> basename +:+ a <> k) ->
  foldl (fun s a => <[basename +:+ a := v]> s) s attrs !! k = s !! k.
Proof.
  intros Hne. rewrite lookup_foldl_insert. rewrite bool_decide_eq_false_2; [done|].
  intros Hin. apply list_elem_of_In, in_map_iff in Hin as (a & E & Ha).
  apply (Hne a); [by apply list_elem_of_In|done].
Qed.

Lemma foldl_set_order_list (R : nat) (s : Results) (attrs : list string) :
  s !! "R"%string = Some (VInt R) ->
  (forall a, a ∈ attrs -> a ∈ keys) ->
  foldl (set_order_list basename) (Ok s) attrs
  = Ok (foldl (fun s a => <[basename +:+ a := VList (replicate R (VInt 0))]> s)
              s attrs).
Proof.
  revert s. induction attrs as [|a attrs IH]; intros s HR Hk; [done|].
  cbn [foldl]. unfold set_order_list at 2. cbn [mbind result_bind].
  rewrite (get_int_lookup _ _ _ HR). cbn [mbind result_bind].
  apply IH.
  - rewrite lookup_insert_ne; [done|].
    apply Hfresh, Hk, list_elem_of_here.
  - intros b Hb. by apply Hk, list_elem_of_further.
Qed.

Lemma foldl_set_nan_array (R N : nat) (s : Results) (attrs : list string) :
  s !! "R"%string = Some (VInt R) ->
  s !! "N"%string = Some (VInt N) ->
  (forall a, a ∈ attrs -> a ∈ keys) ->
  foldl (set_nan_array basename) (Ok s) attrs
  = Ok (foldl (fun s a => <[basename +:+ a
                            := VArr (ND2 (replicate R (replicate N NaN)))]> s)
              s attrs).
Proof.
  revert s. induction attrs as [|a attrs IH]; intros s HR HN Hk; [done|].
  cbn [foldl]. unfold set_nan_array at 2. cbn [mbind result_bind].
  rewrite (get_int_lookup _ _ _ HR). cbn [mbind result_bind].
  rewrite (get_int_lookup _ _ _ HN). cbn [mbind result_bind].
  apply IH.
  - rewrite lookup_insert_ne; [done|]. apply Hfresh, Hk, list_elem_of_here.
  - rewrite lookup_insert_ne; [done|]. apply Hfresh, Hk, list_elem_of_here.
  - intros b Hb. by apply Hk, list_elem_of_further.
Qed.
End Registration.

Lemma append_inj_r (a b c : string) : a +:+ b = a +:+ c -> b = c.
Proof.
  induction a as [|x a IH]; [done|]. intros E.
  change (String x (a +:+ b) = String x (a +:+ c)) in E.
  injection E as E. by apply IH.
Qed.

Lemma elem_of_map_append (basename a : string) (attrs : list string) :
  basename +:+ a ∈ map (String.append basename) attrs <-> a ∈ attrs.
Proof.
  split.
  - intros Hin. apply list_elem_of_In, in_map_iff in Hin as (b & E & Hb).
    apply append_inj_r in E as ->. by apply list_elem_of_In.
  - intros Hin. apply list_elem_of_In, in_map. by apply list_elem_of_In.
Qed.

Lemma get_int_inv (self : Results) (k : string) (n : nat) :
  get_int self k = Ok n -> self !! k = Some (VInt n).
Proof.
  unfold get_int, get_attr. destruct (self !! k) as [[]|]; try discriminate.
  by intros [= ->].
Qed.

(** The state a first registration leaves, attribute by attribute. *)
Lemma add_component_fresh_state (self : Results) (c : Component)
    (names : list value) (R N : nat) :
  self !! "component_names"%string = Some (VList names) ->
  VStr (name c) ∉ names ->
  self !! "R"%string = Some (VInt R) ->
  self !! "N"%string = Some (VInt N) ->
  exists s1 : Results,
    add_component self c = Ok s1 /\
    forall k : string,
      s1 !! k
      = if bool_decide (k ∈ map (String.append (name c +:+ "_"))
                                COMPONENT_LIST_ATTRS)
        then Some (VList (replicate R (VInt 0)))
        else if bool_decide (k ∈ map (String.append (name c +:+ "_"))
                                     COMPONENT_ARRAY_ATTRS)
        then Some (VArr (ND2 (replicate R (replicate N NaN))))
        else if bool_decide (k = "component_names"%string)
        then Some (VList (names ++ [VStr (name c)]))
        else self !! k.
Proof.
  intros Hnames Hnew HR HN. unfold add_component.
  rewrite (get_attr_lookup _ _ _ Hnames). cbn [mbind result_bind].
  destruct (isin (name c) names) eqn:Eisin.
  { apply isin_spec in Eisin. done. }
  set (s0 := <["component_names"%string
               := VList (names ++ [VStr (name c)])]> self).
  assert (Hfresh : forall a,
             a ∈ COMPONENT_ARRAY_ATTRS ++ COMPONENT_LIST_ATTRS ->
             (name c +:+ "_") +:+ a <> "R"%string /\
             (name c +:+ "_") +:+ a <> "N"%string).
  { intros a Ha. by destruct (component_key_fresh (name c) a Ha) as (_ & ? & ?). }
  pose proof (lookup_foldl_insert (name c +:+ "_")) as Hlook.
  rewrite (foldl_set_nan_array _ _ Hfresh R N s0 ["rvs"; "ivars"]%string).
  2:{ unfold s0. by rewrite lookup_insert_ne. }
  2:{ unfold s0. by rewrite lookup_insert_ne. }
  2:{ intros a Ha. apply elem_of_app. by left. }
  rewrite (foldl_set_order_list _ _ Hfresh R).
  2:{ rewrite lookup_foldl_insert_ne.
      - unfold s0. by rewrite lookup_insert_ne.
      - intros a Ha. apply Hfresh, elem_of_app. by left. }
  2:{ intros a Ha. apply elem_of_app. right. apply elem_of_app. by left. }
  rewrite (foldl_set_order_list _ _ Hfresh R).
  2:{ rewrite !lookup_foldl_insert_ne.
      - unfold s0. by rewrite lookup_insert_ne.
      - intros a Ha. apply Hfresh, elem_of_app. by left.
      - intros a Ha. apply Hfresh, elem_of_app. right.
        apply elem_of_app. by left. }
  2:{ intros a Ha. apply elem_of_app. right. apply elem_of_app. by right. }
  eexists. split; [reflexivity|]. intros k.
  rewrite <- foldl_app. rewrite !Hlook.
  change (["template_xs"; "template_ys"; "basis_vectors"; "basis_weights";
           "ys_predicted"]%string ++ COMPONENT_NP_ATTRS)
    with COMPONENT_LIST_ATTRS.
  change ["rvs"; "ivars"]%string with COMPONENT_ARRAY_ATTRS.
  destruct (bool_decide (k ∈ map _ COMPONENT_LIST_ATTRS)); [done|].
  destruct (bool_decide (k ∈ map _ COMPONENT_ARRAY_ATTRS)); [done|].
  unfold s0. case_bool_decide as Hk.
  - subst k. apply lookup_insert_eq.
  - by rewrite lookup_insert_ne.
Qed.

Lemma component_attrs_disjoint (a : string) :
  a ∈ COMPONENT_ARRAY_ATTRS -> a ∉ COMPONENT_LIST_ATTRS.
Proof.
  assert (Hall : Forall (fun a => a ∉ COMPONENT_LIST_ATTRS)
                        COMPONENT_ARRAY_ATTRS).
  { apply (bool_decide_unpack _). vm_compute. exact I. }
  rewrite Forall_forall in Hall. apply Hall.
Qed.

(** what a first registration leaves, read attribute by attribute *)
Lemma add_component_fresh_lookups (self : Results) (c : Component)
    (names : list value) (R N : nat) :
  self !! "component_names"%string = Some (VList names) ->
  VStr (name c) ∉ names ->
  self !! "R"%string = Some (VInt R) ->
  self !! "N"%string = Some (VInt N) ->
  exists s1 : Results,
    add_component self c = Ok s1 /\
    s1 !! "component_names"%string
    = Some (VList (names ++ [VStr (name c)])) /\
    (forall a, a ∈ COMPONENT_ARRAY_ATTRS ->
       s1 !! ((name c +:+ "_") +:+ a)
       = Some (VArr (ND2 (replicate R (replicate N NaN))))) /\
    (forall a, a ∈ COMPONENT_LIST_ATTRS ->
       s1 !! ((name c +:+ "_") +:+ a)
       = Some (VList (replicate R (VInt 0)))) /\
    (forall k : string,
       k <> "component_names"%string ->
       (forall a, a ∈ COMPONENT_ARRAY_ATTRS ++ COMPONENT_LIST_ATTRS ->
                  k <> (name c +:+ "_") +:+ a) ->
       s1 !! k = self !! k).
Proof.
  intros Hnames Hnew HR HN.
  destruct (add_component_fresh_state self c names R N Hnames Hnew HR HN)
    as (s1 & Hrun & Hs1).
  exists s1. split; [exact Hrun|]. split; [|split; [|split]].
  - rewrite Hs1.
    rewrite bool_decide_eq_false_2.
    2:{ intros Hin. apply list_elem_of_In, in_map_iff in Hin as (a & E & Ha).
        apply list_elem_of_In in Ha.
        destruct (component_key_fresh (name c) a) as (Hne & _); [|done].
        apply elem_of_app. by right. }
    rewrite bool_decide_eq_false_2.
    2:{ intros Hin. apply list_elem_of_In, in_map_iff in Hin as (a & E & Ha).
        apply list_elem_of_In in Ha.
        destruct (component_key_fresh (name c) a) as (Hne & _); [|done].
        apply elem_of_app. by left. }
    by rewrite bool_decide_eq_true_2.
  - intros a Ha. rewrite Hs1.
    rewrite bool_decide_eq_false_2.
    2:{ rewrite elem_of_map_append. by apply component_attrs_disjoint. }
    rewrite bool_decide_eq_true_2; [done|]. by apply elem_of_map_append.
  - intros a Ha. rewrite Hs1.
    rewrite bool_decide_eq_true_2; [done|]. by apply elem_of_map_append.
  - intros k Hk Hother. rewrite Hs1.
    rewrite bool_decide_eq_false_2.
    2:{ intros Hin. apply list_elem_of_In, in_map_iff in Hin as (a & E & Ha).
        apply list_elem_of_In in Ha. apply (Hother a); [|done].
        apply elem_of_app. by right. }
    rewrite bool_decide_eq_false_2.
    2:{ intros Hin. apply list_elem_of_In, in_map_iff in Hin as (a & E & Ha).
        apply list_elem_of_In in Ha. apply (Hother a); [|done].
        apply elem_of_app. by left. }
    by rewrite bool_decide_eq_false_2.
Qed.

(** X1. The first registration of a name appends it to [component_names],
    creates [<name>_rvs] and [<name>_ivars] as R x N arrays of NaN and the
    seventeen other attributes of the component as lists of R zeros, and
    changes no other attribute. *)
Theorem add_component_registers (self : Results) (c : Component)
    (names : list value) (R N : nat) :
  self !! "component_names"%string = Some (VList names) ->
  VStr (name c) ∉ names ->
  self !! "R"%string = Some (VInt R) ->
  self !! "N"%string = Some (VInt N) ->
  exists s1 : Results,
    add_component self c = Ok s1 /\
    s1 !! "component_names"%string
    = Some (VList (names ++ [VStr (name c)])) /\
    (forall a, a ∈ COMPONENT_ARRAY_ATTRS ->
       s1 !! ((name c +:+ "_") +:+ a)
       = Some (VArr (ND2 (replicate R (replicate N NaN))))) /\
    (forall a, a ∈ COMPONENT_LIST_ATTRS ->
       s1 !! ((name c +:+ "_") +:+ a)
       = Some (VList (replicate R (VInt 0)))) /\
    (forall k : string,
       k <> "component_names"%string ->
       (forall a, a ∈ COMPONENT_ARRAY_ATTRS ++ COMPONENT_LIST_ATTRS ->
                  k <> (name c +:+ "_") +:+ a) ->
       s1 !! k = self !! k).
Proof.
  intros Hnames Hnew HR HN.
  destruct (add_component_fresh_lookups self c names R N Hnames Hnew HR HN)
    as (s1 & Hrun & Hcn & Harr & Hlist & Hframe).
  exists s1. repeat split; assumption.
Qed.

Lemma add_component_registers_witness :
  exists s1 : Results,
    add_component demo_results {| name := "sky" |} = Ok s1 /\
    s1 !! "component_names"%string
    = Some (VList ([VStr "star"] ++ [VStr "sky"])) /\
    (forall a, a ∈ COMPONENT_ARRAY_ATTRS ->
       s1 !! (("sky" +:+ "_") +:+ a)
       = Some (VArr (ND2 (replicate 2 (replicate 2 NaN))))) /\
    (forall a, a ∈ COMPONENT_LIST_ATTRS ->
       s1 !! (("sky" +:+ "_") +:+ a)
       = Some (VList (replicate 2 (VInt 0)))) /\
    (forall k : string,
       k <> "component_names"%string ->
       (forall a, a ∈ COMPONENT_ARRAY_ATTRS ++ COMPONENT_LIST_ATTRS ->
                  k <> ("sky" +:+ "_") +:+ a) ->
       s1 !! k = demo_results !! k).
Proof.
  apply (add_component_registers demo_results {| name := "sky" |}
           [VStr "star"] 2 2).
  - reflexivity.
  - intros Hin. apply list_elem_of_singleton in Hin. discriminate Hin.
  - reflexivity.
  - reflexivity.
Defined.

Lemma foldl_set_order_list_raise (basename : string) (e : exn)
    (attrs : list string) :
  foldl (set_order_list basename) (Raise e) attrs = Raise e.
Proof. induction attrs as [|a attrs IH]; [done|]. exact IH. Qed.

Lemma foldl_set_nan_array_raise (basename : string) (e : exn)
    (attrs : list string) :
  foldl (set_nan_array basename) (Raise e) attrs = Raise e.
Proof. induction attrs as [|a attrs IH]; [done|]. exact IH. Qed.

Lemma foldl_set_nan_array_fail (basename : string) (s : Results) (e : exn)
    (a : string) (attrs : list string) :
  get_int s "R" = Raise e \/
  (exists R, get_int s "R" = Ok R /\ get_int s "N" = Raise e) ->
  foldl (set_nan_array basename) (Ok s) (a :: attrs) = Raise e.
Proof.
  intros H. cbn [foldl].
  assert (set_nan_array basename (Ok s) a = Raise e) as ->.
  { unfold set_nan_array. cbn [mbind result_bind].
    destruct H as [->|(R & -> & E)]; [done|]. cbn [mbind result_bind].
    by rewrite E. }
  apply foldl_set_nan_array_raise.
Qed.

(** what a registration that returns has found on the object *)
Lemma add_component_inv (self s1 : Results) (c : Component) :
  add_component self c = Ok s1 ->
  (s1 = self /\
   (self !! "component_names"%string = Some (VStr (name c)) \/
    exists names, self !! "component_names"%string = Some (VList names) /\
                  VStr (name c) ∈ names)) \/
  exists names R N,
    self !! "component_names"%string = Some (VList names) /\
    (VStr (name c) ∉ names) /\
    self !! "R"%string = Some (VInt R) /\
    self !! "N"%string = Some (VInt N).
Proof.
  unfold add_component, get_attr.
  destruct (self !! "component_names"%string) as [[| | s | |names]|] eqn:En;
    try discriminate; cbn [mbind result_bind].
  { destruct (String.eqb_spec (name c) s) as [<-|]; [|discriminate].
    intros [= <-]. left. split; [done|]. by left. }
  destruct (isin (name c) names) eqn:Eisin.
  { intros [= <-]. left. split; [done|]. right. exists names.
    split; [done|]. by apply isin_spec. }
  intros Hrun. right.
  set (s0 := <["component_names"%string
               := VList (names ++ [VStr (name c)])]> self) in *.
  destruct (get_int s0 "R") as [R|e] eqn:ER.
  2:{ exfalso.
      rewrite (foldl_set_nan_array_fail _ s0 e "rvs" ["ivars"]%string) in Hrun
        by (by left).
      rewrite !foldl_set_order_list_raise in Hrun. discriminate. }
  destruct (get_int s0 "N") as [N|e] eqn:EN.
  2:{ exfalso.
      rewrite (foldl_set_nan_array_fail _ s0 e "rvs" ["ivars"]%string) in Hrun
        by (right; eauto).
      rewrite !foldl_set_order_list_raise in Hrun. discriminate. }
  apply get_int_inv in ER, EN. unfold s0 in ER, EN.
  rewrite lookup_insert_ne in ER, EN by done.
  exists names, R, N. repeat split; try done.
  intros Hin. apply isin_spec in Hin. congruence.
Qed.

(** X2. Registering the same component again changes nothing: whenever
    [add_component] returns, a second call with the same component returns
    the object as the first call left it. *)
Theorem add_component_twice (self s1 : Results) (c : Component) :
  add_component self c = Ok s1 ->
  add_component s1 c = Ok s1.
Proof.
  intros Hrun. destruct (add_component_inv self s1 c Hrun)
    as [[-> [Hs|(names & Hnames & Hin)]]
       |(names & R & N & Hnames & Hnew & HR & HN)].
  - unfold add_component. rewrite (get_attr_lookup _ _ _ Hs).
    cbn [mbind result_bind]. by rewrite String.eqb_refl.
  - unfold add_component. rewrite (get_attr_lookup _ _ _ Hnames).
    cbn [mbind result_bind]. by rewrite isin_elem.
  - destruct (add_component_fresh_lookups self c names R N Hnames Hnew HR HN)
      as (s1' & Hrun' & Hn1 & _).
    rewrite Hrun in Hrun'. injection Hrun' as <-.
    unfold add_component. rewrite (get_attr_lookup _ _ _ Hn1).
    cbn [mbind result_bind]. rewrite isin_elem; [done|].
    apply elem_of_app. right. apply list_elem_of_here.
Qed.

Lemma add_component_twice_witness :
  exists s1 : Results,
    add_component demo_results {| name := "sky" |} = Ok s1 /\
    add_component s1 {| name := "sky" |} = Ok s1.
Proof.
  destruct (add_component_fresh_state demo_results {| name := "sky" |}
              [VStr "star"] 2 2) as (s1 & Hrun & _).
  - reflexivity.
  - intros Hin. apply list_elem_of_singleton in Hin. discriminate Hin.
  - reflexivity.
  - reflexivity.
  - exists s1. split; [exact Hrun|].
    exact (add_component_twice demo_results s1 {| name := "sky" |} Hrun).
Defined.

(** X3. A first registration needs [component_names], [R] and [N] on the
    object: when one of them is missing, [add_component] raises
    AttributeError. *)
Theorem add_component_missing_attribute (self : Results) (c : Component) :
  (self !! "component_names"%string = None \/
   exists names : list value,
     self !! "component_names"%string = Some (VList names) /\
     (VStr (name c) ∉ names) /\
     (self !! "R"%string = None \/
      exists R : nat, self !! "R"%string = Some (VInt R) /\
                      self !! "N"%string = None)) ->
  add_component self c = Raise AttributeError.
Proof.
  intros [Hnone|(names & Hnames & Hnew & Hmiss)].
  - unfold add_component, get_attr. by rewrite Hnone.
  - unfold add_component.
    rewrite (get_attr_lookup _ _ _ Hnames). cbn [mbind result_bind].
    destruct (isin (name c) names) eqn:Eisin.
    { apply isin_spec in Eisin. done. }
    set (s0 := <["component_names"%string
                 := VList (names ++ [VStr (name c)])]> self).
    assert (HR0 : s0 !! "R"%string = self !! "R"%string)
      by (unfold s0; by rewrite lookup_insert_ne).
    assert (HN0 : s0 !! "N"%string = self !! "N"%string)
      by (unfold s0; by rewrite lookup_insert_ne).
    rewrite (foldl_set_nan_array_fail _ s0 AttributeError "rvs"
               ["ivars"]%string).
    + by rewrite !foldl_set_order_list_raise.
    + unfold get_int, get_attr. rewrite HR0, HN0.
      destruct Hmiss as [->|(R & -> & ->)]; [by left|].
      right. by exists R.
Qed.

Lemma add_component_missing_attribute_witness :
  add_component (<["component_names"%string := VList []]> ∅)
                {| name := "star" |}
  = Raise AttributeError.
Proof.
  apply add_component_missing_attribute. right. exists [].
  split; [reflexivity|]. split; [apply not_elem_of_nil|]. by left.
Defined.

(* ===================================================================== *)
(** * The constructor *)
(* ===================================================================== *)

(** X4. A Results object built from data accepts any component: the
    constructor followed by [add_component] returns an object whose
    [component_names] is the one name, with the component's RVs and
    precisions as [data.R] x [data.N] arrays of NaN, and with the five
    attributes copied from the data in place. *)
Theorem init_then_add_component
    (read : Results -> string -> result Results) (d : Data) (c : Component) :
  exists s0 s1 : Results,
    init read (Some d) None = Ok s0 /\
    add_component s0 c = Ok s1 /\
    s1 !! "component_names"%string = Some (VList [VStr (name c)]) /\
    s1 !! ((name c +:+ "_") +:+ "rvs")
    = Some (VArr (ND2 (replicate (data_R d) (replicate (data_N d) NaN)))) /\
    s1 !! ((name c +:+ "_") +:+ "ivars")
    = Some (VArr (ND2 (replicate (data_R d) (replicate (data_N d) NaN)))) /\
    s1 !! "R"%string = Some (VInt (data_R d)) /\
    s1 !! "N"%string = Some (VInt (data_N d)) /\
    s1 !! "orders"%string = Some (data_orders d) /\
    s1 !! "origin_file"%string = Some (data_origin_file d) /\
    s1 !! "epochs"%string = Some (data_epochs d).
Proof.
  eexists. 
  destruct (add_component_fresh_lookups
              (<["epochs"%string := data_epochs d]>
                 (<["origin_file"%string := data_origin_file d]>
                    (<["orders"%string := data_orders d]>
                       (<["N"%string := VInt (data_N d)]>
                          (<["R"%string := VInt (data_R d)]>
                             (<["component_names"%string := VList []]> ∅))))))
              c [] (data_R d) (data_N d))
    as (s1 & Hrun & Hnames & Harr & _ & Hframe); try reflexivity.
  { apply not_elem_of_nil. }
  assert (Hkeep : forall k : string,
             k ∈ ["R"; "N"; "orders"; "origin_file"; "epochs"]%string ->
             k <> "component_names"%string /\
             forall a, a ∈ COMPONENT_ARRAY_ATTRS ++ COMPONENT_LIST_ATTRS ->
                       k <> (name c +:+ "_") +:+ a).
  { intros k Hk. split.
    - intros ->. revert Hk. apply (bool_decide_unpack _). vm_compute. exact I.
    - intros a Ha E. symmetry in E. rewrite append_assoc in E.
      apply append_suffix in E.
      assert (Hall : Forall (fun k => Forall (fun a => ("_" +:+ a) ∉ suffixes k)
                                        (COMPONENT_ARRAY_ATTRS
                                           ++ COMPONENT_LIST_ATTRS))
                            ["R"; "N"; "orders"; "origin_file";
                             "epochs"]%string).
      { apply (bool_decide_unpack _). vm_compute. exact I. }
      rewrite Forall_forall in Hall. specialize (Hall k Hk).
      rewrite Forall_forall in Hall. by apply (Hall a). }
  exists s1. split; [reflexivity|]. split; [exact Hrun|].
  split; [exact Hnames|].
  split; [apply Harr; elem_of_list|]. split; [apply Harr; elem_of_list|].
  repeat split; (rewrite Hframe; [reflexivity|apply Hkeep; elem_of_list..]).
Qed.

(** X5. With neither keyword the constructor raises AttributeError (at
    [data.R]); with both it only prints, and the object it leaves has no
    attribute, so that registering a component and combining orders both
    raise AttributeError on it. *)
Theorem init_without_usable_arguments
    (read : Results -> string -> result Results)
    (linalg_solve : matrix -> vector -> result vector)
    (minimize : objective -> vector -> Results -> result (vector * Results))
    (d : Data) (filename : string) (c : Component) (component_name : string) :
  init read None None = Raise AttributeError /\
  exists s0 : Results,
    init read (Some d) (Some filename) = Ok s0 /\
    (forall k : string, s0 !! k = None) /\
    add_component s0 c = Raise AttributeError /\
    combine_orders linalg_solve minimize s0 component_name
    = Raise AttributeError.
Proof.
  split; [reflexivity|]. exists ∅. split; [reflexivity|].
  split; [intros k; apply lookup_empty|]. split; reflexivity.
Qed.

(* ===================================================================== *)
(** * Index lists and the cache of the design matrix *)
(* ===================================================================== *)

Lemma seq_block (R N : nat) :
  seq (R * N) N = map (fun j => R * N + j) (seq 0 N).
Proof.
  apply list_eq. intros i. rewrite list_lookup_fmap.
  destruct (decide (i < N)) as [Hi|Hi].
  - rewrite !lookup_seq_lt by done. reflexivity.
  - rewrite !lookup_seq_ge by lia. reflexivity.
Qed.

Lemma flatten_row_index (R N : nat) :
  flatten (map (fun r => replicate N r) (seq 0 R))
  = map (fun i => i / N) (seq 0 (R * N)).
Proof.
  unfold flatten. induction R as [|R IH]; [done|].
  rewrite seq_S, map_app, concat_app, IH. cbn [map concat Nat.add].
  rewrite app_nil_r.
  replace (S R * N) with (R * N + N) by lia.
  rewrite seq_app, map_app. f_equal. cbn [Nat.add].
  rewrite seq_block, map_map.
  rewrite (map_const_replicate _ R), length_seq; [done|].
  apply Forall_forall. intros j Hj. apply elem_of_seq in Hj.
  rewrite Nat.div_add_l by lia.
  rewrite Nat.div_small by lia. lia.
Qed.

Lemma flatten_column_index (R N : nat) :
  flatten (replicate R (seq 0 N)) = map (fun i => i mod N) (seq 0 (R * N)).
Proof.
  unfold flatten. induction R as [|R IH]; [done|].
  rewrite replicate_S_end, concat_app, IH. cbn [concat].
  rewrite app_nil_r.
  replace (S R * N) with (R * N + N) by lia.
  rewrite seq_app, map_app. f_equal. cbn [Nat.add].
  rewrite seq_block, map_map. rewrite <- (map_id (seq 0 N)) at 1.
  apply map_ext_in. intros j Hj. apply in_seq in Hj.
  rewrite Nat.add_comm, Nat.Div0.mod_add.
  symmetry. apply Nat.mod_small. lia.
Qed.

(** X6. [get_index_lists] returns two R x N grids that enumerate the data
    row-major: flattened, datum i carries order i / N and epoch i mod N. *)
Theorem get_index_lists_row_major (self : Results) (R N : nat) :
  self !! "R"%string = Some (VInt R) ->
  self !! "N"%string = Some (VInt N) ->
  exists Rs Ns : list (list nat),
    get_index_lists self = Ok (Rs, Ns) /\
    has_shape R N Rs /\ has_shape R N Ns /\
    flatten Rs = map (fun i => i / N) (seq 0 (R * N)) /\
    flatten Ns = map (fun i => i mod N) (seq 0 (R * N)).
Proof.
  intros HR HN. unfold get_index_lists.
  rewrite (get_int_lookup _ _ _ HR), (get_int_lookup _ _ _ HN).
  do 2 eexists. split; [reflexivity|]. split; [|split; [|split]].
  - split; [by rewrite length_map, length_seq|].
    apply List.Forall_map, Forall_forall. intros r _. apply length_replicate.
  - split; [apply length_replicate|].
    apply Forall_replicate. apply length_seq.
  - apply flatten_row_index.
  - apply flatten_column_index.
Qed.

Lemma get_index_lists_row_major_witness :
  exists Rs Ns : list (list nat),
    get_index_lists demo_object = Ok (Rs, Ns) /\
    has_shape 2 2 Rs /\ has_shape 2 2 Ns /\
    flatten Rs = map (fun i => i / 2) (seq 0 (2 * 2)) /\
    flatten Ns = map (fun i => i mod 2) (seq 0 (2 * 2)).
Proof.
  apply (get_index_lists_row_major demo_object 2 2); reflexivity.
Defined.

(** X7. The design matrix is cached: whenever [get_design_matrix] returns,
    it has touched no attribute other than [M], and a following call that
    does not force a rebuild returns the same matrix and leaves the object
    as it is. *)
Theorem get_design_matrix_is_cached
    (self self' : Results) (restart : bool) (M : matrix) :
  get_design_matrix self restart = Ok (M, self') ->
  get_design_matrix self' false = Ok (M, self') /\
  self' !! "M"%string = Some (VArr (ND2 M)) /\
  (forall k : string, k <> "M"%string -> self' !! k = self !! k).
Proof.
  intros Hrun. destruct (get_design_matrix_frame _ _ _ _ Hrun) as [HM Hframe].
  split; [|by split].
  unfold get_design_matrix, get_attr. rewrite HM. reflexivity.
Qed.

Lemma get_design_matrix_is_cached_witness :
  get_design_matrix
    (<["M"%string := VArr (ND2 (design_rows 2 2))]> demo_object) false
  = Ok (design_rows 2 2,
        <["M"%string := VArr (ND2 (design_rows 2 2))]> demo_object) /\
  (<["M"%string := VArr (ND2 (design_rows 2 2))]> demo_object) !! "M"%string
  = Some (VArr (ND2 (design_rows 2 2))) /\
  (forall k : string, k <> "M"%string ->
     (<["M"%string := VArr (ND2 (design_rows 2 2))]> demo_object) !! k
     = demo_object !! k).
Proof.
  apply (get_design_matrix_is_cached demo_object _ true).
  apply (get_design_matrix_build demo_object true 2 2 VNone); reflexivity.
Defined.

(* ===================================================================== *)
(** * The solver: errors and side effects *)
(* ===================================================================== *)

(** X8. The solver needs the attribute [M] to exist: on an object that has
    none (it is set by [combine_orders] only), [lnlike_sigmas] raises
    AttributeError, also when a rebuild is forced with restart = True. *)
Theorem lnlike_sigmas_needs_cache_attribute
    (linalg_solve : matrix -> vector -> result vector)
    (self : Results) (sigmas : vector) (R : nat)
    (return_rvs restart : bool) :
  self !! "M"%string = None ->
  self !! "R"%string = Some (VInt R) ->
  length sigmas = R ->
  lnlike_sigmas linalg_solve self sigmas return_rvs restart
  = Raise AttributeError.
Proof.
  intros HM HR Hlen. unfold lnlike_sigmas.
  rewrite (get_int_lookup _ _ _ HR). cbn [mbind result_bind].
  rewrite Hlen, Nat.eqb_refl. cbn [negb].
  unfold design_with_constraint, get_design_matrix, get_attr.
  by rewrite HM.
Qed.

Lemma lnlike_sigmas_needs_cache_attribute_witness :
  lnlike_sigmas lapack_solve (delete "M"%string demo_object)
                (vFin [1; 1]%R) true true
  = Raise AttributeError.
Proof.
  apply (lnlike_sigmas_needs_cache_attribute lapack_solve _ _ 2);
    reflexivity.
Defined.

(** X9. A noise vector whose length is not [R] is refused by the assertion
    on line 164: AssertionError, before the design matrix is looked at. *)
Theorem lnlike_sigmas_checks_length
    (linalg_solve : matrix -> vector -> result vector)
    (self : Results) (sigmas : vector) (R : nat)
    (return_rvs restart : bool) :
  self !! "R"%string = Some (VInt R) ->
  length sigmas <> R ->
  lnlike_sigmas linalg_solve self sigmas return_rvs restart
  = Raise AssertionError.
Proof.
  intros HR Hlen. unfold lnlike_sigmas.
  rewrite (get_int_lookup _ _ _ HR). cbn [mbind result_bind].
  by destruct (Nat.eqb_spec (length sigmas) R).
Qed.

Lemma lnlike_sigmas_checks_length_witness :
  lnlike_sigmas lapack_solve demo_object (vFin [1; 1; 1]%R) true false
  = Raise AssertionError.
Proof.
  apply (lnlike_sigmas_checks_length lapack_solve _ _ 2);
    [reflexivity|cbn; lia].
Defined.

Lemma design_rows_empty (R N : nat) :
  R * N = 0 -> design_rows (T:=float64) R N = [].
Proof.
  intros Hz. apply length_zero_iff_nil. by rewrite length_design_rows.
Qed.

(** X10. With no datum at all (R = 0 or N = 0) the design matrix that is
    built has no row, and the solver raises IndexError at [M[0,:]]; with
    R = 0 this comes before the division 1 / R. *)
Theorem lnlike_sigmas_no_data
    (linalg_solve : matrix -> vector -> result vector)
    (self : Results) (sigmas : vector) (R N : nat) (m : value)
    (return_rvs restart : bool) :
  self !! "R"%string = Some (VInt R) ->
  self !! "N"%string = Some (VInt N) ->
  self !! "M"%string = Some m ->
  is_none m || restart = true ->
  length sigmas = R ->
  R * N = 0 ->
  lnlike_sigmas linalg_solve self sigmas return_rvs restart
  = Raise IndexError.
Proof.
  intros HR HN HM Hb Hlen Hz. unfold lnlike_sigmas.
  rewrite (get_int_lookup _ _ _ HR). cbn [mbind result_bind].
  rewrite Hlen, Nat.eqb_refl. cbn [negb].
  unfold design_with_constraint.
  rewrite (get_design_matrix_build self restart R N m) by done.
  cbn [mbind result_bind]. by rewrite design_rows_empty.
Qed.

Lemma lnlike_sigmas_no_data_witness :
  lnlike_sigmas lapack_solve (solver_object 0 3 (ND2 []) (ND2 [])) []
                true false
  = Raise IndexError.
Proof.
  apply (lnlike_sigmas_no_data lapack_solve _ _ 0 3 VNone); reflexivity.
Defined.

(** X11. The only attribute the solver ever writes is the cache: whenever
    [lnlike_sigmas] returns, [M] holds a two-dimensional array and every
    other attribute of the object is as it was before the call. *)
Theorem lnlike_sigmas_writes_only_cache
    (linalg_solve : matrix -> vector -> result vector)
    (self self' : Results) (sigmas : vector) (return_rvs restart : bool)
    (v : lnlike_value) :
  lnlike_sigmas linalg_solve self sigmas return_rvs restart = Ok (v, self') ->
  (exists M0, self' !! "M"%string = Some (VArr (ND2 M0))) /\
  (forall k : string, k <> "M"%string -> self' !! k = self !! k).
Proof.
  intros Hrun. unfold lnlike_sigmas in Hrun. bind_inv Hrun.
  all: match goal with
       | E : design_with_constraint _ _ = Ok (_, ?s) |- _ =>
           apply design_with_constraint_frame in E
       end.
  all: by inversion Hrun; subst.
Qed.

Lemma lnlike_sigmas_writes_only_cache_witness :
  (exists M0,
      (<["M"%string := VArr (ND2 (design_rows 2 2))]> demo_object)
        !! "M"%string = Some (VArr (ND2 M0))) /\
  (forall k : string, k <> "M"%string ->
     (<["M"%string := VArr (ND2 (design_rows 2 2))]> demo_object) !! k
     = demo_object !! k).
Proof.
  apply (lnlike_sigmas_writes_only_cache lapack_solve demo_object _
           (vFin [1; 1]%R) true false
           (lnlike_at 2 2 demo_rvs (exact_ivars unit_ivars [1; 1]%R)
                      demo_fit true)).
  apply (demo_lnlike_sigmas demo_object false true 1%R demo_solver_input).
  apply solver_object_cache.
Defined.

(* ===================================================================== *)
(** * The solve under additive changes of the data *)
(* ===================================================================== *)

Section Additive.
Local Open Scope R_scope.

Lemma matvec_plus (X : list (list real)) (u v : list real) :
  length u = length v ->
  matvec X (zip_with Rplus u v) = zip_with Rplus (matvec X u) (matvec X v).
Proof.
  intros Hl. induction X as [|r X IH]; [done|].
  cbn [matvec map zip_with]. rewrite dot_zip_plus by done. f_equal. apply IH.
Qed.

Lemma zip_mult_plus (d p q : list real) :
  zip_with Rmult d (zip_with Rplus p q)
  = zip_with Rplus (zip_with Rmult d p) (zip_with Rmult d q).
Proof.
  revert p q. induction d as [|a d IH]; intros [|b p] [|c q]; try done.
  cbn [zip_with]. rewrite IH. f_equal. ring.
Qed.

Lemma flatten_zip_plus (m n : nat) (A B : list (list real)) :
  has_shape m n A -> has_shape m n B ->
  flatten (zip_with (zip_with Rplus) A B)
  = zip_with Rplus (flatten A) (flatten B).
Proof.
  intros [HA1 HA2] [HB1 HB2]. unfold flatten. revert m B HA1 HB1 HB2.
  induction HA2 as [|ra A Hra _ IH]; intros m [|rb B] HA1 HB1 HB2; try done.
  { cbn in HA1, HB1. lia. }
  apply Forall_cons in HB2 as [Hrb HB2].
  cbn [zip_with concat]. rewrite zip_with_app by lia.
  f_equal. apply (IH (length A)); [done| |done].
  cbn in HA1, HB1. lia.
Qed.

Lemma exact_ys_plus (m n : nat) (A B : list (list real)) :
  has_shape m n A -> has_shape m n B ->
  exact_ys (zip_with (zip_with Rplus) A B)
  = zip_with Rplus (exact_ys A) (exact_ys B).
Proof.
  intros HA HB. unfold exact_ys.
  rewrite (flatten_zip_plus m n) by done.
  rewrite zip_with_app.
  - cbn [zip_with]. do 2 f_equal. ring.
  - by rewrite !(length_flatten_shape m n).
Qed.

Lemma zip_minus_cancel (a b c : list real) :
  length a = length b -> length c = length b ->
  zip_with Rminus (zip_with Rplus a b) (zip_with Rplus c b)
  = zip_with Rminus a c.
Proof.
  revert b c. induction a as [|x a IH]; intros [|y b] [|z c] Ha Hc;
    try discriminate; [done|].
  cbn [zip_with]. rewrite IH by (cbn in *; lia). f_equal. ring.
Qed.

Variables (R N : nat) (A : list (list real)) (d t o : list real).
Hypothesis HA : has_shape R N A.
Hypothesis Hd : length d = (R * N + 1)%nat.
Hypothesis Ht : length t = N.
Hypothesis Ho : length o = R.
Hypothesis Hsum : nsum o = 0.

Lemma normal_rhs_plus :
  normal_rhs R N (zip_with (zip_with Rplus) A (noiseless t o)) d
  = zip_with Rplus (normal_rhs R N A d)
                   (matvec (normal_matrix R N d) (t ++ o)).
Proof.
  rewrite (normal_equations_noiseless R N d t o) by done.
  unfold normal_rhs. rewrite (exact_ys_plus R N); [|done|].
  2:{ rewrite <- Ht, <- Ho. apply has_shape_noiseless. }
  rewrite zip_mult_plus, matvec_plus; [done|].
  rewrite !length_zip_with, !(length_exact_ys R N); [done| |done].
  rewrite <- Ht, <- Ho. apply has_shape_noiseless.
Qed.

(** the solution moves with the data *)
Lemma solves_plus (x : list real) :
  solves (normal_matrix R N d) (normal_rhs R N A d) x ->
  solves (normal_matrix R N d)
         (normal_rhs R N (zip_with (zip_with Rplus) A (noiseless t o)) d)
         (zip_with Rplus x (t ++ o)).
Proof.
  intros (Hl & Heq & Hker). rewrite length_normal_rhs in Hl, Hker.
  split; [|split].
  - rewrite length_normal_rhs, length_zip_with, length_app. lia.
  - rewrite normal_rhs_plus, matvec_plus, Heq; [done|].
    rewrite length_app. lia.
  - by rewrite length_normal_rhs.
Qed.

Lemma exact_resid_plus (x : list real) :
  length x = (N + R)%nat ->
  exact_resid R N (zip_with (zip_with Rplus) A (noiseless t o))
              (zip_with Rplus x (t ++ o))
  = exact_resid R N A x.
Proof.
  intros Hx. unfold exact_resid.
  rewrite (exact_ys_plus R N); [|done|].
  2:{ rewrite <- Ht, <- Ho. apply has_shape_noiseless. }
  rewrite matvec_plus by (rewrite length_app; lia).
  rewrite (matvec_exact_design_noiseless R N t o) by done.
  apply zip_minus_cancel.
  - rewrite !(length_exact_ys R N); [done| |done].
    rewrite <- Ht, <- Ho. apply has_shape_noiseless.
  - rewrite length_matvec, (length_exact_ys R N).
    + apply has_shape_exact_design.
    + rewrite <- Ht, <- Ho. apply has_shape_noiseless.
Qed.
End Additive.

(** X12. The solve follows additive changes of the data. If t[n] + o[r] is
    added to every RV A[r, n], with the o[r] summing to zero, then for the
    same precisions and noise vector the solver returns the same
    log-likelihood, the time RVs plus [t] and the order RVs plus [o]. *)
Theorem solve_follows_additive_shift
    (linalg_solve : matrix -> vector -> result vector)
    (self self2 self' : Results) (R N : nat) (A W : list (list real))
    (s t o : list real) (restart restart2 : bool)
    (lnlike : float64) (rvs_N rvs_R : vector) :
  linalg_solve_spec linalg_solve ->
  solver_input self R N A W ->
  solver_input self2 R N (zip_with (zip_with Rplus) A (noiseless t o)) W ->
  design_cache_ok self restart R N ->
  design_cache_ok self2 restart2 R N ->
  length s = R ->
  Forall (Forall (fun w => (0 <= w)%R)) W ->
  length t = N -> length o = R -> nsum o = 0%R ->
  lnlike_sigmas linalg_solve self (vFin s) true restart
  = Ok (LnlikeRvs lnlike rvs_N rvs_R, self') ->
  exists self2' : Results,
    lnlike_sigmas linalg_solve self2 (vFin s) true restart2
    = Ok (LnlikeRvs lnlike (zip_with fadd rvs_N (vFin t))
                    (zip_with fadd rvs_R (vFin o)),
          self2').
Proof.
  intros Hsolve Hin Hin2 Hc Hc2 Hs Hpos Ht Ho Hsum Hrun.
  destruct (lnlike_sigmas_inv linalg_solve Hsolve self R N A W s true restart
              Hin Hc Hs Hpos _ _ Hrun) as (x & Hx & Hv & _).
  cbv zeta in Hx. unfold lnlike_at in Hv. cbv zeta in Hv.
  injection Hv as -> -> ->.
  pose proof Hin as [_ _ HR1 HN1 _ _ HsA HsW].
  pose proof (length_exact_ivars R N W s HsW Hs) as Hd.
  assert (Hx2 : solves (normal_matrix R N (exact_ivars W s))
                  (normal_rhs R N (zip_with (zip_with Rplus) A (noiseless t o))
                              (exact_ivars W s))
                  (zip_with Rplus x (t ++ o)))
    by (by apply solves_plus).
  rewrite (lnlike_sigmas_solved linalg_solve Hsolve self2 R N _ W s true
             restart2 Hin2 Hc2 Hs Hpos _ Hx2).
  eexists. unfold lnlike_at. cbv zeta.
  destruct Hx as (Hl & _ & _). rewrite length_normal_rhs in Hl.
  rewrite (exact_resid_plus R N A (exact_ivars W s)) by done.
  rewrite !(zip_with_vFin fadd Rplus) by done.
  rewrite zip_with_take, zip_with_drop.
  rewrite (take_app_length' t o N), (drop_app_length' t o N) by done.
  reflexivity.
Qed.

Lemma solve_follows_additive_shift_witness :
  exists self2' : Results,
    lnlike_sigmas lapack_solve
      (solver_object 2 2
         (ND2 (mFin (zip_with (zip_with Rplus) demo_rvs
                       (noiseless [1; 2]%R [3; -3]%R))))
         (ND2 (mFin unit_ivars)))
      (vFin [1; 1]%R) true false
    = Ok (LnlikeRvs (lnlike_float (exact_ivars unit_ivars [1; 1]%R)
                                  (exact_resid 2 2 demo_rvs demo_fit))
                    (zip_with fadd (vFin (take 2 demo_fit)) (vFin [1; 2]%R))
                    (zip_with fadd (vFin (drop 2 demo_fit)) (vFin [3; -3]%R)),
          self2').
Proof.
  apply (solve_follows_additive_shift lapack_solve demo_object _
           (<["M"%string := VArr (ND2 (design_rows 2 2))]> demo_object)
           2 2 demo_rvs unit_ivars [1; 1]%R [1; 2]%R [3; -3]%R false false).
  - exact lapack_solve_spec.
  - exact demo_solver_input.
  - apply solver_object_input; try lia; split; try done; by repeat constructor.
  - apply solver_object_cache.
  - apply solver_object_cache.
  - reflexivity.
  - repeat constructor; lra.
  - reflexivity.
  - reflexivity.
  - cbn. lra.
  - apply (demo_lnlike_sigmas demo_object false true 1%R demo_solver_input).
    apply solver_object_cache.
Defined.

(* ===================================================================== *)
(** * The driver, step by step *)
(* ===================================================================== *)

(** The steps of a call of [combine_orders] that returned: the arrays it
    read, the starting point, the answer of the optimizer, the last solve,
    and the object it leaves. *)
Lemma combine_orders_inv
    (linalg_solve : matrix -> vector -> result vector)
    (minimize : objective -> vector -> Results -> result (vector * Results))
    (self self' : Results) (component_name : string) (R N : nat) :
  minimize_spec minimize ->
  self !! "R"%string = Some (VInt R) ->
  self !! "N"%string = Some (VInt N) ->
  combine_orders linalg_solve minimize self component_name = Ok self' ->
  exists (all_rvs all_ivars : ndarray) (x0 soln : vector) (s2 : Results)
         (lnlike : float64) (rvs_N rvs_R : vector),
    (get_attr self (component_name +:+ "_rvs") ≫= asarray) = Ok all_rvs /\
    (get_attr (<["all_rvs"%string := VArr all_rvs]> self)
              (component_name +:+ "_ivars") ≫= asarray) = Ok all_ivars /\
    initial_guess (staged self all_rvs all_ivars) = Ok x0 /\
    minimize (opposite_lnlike_sigmas linalg_solve) x0
             (<["M"%string := VNone]> (staged self all_rvs all_ivars))
    = Ok (soln, s2) /\
    optimizing R N (<["M"%string := VNone]> (staged self all_rvs all_ivars))
               s2 /\
    lnlike_sigmas linalg_solve s2 soln true false
    = Ok (LnlikeRvs lnlike rvs_N rvs_R,
          <["M"%string := VArr (ND2 (design_rows R N))]> s2) /\
    length soln = R /\ length rvs_N = N /\ length rvs_R = R /\
    self'
    = delete "all_ivars"%string
        (delete "all_rvs"%string
           (delete "M"%string
              (<[component_name +:+ "_order_sigmas" := VArr (ND1 soln)]>
                 (<[component_name +:+ "_order_rvs" := VArr (ND1 rvs_R)]>
                    (<[component_name +:+ "_time_rvs" := VArr (ND1 rvs_N)]>
                       (<["M"%string := VArr (ND2 (design_rows R N))]>
                          s2)))))).
Proof.
  intros [Hmin _] HR HN Hrun. unfold combine_orders in Hrun.
  rewrite !append_assoc in Hrun.
  change ("_" +:+ "rvs") with "_rvs" in Hrun.
  change ("_" +:+ "ivars") with "_ivars" in Hrun.
  change ("_" +:+ "time_rvs") with "_time_rvs" in Hrun.
  change ("_" +:+ "order_rvs") with "_order_rvs" in Hrun.
  change ("_" +:+ "order_sigmas") with "_order_sigmas" in Hrun.
  destruct (get_attr self "component_names") as [names|]; [|discriminate].
  cbn [mbind result_bind] in Hrun.
  destruct (get_attr self _ ≫= asarray) as [all_rvs|] eqn:Ea; [|discriminate].
  cbn [mbind result_bind] in Hrun.
  destruct (get_attr (<["all_rvs"%string := VArr all_rvs]> self) _ ≫= _)
    as [all_ivars|] eqn:Ei; [|discriminate].
  cbn [mbind result_bind] in Hrun.
  fold (staged self all_rvs all_ivars) in Hrun.
  destruct (initial_guess _) as [x0|] eqn:Ex0; [|discriminate].
  cbn [mbind result_bind] in Hrun.
  set (s_c := <["M"%string := VNone]> (staged self all_rvs all_ivars)) in *.
  destruct (minimize _ x0 s_c) as [[soln s2]|] eqn:Emin; [|discriminate].
  cbn [mbind result_bind] in Hrun.
  destruct (Hmin _ _ _ _ _ Emin) as [_ Hcalls].
  assert (Hopt : optimizing R N s_c s_c).
  { unfold s_c, staged. split; [by rewrite !lookup_insert_ne|].
    split; [by rewrite !lookup_insert_ne|]. split; [|done].
    exists VNone. split; [apply lookup_insert_eq|]. by left. }
  apply (objective_calls_optimizing linalg_solve R N _ s_c s_c s2 Hopt)
    in Hcalls.
  pose proof Hcalls as (HR2 & HN2 & Hc2 & Hframe).
  destruct (lnlike_sigmas linalg_solve s2 soln true false)
    as [[v s3]|] eqn:Efinal; [|discriminate].
  cbn [mbind result_bind] in Hrun.
  destruct (lnlike_sigmas_run _ _ R N _ _ _ _ _ HR2 HN2 Hc2 Efinal)
    as (-> & Hsoln & Hv).
  destruct v as [|lnlike rvs_N rvs_R]; [discriminate|].
  destruct Hv as [HrN HrR]. cbn [foldl mbind result_bind] in Hrun.
  revert Ea Ei.
  repeat match goal with
         | H : (?m ≫= _) = Ok _ |- _ =>
             destruct m eqn:?; [cbn [mbind result_bind] in H|discriminate H]
         end.
  repeat match goal with
         | E : del_attr _ _ = Ok ?x |- _ => apply del_attr_inv in E; subst x
         end.
  intros Ea Ei.
  exists all_rvs, all_ivars, x0, soln, s2, lnlike, rvs_N, rvs_R.
  repeat split; try done.
Qed.

Lemma append_inj_l (a b s : string) : a +:+ s = b +:+ s -> a = b.
Proof.
  revert b. induction a as [|c a IH]; intros [|c' b] E; [done| | |].
  - exfalso. apply (f_equal String.length) in E.
    rewrite !length_append in E. cbn in E. lia.
  - exfalso. apply (f_equal String.length) in E.
    rewrite !length_append in E. cbn in E. lia.
  - change (String c (a +:+ s) = String c' (b +:+ s)) in E.
    injection E as -> E. f_equal. by apply IH.
Qed.

(** the attributes a returning [combine_orders] removes, and those it
    leaves as they were *)
Lemma combine_orders_lookups
    (linalg_solve : matrix -> vector -> result vector)
    (minimize : objective -> vector -> Results -> result (vector * Results))
    (self self' : Results) (component_name : string) (R N : nat) :
  minimize_spec minimize ->
  self !! "R"%string = Some (VInt R) ->
  self !! "N"%string = Some (VInt N) ->
  combine_orders linalg_solve minimize self component_name = Ok self' ->
  self' !! "M"%string = None /\
  self' !! "all_rvs"%string = None /\
  self' !! "all_ivars"%string = None /\
  (forall k : string,
      k ∉ ["M"; "all_rvs"; "all_ivars"; component_name +:+ "_time_rvs";
           component_name +:+ "_order_rvs";
           component_name +:+ "_order_sigmas"]%string ->
      self' !! k = self !! k).
Proof.
  intros Hmin HR HN Hrun.
  destruct (combine_orders_inv _ _ _ _ _ R N Hmin HR HN Hrun)
    as (all_rvs & all_ivars & x0 & soln & s2 & lnlike & rvs_N & rvs_R
        & _ & _ & _ & _ & (_ & _ & _ & Hframe) & _ & _ & _ & _ & ->).
  split; [|split; [|split]].
  - rewrite lookup_delete_ne by done. rewrite lookup_delete_ne by done.
    apply lookup_delete_eq.
  - rewrite lookup_delete_ne by done. apply lookup_delete_eq.
  - apply lookup_delete_eq.
  - intros k Hk. rewrite !not_elem_of_cons in Hk.
    destruct Hk as (Hk1 & Hk2 & Hk3 & Hk4 & Hk5 & Hk6 & _).
    rewrite !lookup_delete_ne by done. rewrite !lookup_insert_ne by done.
    rewrite Hframe by done. unfold staged. by rewrite !lookup_insert_ne.
Qed.

Lemma get_attr_missing (self : Results) (k : string) :
  self !! k = None -> get_attr self k = Raise AttributeError.
Proof. intros E. unfold get_attr. by rewrite E. Qed.

(** X13. The check of the component name only prints. Whether or not the
    name is in [component_names], [combine_orders] goes on to the
    [getattr]s and raises AttributeError there: at [<name>_rvs] when that
    attribute is missing, and at [<name>_ivars] when that attribute is
    missing and [<name>_rvs] holds an array, a number, None, a string, or
    a list of numbers or of equally long rows of numbers. *)
Theorem combine_orders_unknown_component
    (linalg_solve : matrix -> vector -> result vector)
    (minimize : objective -> vector -> Results -> result (vector * Results))
    (self : Results) (component_name : string) (names : value) :
  self !! "component_names"%string = Some names ->
  self !! (component_name +:+ "_rvs") = None \/
  ((exists (v : value) (a : ndarray),
       self !! (component_name +:+ "_rvs") = Some v /\ asarray v = Ok a) /\
   self !! (component_name +:+ "_ivars") = None) ->
  combine_orders linalg_solve minimize self component_name
  = Raise AttributeError.
Proof.
  intros Hnames Hmiss. unfold combine_orders.
  rewrite (get_attr_lookup _ _ _ Hnames). cbn [mbind result_bind].
  rewrite !append_assoc.
  change ("_" +:+ "rvs") with "_rvs". change ("_" +:+ "ivars") with "_ivars".
  destruct Hmiss as [Hr|[(v & a & Hr & Ha) Hi]].
  - by rewrite (get_attr_missing _ _ Hr).
  - rewrite (get_attr_lookup _ _ _ Hr). cbn [mbind result_bind].
    rewrite Ha. cbn [mbind result_bind].
    rewrite get_attr_missing; [done|].
    rewrite lookup_insert_ne; [done|].
    intros E. by apply (ivars_key_not_all_rvs component_name).
Qed.

Lemma combine_orders_unknown_component_witness :
  combine_orders lapack_solve minimize_at_start demo_results "sky"
  = Raise AttributeError /\
  combine_orders lapack_solve minimize_at_start
    (<["sky_rvs"%string := VNone]> demo_results) "sky"
  = Raise AttributeError.
Proof.
  split.
  - apply (combine_orders_unknown_component lapack_solve minimize_at_start
             demo_results "sky" (VList [VStr "star"])).
    + reflexivity.
    + left. reflexivity.
  - apply (combine_orders_unknown_component lapack_solve minimize_at_start
             (<["sky_rvs"%string := VNone]> demo_results) "sky"
             (VList [VStr "star"])).
    + reflexivity.
    + right. split; [|reflexivity].
      exists VNone, (NDobj None). split; reflexivity.
Defined.

Lemma component_arrays_kept (nm : string) :
  nm <> "all"%string ->
  (nm +:+ "_rvs")
    ∉ ["M"; "all_rvs"; "all_ivars"; nm +:+ "_time_rvs";
       nm +:+ "_order_rvs"; nm +:+ "_order_sigmas"]%string /\
  (nm +:+ "_ivars")
    ∉ ["M"; "all_rvs"; "all_ivars"; nm +:+ "_time_rvs";
       nm +:+ "_order_rvs"; nm +:+ "_order_sigmas"]%string.
Proof.
  intros Hall.
  assert (Hs : forall s t : string,
             bool_decide (s ∈ suffixes t) = false -> nm +:+ s <> t).
  { intros s t Hd E. apply append_suffix in E.
    by rewrite bool_decide_eq_true_2 in Hd. }
  assert (Hi : forall s t : string, s <> t -> nm +:+ s <> nm +:+ t).
  { intros s t Hne E. by apply append_inj_r in E. }
  assert (Hl : forall s : string, nm +:+ s <> "all" +:+ s).
  { intros s E. by apply append_inj_l in E. }
  split; rewrite !not_elem_of_cons; repeat split;
    try (apply Hs; reflexivity); try (apply Hi; discriminate);
    try apply (Hl "_rvs"%string); try apply (Hl "_ivars"%string);
    apply not_elem_of_nil.
Qed.

(** X14. [combine_orders] leaves the per-order arrays [<name>_rvs] and
    [<name>_ivars] of the component as they were, unless the component is
    named all: then these attributes are the transient [all_rvs] and
    [all_ivars], and they are deleted at the end of the call. *)
Theorem combine_orders_keeps_component_arrays
    (linalg_solve : matrix -> vector -> result vector)
    (minimize : objective -> vector -> Results -> result (vector * Results))
    (self self' : Results) (component_name : string) (R N : nat) :
  minimize_spec minimize ->
  self !! "R"%string = Some (VInt R) ->
  self !! "N"%string = Some (VInt N) ->
  combine_orders linalg_solve minimize self component_name = Ok self' ->
  (component_name <> "all"%string ->
   self' !! (component_name +:+ "_rvs") = self !! (component_name +:+ "_rvs")
   /\ self' !! (component_name +:+ "_ivars")
      = self !! (component_name +:+ "_ivars")) /\
  (component_name = "all"%string ->
   self' !! (component_name +:+ "_rvs") = None /\
   self' !! (component_name +:+ "_ivars") = None).
Proof.
  intros Hmin HR HN Hrun.
  destruct (combine_orders_lookups _ _ _ _ _ R N Hmin HR HN Hrun)
    as (_ & Hrvs & Hivars & Hframe).
  split.
  - intros Hname. destruct (component_arrays_kept component_name Hname).
    split; by apply Hframe.
  - intros ->. by split.
Qed.

Lemma combine_orders_keeps_component_arrays_witness :
  exists self' : Results,
    combine_orders lapack_solve minimize_at_start
      (demo_results_with (ND2 (mFin unit_ivars))) "star" = Ok self' /\
    ("star"%string <> "all"%string ->
     self' !! ("star" +:+ "_rvs")
     = demo_results_with (ND2 (mFin unit_ivars)) !! ("star" +:+ "_rvs") /\
     self' !! ("star" +:+ "_ivars")
     = demo_results_with (ND2 (mFin unit_ivars)) !! ("star" +:+ "_ivars")) /\
    ("star"%string = "all"%string ->
     self' !! ("star" +:+ "_rvs") = None /\
     self' !! ("star" +:+ "_ivars") = None).
Proof.
  destruct (demo_combine_orders (ND2 (mFin unit_ivars))
              (ivar_exact 1 (ln demo_var)))
    as (self' & Hrun & _).
  - apply ivar_exact_pos. lra.
  - exact demo_unit_ivars_start.
  - exists self'. split; [exact Hrun|].
    exact (combine_orders_keeps_component_arrays lapack_solve
             minimize_at_start (demo_results_with (ND2 (mFin unit_ivars)))
             self' "star" 2 2 minimize_at_start_spec eq_refl eq_refl Hrun).
Defined.

(** X15. [combine_orders] deletes the cache attribute when it is done, so
    the solver cannot be called on the object it leaves: for a noise
    vector of the right length [lnlike_sigmas] raises AttributeError,
    whatever [restart] is. *)
Theorem solver_unusable_after_combine_orders
    (linalg_solve : matrix -> vector -> result vector)
    (minimize : objective -> vector -> Results -> result (vector * Results))
    (self self' : Results) (component_name : string) (R N : nat)
    (sigmas : vector) (return_rvs restart : bool) :
  minimize_spec minimize ->
  self !! "R"%string = Some (VInt R) ->
  self !! "N"%string = Some (VInt N) ->
  combine_orders linalg_solve minimize self component_name = Ok self' ->
  length sigmas = R ->
  lnlike_sigmas linalg_solve self' sigmas return_rvs restart
  = Raise AttributeError.
Proof.
  intros Hmin HR HN Hrun Hlen.
  destruct (combine_orders_lookups _ _ _ _ _ R N Hmin HR HN Hrun)
    as (HM & _ & _ & Hframe).
  assert (HR' : self' !! "R"%string = Some (VInt R)).
  { rewrite Hframe; [done|]. rewrite !not_elem_of_cons.
    repeat split; try discriminate; try apply not_elem_of_nil.
    all: intros E; apply (f_equal String.length) in E;
      rewrite length_append in E; cbn in E; lia. }
  unfold lnlike_sigmas.
  rewrite (get_int_lookup _ _ _ HR'). cbn [mbind result_bind].
  rewrite Hlen, Nat.eqb_refl. cbn [negb].
  unfold design_with_constraint, get_design_matrix, get_attr.
  by rewrite HM.
Qed.

Lemma solver_unusable_after_combine_orders_witness :
  exists self' : Results,
    combine_orders lapack_solve minimize_at_start
      (demo_results_with (ND2 (mFin unit_ivars))) "star" = Ok self' /\
    lnlike_sigmas lapack_solve self' (vFin [1; 1]%R) true true
    = Raise AttributeError.
Proof.
  destruct (demo_combine_orders (ND2 (mFin unit_ivars))
              (ivar_exact 1 (ln demo_var)))
    as (self' & Hrun & _).
  - apply ivar_exact_pos. lra.
  - exact demo_unit_ivars_start.
  - exists self'. split; [exact Hrun|].
    exact (solver_unusable_after_combine_orders lapack_solve
             minimize_at_start (demo_results_with (ND2 (mFin unit_ivars)))
             self' "star" 2 2 (vFin [1; 1]%R) true true
             minimize_at_start_spec eq_refl eq_refl Hrun eq_refl).
Defined.

(** X16. Whatever the optimizer does, the order RVs that [combine_orders]
    stores have mean zero: for finite RVs and finite non-negative
    precisions of shape (R, N), whenever the call returns and the noise
    vector it stores is finite, [<name>_order_rvs] has R entries whose mean
    is exactly 0. *)
Theorem combine_orders_order_rvs_mean_zero
    (linalg_solve : matrix -> vector -> result vector)
    (minimize : objective -> vector -> Results -> result (vector * Results))
    (self self' : Results) (component_name : string) (R N : nat)
    (A W : list (list real)) (s : list real) :
  linalg_solve_spec linalg_solve ->
  minimize_spec minimize ->
  self !! "R"%string = Some (VInt R) ->
  self !! "N"%string = Some (VInt N) ->
  1 <= R -> 1 <= N ->
  self !! (component_name +:+ "_rvs") = Some (VArr (ND2 (mFin A))) ->
  self !! (component_name +:+ "_ivars") = Some (VArr (ND2 (mFin W))) ->
  has_shape R N A -> has_shape R N W ->
  Forall (Forall (fun w => (0 <= w)%R)) W ->
  combine_orders linalg_solve minimize self component_name = Ok self' ->
  self' !! (component_name +:+ "_order_sigmas") = Some (VArr (ND1 (vFin s))) ->
  exists rvs_R : vector,
    self' !! (component_name +:+ "_order_rvs") = Some (VArr (ND1 rvs_R)) /\
    length rvs_R = R /\
    mean rvs_R = Fin 0.
Proof.
  intros Hsolve Hmin HR HN HR1 HN1 HA HW HsA HsW Hpos Hrun Hsig.
  destruct (combine_orders_inv _ _ _ _ _ R N Hmin HR HN Hrun)
    as (all_rvs & all_ivars & x0 & soln & s2 & lnlike & rvs_N & rvs_R
        & Ea & Ei & _ & _ & (HR2 & HN2 & Hc2 & Hframe) & Efinal
        & Hsoln & _ & HrR & ->).
  rewrite (get_attr_lookup _ _ _ HA) in Ea. injection Ea as <-.
  rewrite (get_attr_lookup _ _ (VArr (ND2 (mFin W)))) in Ei.
  2:{ rewrite lookup_insert_ne; [done|].
      intros E. by apply (ivars_key_not_all_rvs component_name). }
  injection Ei as <-.
  destruct (order_rvs_key_fresh component_name) as (Ho1 & Ho2 & Ho3).
  destruct (order_sigmas_key_fresh component_name) as (Hs1 & Hs2 & Hs3).
  destruct (result_keys_distinct component_name) as (Hd1 & Hd2 & Hd3).
  rewrite !lookup_delete_ne in Hsig by done.
  rewrite lookup_insert_eq in Hsig. injection Hsig as ->.
  exists rvs_R. split; [|split; [done|]].
  { rewrite !lookup_delete_ne by done.
    rewrite lookup_insert_ne by done. apply lookup_insert_eq. }
  assert (Hin : solver_input s2 R N A W).
  { split; try done.
    - rewrite Hframe by done. unfold staged.
      rewrite lookup_insert_ne by done. rewrite lookup_insert_ne by done.
      apply lookup_insert_eq.
    - rewrite Hframe by done. unfold staged.
      rewrite lookup_insert_ne by done. apply lookup_insert_eq. }
  rewrite length_vFin in Hsoln.
  destruct (lnlike_sigmas_inv linalg_solve Hsolve s2 R N A W s true false
              Hin Hc2 Hsoln Hpos _ _ Efinal) as (x & Hx & Hv & _).
  cbv zeta in Hx. unfold lnlike_at in Hv. cbv zeta in Hv.
  injection Hv as _ _ ->.
  pose proof Hx as (Hl & Heq & _). rewrite length_normal_rhs in Hl.
  destruct (length_exact_ivars_flat R N W s HsW Hsoln) as (dflat & Hdf & Hd).
  rewrite Hdf in Heq.
  apply mean_vFin_zero.
  - rewrite length_drop. lia.
  - by apply (normal_solution_sum_zero R N A dflat).
Qed.

Lemma combine_orders_order_rvs_mean_zero_witness :
  exists (self' : Results) (rvs_R : vector),
    combine_orders lapack_solve minimize_at_start
      (demo_results_with (ND2 (mFin unit_ivars))) "star" = Ok self' /\
    self' !! ("star" +:+ "_order_rvs") = Some (VArr (ND1 rvs_R)) /\
    length rvs_R = 2 /\
    mean rvs_R = Fin 0.
Proof.
  destruct (demo_combine_orders (ND2 (mFin unit_ivars))
              (ivar_exact 1 (ln demo_var)))
    as (self' & Hrun & _ & _ & Hsig).
  - apply ivar_exact_pos. lra.
  - exact demo_unit_ivars_start.
  - destruct (combine_orders_order_rvs_mean_zero lapack_solve
                minimize_at_start (demo_results_with (ND2 (mFin unit_ivars)))
                self' "star" 2 2 demo_rvs unit_ivars
                [ln demo_var; ln demo_var]
                lapack_solve_spec minimize_at_start_spec eq_refl eq_refl
                (le_S 1 1 (le_n 1)) (le_S 1 1 (le_n 1)) eq_refl eq_refl)
      as (rvs_R & Hlook & Hlen & Hmean); try done.
    + split; [done|]. by repeat constructor.
    + split; [done|]. by repeat constructor.
    + repeat constructor; lra.
    + by exists self', rvs_R.
Defined.

(* ===================================================================== *)
(** * The driver on exactly additive data *)
(* ===================================================================== *)

(** ** Medians of finite lanes *)

Section Medians.
Local Open Scope R_scope.

Lemma existsb_is_nan_vFin (l : list real) : existsb is_nan (vFin l) = false.
Proof. induction l as [|a l IH]; [done|]. exact IH. Qed.

Lemma lookup_total_vFin (l : list real) (i : nat) (a : real) :
  l !! i = Some a -> vFin l !!! i = Fin a.
Proof.
  intros Hi. apply list_lookup_total_correct. unfold vFin.
  change (map Fin l) with (Fin <$> l). by rewrite list_lookup_fmap, Hi.
Qed.

Lemma lookup_shift (l : list real) (i : nat) (a c : real) :
  l !! i = Some a -> map (fun x => x + c) l !! i = Some (a + c).
Proof.
  intros Hi. change (map (fun x => x + c) l) with ((fun x => x + c) <$> l).
  by rewrite list_lookup_fmap, Hi.
Qed.

(** sorting commutes with adding a constant *)
Lemma insert_sorted_vFin (a : real) (l : list real) :
  exists l',
    insert_sorted (Fin a) (vFin l) = vFin l' /\
    length l' = S (length l) /\
    forall c, insert_sorted (Fin (a + c)) (vFin (map (fun x => x + c) l))
              = vFin (map (fun x => x + c) l').
Proof.
  induction l as [|b l (l' & E & Hl & Hc)].
  - by exists [a].
  - cbn [vFin map insert_sorted fle]. destruct (Rle_dec a b) as [Hab|Hab].
    + exists (a :: b :: l). split; [done|]. split; [done|]. intros c.
      cbn [vFin map insert_sorted fle].
      destruct (Rle_dec (a + c) (b + c)); [done|lra].
    + exists (b :: l'). split; [|split].
      * cbn [vFin map]. f_equal. exact E.
      * cbn. by rewrite Hl.
      * intros c. cbn [vFin map insert_sorted fle].
        destruct (Rle_dec (a + c) (b + c)); [lra|].
        f_equal. apply Hc.
Qed.

Lemma sort_floats_vFin (l : list real) :
  exists l',
    sort_floats (vFin l) = vFin l' /\
    length l' = length l /\
    forall c, sort_floats (vFin (map (fun x => x + c) l))
              = vFin (map (fun x => x + c) l').
Proof.
  induction l as [|a l (l' & E & Hl & Hc)].
  - by exists [].
  - destruct (insert_sorted_vFin a l') as (l'' & E' & Hl' & Hc').
    exists l''. split; [|split].
    + cbn [vFin map sort_floats foldr]. fold (vFin l). fold (sort_floats (vFin l)).
      by rewrite E.
    + cbn. lia.
    + intros c. cbn [vFin map sort_floats foldr].
      fold (vFin (map (fun x => x + c) l)).
      fold (sort_floats (vFin (map (fun x => x + c) l))).
      by rewrite Hc.
Qed.

Lemma mean_pair (a b : real) : mean [Fin a; Fin b] = Fin ((a + b) / 2).
Proof.
  unfold mean. cbn. destruct (Req_dec_T (1 + 1) 0) as [E|_]; [lra|].
  f_equal. field.
Qed.

(** the median of a finite lane is finite and moves with the lane *)
Lemma median_shift (l : list real) :
  l <> [] ->
  exists m, median (vFin l) = Fin m /\
            forall c, median (vFin (map (fun x => x + c) l)) = Fin (m + c).
Proof.
  intros Hne. destruct (sort_floats_vFin l) as (l' & E & Hl & Hc).
  assert (Hn : length l <> 0%nat) by (by destruct l).
  unfold median. rewrite !existsb_is_nan_vFin, E.
  rewrite length_vFin. destruct (Nat.eqb_spec (length l) 0) as [|_]; [done|].
  destruct (Nat.even (length l)) eqn:Ev.
  - assert (H2 : (2 <= length l)%nat).
    { destruct (length l) as [|[|k]]; [done|discriminate|lia]. }
    destruct (lookup_lt_is_Some_2 l' (length l / 2 - 1)) as [a Ha].
    { rewrite Hl. assert (length l / 2 < length l)%nat
        by (apply Nat.div_lt; lia). lia. }
    destruct (lookup_lt_is_Some_2 l' (length l / 2)) as [b Hb].
    { rewrite Hl. apply Nat.div_lt; lia. }
    exists ((a + b) / 2).
    rewrite (lookup_total_vFin _ _ _ Ha), (lookup_total_vFin _ _ _ Hb).
    split; [apply mean_pair|]. intros c.
    rewrite existsb_is_nan_vFin, Hc, length_vFin, length_map.
    destruct (Nat.eqb_spec (length l) 0) as [|_]; [done|]. rewrite Ev.
    rewrite (lookup_total_vFin _ _ _ (lookup_shift _ _ _ c Ha)).
    rewrite (lookup_total_vFin _ _ _ (lookup_shift _ _ _ c Hb)).
    rewrite mean_pair. f_equal. field.
  - destruct (lookup_lt_is_Some_2 l' (length l / 2)) as [b Hb].
    { rewrite Hl. apply Nat.div_lt; lia. }
    exists b. rewrite (lookup_total_vFin _ _ _ Hb). split; [done|].
    intros c.
    rewrite existsb_is_nan_vFin, Hc, length_vFin, length_map.
    destruct (Nat.eqb_spec (length l) 0) as [|_]; [done|]. rewrite Ev.
    by rewrite (lookup_total_vFin _ _ _ (lookup_shift _ _ _ c Hb)).
Qed.

Lemma sort_floats_replicate (n : nat) (a : real) :
  sort_floats (replicate n (Fin a)) = replicate n (Fin a).
Proof.
  induction n as [|n IH]; [done|].
  cbn [replicate sort_floats foldr]. fold (sort_floats (replicate n (Fin a))).
  rewrite IH. destruct n as [|n]; [done|].
  cbn [replicate insert_sorted fle].
  destruct (Rle_dec a a); [done|lra].
Qed.

(** the median of equal values *)
Lemma median_replicate (n : nat) (a : real) :
  (1 <= n)%nat -> median (replicate n (Fin a)) = Fin a.
Proof.
  intros Hn. unfold median.
  assert (existsb is_nan (replicate n (Fin a)) = false) as ->.
  { clear. induction n as [|n IH]; [done|]. exact IH. }
  rewrite sort_floats_replicate, length_replicate.
  destruct (Nat.eqb_spec n 0) as [|_]; [lia|].
  assert (Hlook : forall i, (i < n)%nat -> replicate n (Fin a) !!! i = Fin a).
  { intros i Hi. apply list_lookup_total_correct.
    by apply lookup_replicate_2. }
  destruct (Nat.even n) eqn:Ev.
  - assert (H2 : (2 <= n)%nat).
    { destruct n as [|[|k]]; [lia|discriminate|lia]. }
    assert (n / 2 < n)%nat by (apply Nat.div_lt; lia).
    rewrite !Hlook by lia. rewrite mean_pair. f_equal. field.
  - apply Hlook. apply Nat.div_lt; lia.
Qed.
End Medians.

(** ** The starting point *)

Section AdditiveStart.
Local Open Scope R_scope.

Lemma transpose_n_replicate {A} (n k : nat) (row : list A) :
  length row = n ->
  transpose_n n (replicate k row) = map (fun a => replicate k a) row.
Proof.
  intros Hrow. unfold transpose_n. induction k as [|k IH].
  - cbn. subst n. clear. induction row as [|a row IH]; [done|].
    cbn. by rewrite IH.
  - cbn [replicate foldr]. rewrite IH. clear.
    induction row as [|a row IH]; [done|]. cbn. by rewrite IH.
Qed.

Lemma zip_with_map_same {A B C D} (f : B -> C -> D) (g : A -> B) (h : A -> C)
    (l : list A) :
  zip_with f (map g l) (map h l) = map (fun a => f (g a) (h a)) l.
Proof. induction l as [|a l IH]; [done|]. cbn. by rewrite IH. Qed.

Lemma zip_with_map_replicate {A B C D} (f : B -> C -> D) (g : A -> B) (c : C)
    (l : list A) (n : nat) :
  length l = n ->
  zip_with f (map g l) (replicate n c) = map (fun a => f (g a) c) l.
Proof.
  intros <-. induction l as [|a l IH]; [done|]. cbn. by rewrite IH.
Qed.

Lemma map_const_length {A B} (c : B) (l : list A) :
  map (fun _ => c) l = replicate (length l) c.
Proof. induction l as [|a l IH]; [done|]. cbn. by rewrite IH. Qed.

Lemma var_zeros (n : nat) :
  (1 <= n)%nat -> var (replicate n (Fin 0)) = Fin 0.
Proof.
  intros Hn.
  assert (Hmean : mean (replicate n (Fin 0)) = Fin 0).
  { unfold mean. rewrite length_replicate.
    change (replicate n (Fin 0)) with (replicate n (Fin 0%R)).
    replace (replicate n (Fin 0)) with (vFin (replicate n 0)).
    2:{ unfold vFin. clear. induction n as [|n IH]; [done|]. cbn.
        by rewrite IH. }
    rewrite nsum_vFin, nsum_replicate. cbn.
    destruct (Req_dec_T (INR n) 0) as [E|_].
    - apply not_0_INR in E; [done|lia].
    - f_equal. field. apply not_0_INR. lia. }
  unfold var. rewrite Hmean.
  rewrite (map_const_replicate _ (Fin 0)).
  - by rewrite length_replicate.
  - apply Forall_replicate. cbn. f_equal. ring.
Qed.

Variables (R N : nat) (t o : list real).
Hypothesis Ht : length t = N.
Hypothesis Ho : length o = R.
Hypothesis HR1 : (1 <= R)%nat.
Hypothesis HN1 : (1 <= N)%nat.

(** On exactly additive data the medians reproduce the data, the
    residuals of the initial guess are all zero, and the starting point of
    the optimizer is log 0 in every order. *)
Lemma initial_guess_additive (self : Results) :
  self !! "all_rvs"%string = Some (VArr (ND2 (mFin (noiseless t o)))) ->
  self !! "R"%string = Some (VInt R) ->
  self !! "N"%string = Some (VInt N) ->
  initial_guess self = Ok (replicate R NInf).
Proof.
  intros HA HR HN.
  rewrite (initial_guess_eval self R N (mFin (noiseless t o))); try done.
  2:{ apply has_shape_mFin. rewrite <- Ht, <- Ho. apply has_shape_noiseless. }
  f_equal.
  destruct (median_shift t) as (m & _ & Hm).
  { intros ->. cbn in Ht. lia. }
  set (u := map (fun t_n => t_n - m) t).
  assert (Hu : length (vFin u) = N).
  { unfold u. by rewrite length_vFin, length_map. }
  (* the medians of the orders *)
  assert (Hmed : map median (mFin (noiseless t o))
                 = map (fun o_r => Fin (m + o_r)) o).
  { unfold mFin, noiseless. rewrite !map_map. apply map_ext. intros o_r.
    apply (Hm o_r). }
  rewrite Hmed.
  (* the data less the medians of the orders *)
  assert (Hd : zip_with (zip_with fsub) (mFin (noiseless t o))
                 (tile_columns (map (fun o_r => Fin (m + o_r)) o) N)
               = replicate R (vFin u)).
  { unfold tile_columns, mFin, noiseless. rewrite !map_map.
    rewrite zip_with_map_same. rewrite <- Ho, <- map_const_length.
    apply map_ext. intros o_r.
    rewrite <- Ht.
    rewrite <- (length_map (fun t_n => t_n + o_r) t) at 1.
    rewrite <- (length_map Fin) at 1.
    rewrite zip_with_replicate_r_eq by done.
    unfold u, vFin. change (flip fsub (Fin (m + o_r)) <$> ?l)
      with (map (flip fsub (Fin (m + o_r))) l).
    rewrite !map_map. apply map_ext. intros t_n. cbn. f_equal. ring. }
  rewrite Hd.
  rewrite (transpose_n_replicate N R (vFin u)) by done.
  assert (Htime : map median (map (fun a => replicate R a) (vFin u)) = vFin u).
  { unfold vFin. rewrite !map_map. apply map_ext. intros a.
    by apply median_replicate. }
  rewrite Htime. unfold tile_rows.
  (* the predictions and the residuals *)
  assert (Hpred : zip_with (zip_with fadd)
                    (tile_columns (map (fun o_r => Fin (m + o_r)) o) N)
                    (replicate R (vFin u))
                  = map (fun o_r => vFin (map (fun t_n => m + o_r + (t_n - m)) t))
                        o).
  { unfold tile_columns. rewrite map_map.
    rewrite (zip_with_map_replicate _ _ _ _ R) by done.
    apply map_ext. intros o_r. rewrite <- Hu at 1.
    rewrite zip_with_replicate_l by done.
    unfold u, vFin. change (fadd (Fin (m + o_r)) <$> ?l)
      with (map (fadd (Fin (m + o_r))) l).
    rewrite !map_map. reflexivity. }
  rewrite Hpred.
  assert (Hres : zip_with (zip_with fsub) (mFin (noiseless t o))
                   (map (fun o_r => vFin (map (fun t_n => m + o_r + (t_n - m)) t))
                        o)
                 = replicate R (replicate N (Fin 0))).
  { unfold mFin, noiseless. rewrite !map_map. rewrite zip_with_map_same.
    rewrite <- Ho, <- map_const_length. apply map_ext. intros o_r.
    unfold vFin. rewrite !map_map, zip_with_map_same.
    rewrite <- Ht, <- map_const_length. apply map_ext. intros t_n.
    cbn. f_equal. ring. }
  rewrite Hres.
  rewrite (map_const_replicate _ NInf).
  - by rewrite length_replicate.
  - apply Forall_replicate. rewrite var_zeros by done. cbn.
    destruct (Rlt_dec 0 0) as [H|_]; [lra|].
    by destruct (Req_dec_T 0 0).
Qed.
End AdditiveStart.

(** ** Precisions and normal equations at the starting point *)

Section AdditiveSolve.
Local Open Scope R_scope.

Lemma ivar_at_infinite_sigma (w : real) :
  fdiv (Fin 1) (fadd (fdiv (Fin 1) (Fin w)) (fsquare NInf)) = Fin 0.
Proof.
  change (fsquare NInf) with PInf. unfold fdiv at 2.
  destruct (Req_dec_T w 0) as [_|_]; [|done].
  unfold by_sign. destruct (Rlt_dec 0 1) as [_|H]; [done|lra].
Qed.

Lemma concat_replicate_replicate {A} (m n : nat) (a : A) :
  concat (replicate m (replicate n a)) = replicate (m * n) a.
Proof.
  induction m as [|m IH]; [done|]. cbn [replicate concat].
  rewrite IH, <- replicate_add. reflexivity.
Qed.

(** a noise parameter of minus infinity gives every datum precision 0 *)
Lemma effective_ivars_infinite_sigma (self : Results) (R N : nat)
    (W : list (list real)) :
  self !! "R"%string = Some (VInt R) ->
  self !! "N"%string = Some (VInt N) ->
  self !! "all_ivars"%string = Some (VArr (ND2 (mFin W))) ->
  has_shape R N W -> (1 <= R)%nat ->
  effective_ivars self (replicate R NInf)
  = Ok (vFin (replicate (R * N) 0 ++ [1])).
Proof.
  intros HR HN HW HsW HR1. unfold effective_ivars, get_index_lists.
  rewrite (get_int_lookup _ _ _ HR), (get_int_lookup _ _ _ HN),
    (get_array_lookup _ _ _ HW).
  cbn [mbind result_bind nd_atleast_2d].
  rewrite (gather_grid _ R N) by apply length_replicate.
  cbn [mbind result_bind].
  assert (Hsig : map (map fsquare)
                   (map (fun r => replicate N (replicate R NInf !!! r))
                        (seq 0 R))
                 = replicate R (replicate N (fsquare NInf))).
  { rewrite map_map.
    rewrite (map_const_replicate _ (replicate N (fsquare NInf)));
      [by rewrite length_seq|].
    apply Forall_forall. intros r Hr. apply elem_of_seq in Hr.
    rewrite (list_lookup_total_correct _ _ NInf)
      by (apply lookup_replicate_2; lia).
    clear. induction N as [|n IH]; [done|]. cbn [replicate map]. by rewrite IH. }
  rewrite Hsig.
  rewrite (bcast2_same _ R N); [| | |lia].
  2:{ destruct HsW as [H1 H2]. unfold mFin.
      split; [by rewrite !length_map|].
      apply List.Forall_map, List.Forall_map.
      eapply Forall_impl; [exact H2|]. intros row Hrow. cbn.
      by rewrite !length_map. }
  2:{ split; [apply length_replicate|].
      apply Forall_replicate, length_replicate. }
  cbn [mbind result_bind]. f_equal.
  rewrite vFin_app. f_equal. unfold vFin.
  change (map Fin (replicate (R * N) 0)) with (Fin <$> replicate (R * N) 0).
  rewrite fmap_replicate, <- concat_replicate_replicate.
  unfold flatten. f_equal.
  destruct HsW as [H1 H2]. subst R. clear -H2.
  induction H2 as [|row W Hrow _ IH]; [done|].
  cbn [mFin map length replicate zip_with]. fold (mFin W). rewrite IH. f_equal.
  subst N. clear. induction row as [|w row IH]; [done|].
  cbn [map length replicate zip_with]. rewrite IH. f_equal.
  apply ivar_at_infinite_sigma.
Qed.

(** with precision 0 for every datum only the constraint is left, and the
    normal equations are singular *)
Lemma normal_matrix_singular (R N : nat) (b x : list real) :
  (1 <= N)%nat -> length b = (N + R)%nat ->
  ~ solves (normal_matrix R N (replicate (R * N) 0 ++ [1])) b x.
Proof.
  intros HN1 Hb (Hl & _ & Hker).
  destruct N as [|n]; [lia|].
  set (vt := 1 :: replicate n 0). set (vo := replicate R 0).
  assert (Hvt : length vt = S n) by (cbn; by rewrite length_replicate).
  assert (Hvo : length vo = R) by apply length_replicate.
  assert (Hv : length (vt ++ vo) = (S n + R)%nat)
    by (rewrite length_app; lia).
  specialize (Hker (vt ++ vo)). rewrite Hb in Hker. specialize (Hker Hv).
  assert (Hflat : length (flatten (noiseless vt vo)) = (R * S n)%nat).
  { by rewrite length_flatten_noiseless, Hvt, Hvo. }
  assert (Hz : matvec (normal_matrix R (S n) (replicate (R * S n) 0 ++ [1]))
                      (vt ++ vo)
               = replicate (S n + R) 0).
  { rewrite (matvec_normal_matrix R (S n))
      by (rewrite length_app, length_replicate; cbn; lia).
    rewrite (matvec_exact_design R (S n)) by done.
    rewrite zip_with_app by (by rewrite length_replicate, Hflat).
    assert (Hzero : zip_with Rmult (replicate (R * S n) 0)
                      (flatten (noiseless vt vo))
                    ++ zip_with Rmult [1] [1 / INR R * nsum vo]
                    = replicate (R * S n + 1) 0).
    { rewrite replicate_add. f_equal.
      - rewrite zip_with_replicate_l by (by rewrite Hflat).
        change (Rmult 0 <$> ?l) with (map (Rmult 0) l).
        rewrite (map_const_replicate _ 0).
        + by rewrite Hflat.
        + apply Forall_forall. intros a _. ring.
      - cbn [zip_with replicate]. f_equal. unfold vo.
        rewrite nsum_replicate. ring. }
    rewrite Hzero.
    rewrite transpose_exact_design.
    pose proof (has_shape_exact_design R (S n)) as [HM1 HM2].
    unfold matvec. rewrite (map_const_replicate _ 0).
    - by rewrite (length_transpose_n (S n + R)).
    - apply Forall_forall. intros c _. apply dot_replicate_0_r. }
  specialize (Hker Hz). unfold vt in Hker. cbn in Hker.
  injection Hker as Hker _. lra.
Qed.
End AdditiveSolve.

(** the model solver on a finite singular system *)
Lemma lapack_solve_singular (n : nat) (A : list (list real)) (b : list real) :
  has_shape n n A -> length b = n ->
  (forall x, ~ solves A b x) ->
  lapack_solve (mFin A) (vFin b) = Raise LinAlgError.
Proof.
  intros HA Hb Hsing. unfold lapack_solve.
  rewrite (same_lengths_shape n n) by (by apply has_shape_mFin).
  rewrite (ncols_square n) by (by apply has_shape_mFin).
  rewrite Nat.eqb_refl. cbn [andb negb].
  rewrite nrows_mFin, length_vFin. destruct HA as [HA1 HA2].
  unfold nrows. rewrite HA1, Hb, Nat.eqb_refl. cbn [negb].
  rewrite mapM_to_real_mFin, mapM_to_real_vFin.
  destruct (excluded_middle_informative _) as [[x Hx]|_]; [|reflexivity].
  exfalso. by apply (Hsing x).
Qed.

(** X17. On exactly additive data, A[r, n] = t[n] + o[r], the initial guess
    fits the data without residual: the starting point of the optimizer is
    log 0 = -inf in every order, every datum gets precision 0 on line 170,
    the normal equations are singular, and [combine_orders] ends with the
    exception that the linear solver raises on that system. (Exact
    arithmetic; any solver that returns only solutions of non-singular
    systems, any optimizer that evaluates its starting point first.) *)
Theorem combine_orders_fails_on_additive_data
    (linalg_solve : matrix -> vector -> result vector)
    (minimize : objective -> vector -> Results -> result (vector * Results))
    (self : Results) (component_name : string) (names : value) (R N : nat)
    (t o : list real) (W : list (list real)) :
  linalg_solve_spec linalg_solve ->
  minimize_spec minimize ->
  self !! "component_names"%string = Some names ->
  self !! "R"%string = Some (VInt R) ->
  self !! "N"%string = Some (VInt N) ->
  1 <= R -> 1 <= N -> length t = N -> length o = R ->
  self !! (component_name +:+ "_rvs")
  = Some (VArr (ND2 (mFin (noiseless t o)))) ->
  self !! (component_name +:+ "_ivars") = Some (VArr (ND2 (mFin W))) ->
  has_shape R N W ->
  let s := staged self (ND2 (mFin (noiseless t o))) (ND2 (mFin W)) in
  let d := (replicate (R * N) 0 ++ [1])%R in
  initial_guess s = Ok (replicate R NInf) /\
  effective_ivars s (replicate R NInf) = Ok (vFin d) /\
  (forall x : list real,
      ~ solves (normal_matrix R N d) (normal_rhs R N (noiseless t o) d) x) /\
  exists e : exn,
    linalg_solve (mFin (normal_matrix R N d))
                 (vFin (normal_rhs R N (noiseless t o) d)) = Raise e /\
    combine_orders linalg_solve minimize self component_name = Raise e.
Proof.
  intros Hsolve [_ Hraise] Hnames HR HN HR1 HN1 Ht Ho HA HW HsW s_b d.
  assert (Hlook : forall v,
             (<["M"%string := v]> s_b) !! "R"%string = Some (VInt R) /\
             (<["M"%string := v]> s_b) !! "N"%string = Some (VInt N) /\
             (<["M"%string := v]> s_b) !! "all_rvs"%string
             = Some (VArr (ND2 (mFin (noiseless t o)))) /\
             (<["M"%string := v]> s_b) !! "all_ivars"%string
             = Some (VArr (ND2 (mFin W)))).
  { intros v. unfold s_b, staged. repeat split.
    - by rewrite !lookup_insert_ne.
    - by rewrite !lookup_insert_ne.
    - rewrite lookup_insert_ne by done. rewrite lookup_insert_ne by done.
      apply lookup_insert_eq.
    - rewrite lookup_insert_ne by done. apply lookup_insert_eq. }
  assert (Hx0 : initial_guess s_b = Ok (replicate R NInf)).
  { apply (initial_guess_additive R N t o Ht Ho HR1 HN1).
    - unfold s_b, staged. rewrite lookup_insert_ne by done.
      apply lookup_insert_eq.
    - unfold s_b, staged. by rewrite !lookup_insert_ne.
    - unfold s_b, staged. by rewrite !lookup_insert_ne. }
  split; [exact Hx0|].
  destruct (Hlook VNone) as (HRc & HNc & HAc & HWc).
  assert (Hd : length d = R * N + 1).
  { unfold d. rewrite length_app, length_replicate. reflexivity. }
  assert (HsA : has_shape R N (noiseless t o)).
  { rewrite <- Ht, <- Ho. apply has_shape_noiseless. }
  assert (Hiv : effective_ivars (<["M"%string := VNone]> s_b)
                                (replicate R NInf) = Ok (vFin d))
    by (by apply (effective_ivars_infinite_sigma _ R N W)).
  split; [by rewrite effective_ivars_cache in Hiv|].
  assert (Hsing : forall x : list real,
             ~ solves (normal_matrix R N d)
                      (normal_rhs R N (noiseless t o) d) x).
  { intros x. apply (normal_matrix_singular R N _ x HN1).
    apply length_normal_rhs. }
  split; [exact Hsing|].
  destruct (linalg_solve (mFin (normal_matrix R N d))
              (vFin (normal_rhs R N (noiseless t o) d))) as [fx|e] eqn:E.
  { exfalso.
    destruct (Hsolve (N + R) (normal_matrix R N d)
                (normal_rhs R N (noiseless t o) d)) as [_ Hback].
    { by apply has_shape_normal_matrix. }
    { apply length_normal_rhs. }
    destruct (Hback fx E) as (x & _ & Hx). by apply (Hsing x). }
  exists e. split; [reflexivity|].
  assert (Hobj : opposite_lnlike_sigmas linalg_solve (replicate R NInf)
                   (<["M"%string := VNone]> s_b) = Raise e).
  { unfold opposite_lnlike_sigmas.
    rewrite (lnlike_sigmas_prefix_gen linalg_solve _ R N (noiseless t o) d);
      try done.
    2:{ exists VNone. split; [apply lookup_insert_eq|by left]. }
    2:{ apply length_replicate. }
    by rewrite E. }
  unfold combine_orders.
  rewrite (get_attr_lookup _ _ _ Hnames). cbn [mbind result_bind].
  rewrite !append_assoc.
  change ("_" +:+ "rvs")%string with "_rvs"%string.
  change ("_" +:+ "ivars")%string with "_ivars"%string.
  rewrite (get_attr_lookup _ _ _ HA). cbn [mbind result_bind asarray].
  rewrite (get_attr_lookup _ _ (VArr (ND2 (mFin W)))).
  2:{ rewrite lookup_insert_ne; [done|].
      intros E'. by apply (ivars_key_not_all_rvs component_name). }
  cbn [mbind result_bind asarray]. unfold s_b, staged in Hx0, Hobj.
  rewrite Hx0. cbn [mbind result_bind]. by rewrite (Hraise _ _ _ e Hobj).
Qed.

Lemma combine_orders_fails_on_additive_data_witness :
  combine_orders lapack_solve minimize_at_start
    (component_object 2 2 "star"
       (VArr (ND2 (mFin (noiseless [0; 5]%R [1; -1]%R))))
       (VArr (ND2 (mFin unit_ivars))))
    "star"
  = Raise LinAlgError.
Proof.
  destruct (combine_orders_fails_on_additive_data lapack_solve
              minimize_at_start
              (component_object 2 2 "star"
                 (VArr (ND2 (mFin (noiseless [0; 5]%R [1; -1]%R))))
                 (VArr (ND2 (mFin unit_ivars))))
              "star" (VList [VStr "star"]) 2 2 [0; 5]%R [1; -1]%R unit_ivars)
    as (_ & _ & Hsing & e & Hsolve & Hrun).
  - exact lapack_solve_spec.
  - exact minimize_at_start_spec.
  - reflexivity.
  - reflexivity.
  - reflexivity.
  - lia.
  - lia.
  - reflexivity.
  - reflexivity.
  - reflexivity.
  - reflexivity.
  - split; [reflexivity|]. by repeat constructor.
  - rewrite (lapack_solve_singular (2 + 2)) in Hsolve.
    + injection Hsolve as <-. exact Hrun.
    + by apply has_shape_normal_matrix.
    + apply length_normal_rhs.
    + exact Hsing.
Defined.

(* ===================================================================== *)
(** * More on the cache, the design and the shapes of the data *)
(* ===================================================================== *)

(** X18. When the cache holds the design matrix of the current R and N,
    forcing a rebuild changes nothing: [lnlike_sigmas] with restart = True
    returns what it returns with restart = False, value and object. *)
Theorem restart_immaterial_with_valid_cache
    (linalg_solve : matrix -> vector -> result vector)
    (self : Results) (R N : nat) (sigmas : vector) (return_rvs : bool) :
  self !! "R"%string = Some (VInt R) ->
  self !! "N"%string = Some (VInt N) ->
  self !! "M"%string = Some (VArr (ND2 (design_rows R N))) ->
  lnlike_sigmas linalg_solve self sigmas return_rvs true
  = lnlike_sigmas linalg_solve self sigmas return_rvs false.
Proof.
  intros HR HN HM. unfold lnlike_sigmas, design_with_constraint.
  rewrite (get_design_matrix_cached self true R N HR HN).
  2:{ eexists. split; [exact HM|]. left. apply orb_true_r. }
  rewrite (get_design_matrix_cached self false R N HR HN).
  2:{ eexists. split; [exact HM|]. by right. }
  reflexivity.
Qed.

Lemma restart_immaterial_with_valid_cache_witness :
  lnlike_sigmas lapack_solve
    (cached_object 2 2 (ND2 (mFin demo_rvs)) (ND2 (mFin unit_ivars)))
    (vFin [1; 1]%R) true true
  = lnlike_sigmas lapack_solve
      (cached_object 2 2 (ND2 (mFin demo_rvs)) (ND2 (mFin unit_ivars)))
      (vFin [1; 1]%R) true false.
Proof.
  apply (restart_immaterial_with_valid_cache lapack_solve _ 2 2); reflexivity.
Defined.

Lemma flatten_noiseless_opposite (R N : nat) (c : real) :
  flatten (noiseless (replicate N c) (replicate R (- c)%R))
  = replicate (R * N) 0%R.
Proof.
  unfold flatten, noiseless. rewrite <- concat_replicate_replicate. f_equal.
  rewrite (map_const_replicate _ (replicate N 0%R)).
  - by rewrite length_replicate.
  - apply Forall_forall. intros o_r Ho. apply elem_of_replicate in Ho as [-> _].
    rewrite (map_const_replicate _ 0%R).
    + by rewrite length_replicate.
    + apply Forall_forall. intros t_n Ht.
      apply elem_of_replicate in Ht as [-> _]. lra.
Qed.

(** X19. The matrix that [get_design_matrix] returns cannot tell a common
    shift of the time RVs from the opposite shift of the order RVs: it
    maps (c, ..., c, -c, ..., -c) to zero for every c. The constraint row
    that the solver appends maps this vector to -c. *)
Theorem design_matrix_null_direction
    (self : Results) (restart : bool) (R N : nat) (c : real) :
  self !! "R"%string = Some (VInt R) ->
  self !! "N"%string = Some (VInt N) ->
  1 <= R ->
  design_cache_ok self restart R N ->
  exists (M : list (list real)) (self' : Results),
    get_design_matrix self restart = Ok (mFin M, self') /\
    matvec M (replicate N c ++ replicate R (- c)%R) = replicate (R * N) 0%R /\
    dot (constraint_row R N (1 / INR R)%R)
        (replicate N c ++ replicate R (- c)%R) = (- c)%R.
Proof.
  intros HR HN HR1 Hc.
  exists (design_rows R N). eexists. split; [|split].
  - rewrite (get_design_matrix_cached self restart R N HR HN Hc).
    by rewrite <- design_rows_mFin.
  - rewrite (matvec_design_rows R N) by apply length_replicate.
    apply flatten_noiseless_opposite.
  - rewrite (dot_constraint_row R N) by apply length_replicate.
    rewrite nsum_replicate. field. apply not_0_INR. lia.
Qed.

Lemma design_matrix_null_direction_witness :
  exists (M : list (list real)) (self' : Results),
    get_design_matrix demo_object false = Ok (mFin M, self') /\
    matvec M (replicate 2 3%R ++ replicate 2 (- 3)%R) = replicate (2 * 2) 0%R /\
    dot (constraint_row 2 2 (1 / INR 2)%R)
        (replicate 2 3%R ++ replicate 2 (- 3)%R) = (- 3)%R.
Proof.
  apply (design_matrix_null_direction demo_object false 2 2 3%R).
  - reflexivity.
  - reflexivity.
  - lia.
  - apply solver_object_cache.
Defined.

(** X20. RVs whose shape does not broadcast against (R, N) are refused by
    numpy while the initial guess is formed, before the optimizer is
    called: a number of columns that does not broadcast against [N] fails
    at the first subtraction (line 148); when the columns broadcast, a
    number of rows that does not broadcast against [R] fails at the sum of
    the predictions (line 149). In both cases [combine_orders] raises
    ValueError, whatever the optimizer. *)
Theorem combine_orders_rejects_unbroadcastable_rvs
    (linalg_solve : matrix -> vector -> result vector)
    (minimize : objective -> vector -> Results -> result (vector * Results))
    (self : Results) (component_name : string) (names : value)
    (R N R' N' : nat) (A : matrix) (W : ndarray) :
  self !! "component_names"%string = Some names ->
  self !! "R"%string = Some (VInt R) ->
  self !! "N"%string = Some (VInt N) ->
  self !! (component_name +:+ "_rvs") = Some (VArr (ND2 A)) ->
  self !! (component_name +:+ "_ivars") = Some (VArr W) ->
  has_shape R' N' A -> 1 <= R' ->
  bcast_dim N' N = None \/ bcast_dim R' R = None ->
  let x0_order_rvs := tile_columns (map median A) N in
  (bcast_dim N' N = None ->
   bcast2 fsub A x0_order_rvs = Raise ValueError) /\
  (bcast_dim N' N <> None ->
   exists d : matrix,
     bcast2 fsub A x0_order_rvs = Ok d /\
     bcast2 fadd x0_order_rvs (tile_rows (map median (transpose d)) R)
     = Raise ValueError) /\
  initial_guess (staged self (ND2 A) W) = Raise ValueError /\
  combine_orders linalg_solve minimize self component_name
  = Raise ValueError.
Proof.
  intros Hnames HR HN HA HW Hsh HR1 Hbad x0_order_rvs.
  assert (Hmed : length (map median A) = R').
  { rewrite length_map. apply Hsh. }
  assert (Ht : has_shape R' N x0_order_rvs)
    by (by apply has_shape_tile_columns).
  assert (H148 : bcast_dim N' N = None ->
                 bcast2 fsub A x0_order_rvs = Raise ValueError).
  { intros Hcols. apply bcast2_raise. right.
    rewrite (ncols_has_shape R' N' A Hsh) by lia.
    unfold x0_order_rvs. by rewrite ncols_tile_columns by lia. }
  assert (H149 : bcast_dim N' N <> None ->
                 exists d : matrix,
                   bcast2 fsub A x0_order_rvs = Ok d /\
                   bcast2 fadd x0_order_rvs
                          (tile_rows (map median (transpose d)) R)
                   = Raise ValueError).
  { intros Hcols. destruct (bcast_dim N' N) as [n|] eqn:En; [|done].
    destruct Hbad as [Hbad|Hrows]; [done|].
    eexists. split.
    - apply (bcast2_broadcast fsub A x0_order_rvs R' N' R' N R' n);
        try done. apply bcast_dim_same.
    - apply bcast2_raise. left. unfold nrows, x0_order_rvs, tile_columns,
        tile_rows. by rewrite length_map, Hmed, length_replicate. }
  split; [exact H148|]. split; [exact H149|].
  set (s_b := staged self (ND2 A) W).
  assert (HAb : s_b !! "all_rvs"%string = Some (VArr (ND2 A))).
  { unfold s_b, staged. rewrite lookup_insert_ne by done.
    apply lookup_insert_eq. }
  assert (HRb : s_b !! "R"%string = Some (VInt R))
    by (unfold s_b, staged; by rewrite !lookup_insert_ne).
  assert (HNb : s_b !! "N"%string = Some (VInt N))
    by (unfold s_b, staged; by rewrite !lookup_insert_ne).
  assert (Hguess : initial_guess s_b = Raise ValueError).
  { unfold initial_guess.
    rewrite (get_array_lookup _ _ _ HAb), (get_int_lookup _ _ _ HNb).
    cbn [mbind result_bind nd_matrix]. fold x0_order_rvs.
    destruct (bcast_dim N' N) as [n|] eqn:En.
    - destruct H149 as (d & -> & Hsum); [done|].
      cbn [mbind result_bind]. rewrite (get_int_lookup _ _ _ HRb).
      cbn [mbind result_bind]. by rewrite Hsum.
    - by rewrite H148. }
  split; [exact Hguess|].
  unfold combine_orders.
  rewrite (get_attr_lookup _ _ _ Hnames). cbn [mbind result_bind].
  rewrite !append_assoc.
  change ("_" +:+ "rvs")%string with "_rvs"%string.
  change ("_" +:+ "ivars")%string with "_ivars"%string.
  rewrite (get_attr_lookup _ _ _ HA). cbn [mbind result_bind asarray].
  rewrite (get_attr_lookup _ _ (VArr W)).
  2:{ rewrite lookup_insert_ne; [done|].
      intros E. by apply (ivars_key_not_all_rvs component_name). }
  cbn [mbind result_bind asarray]. unfold s_b, staged in Hguess.
  by rewrite Hguess.
Qed.

Lemma combine_orders_rejects_unbroadcastable_rvs_witness :
  combine_orders lapack_solve minimize_at_start
    (component_object 2 2 "star" (VArr (ND2 wide_ivars))
                      (VArr (ND2 (mFin unit_ivars))))
    "star"
  = Raise ValueError /\
  combine_orders lapack_solve minimize_at_start
    (component_object 2 2 "star" (VArr (ND2 [[Fin 1]; [Fin 2]; [Fin 3]]))
                      (VArr (ND2 (mFin unit_ivars))))
    "star"
  = Raise ValueError.
Proof.
  split.
  - apply (combine_orders_rejects_unbroadcastable_rvs lapack_solve
             minimize_at_start _ "star" (VList [VStr "star"]) 2 2 1 3
             wide_ivars (ND2 (mFin unit_ivars))).
    + reflexivity.
    + reflexivity.
    + reflexivity.
    + reflexivity.
    + reflexivity.
    + split; [reflexivity|]. by repeat constructor.
    + lia.
    + left. reflexivity.
  - apply (combine_orders_rejects_unbroadcastable_rvs lapack_solve
             minimize_at_start _ "star" (VList [VStr "star"]) 2 2 3 1
             [[Fin 1]; [Fin 2]; [Fin 3]] (ND2 (mFin unit_ivars))).
    + reflexivity.
    + reflexivity.
    + reflexivity.
    + reflexivity.
    + reflexivity.
    + split; [reflexivity|]. by repeat constructor.
    + lia.
    + right. reflexivity.
Defined.

(** X21. With orders but no epoch (N = 0, RVs of shape (R, 0)) the initial
    guess is formed without an exception, the first evaluation of the
    objective finds a design matrix without rows, and [combine_orders]
    raises IndexError, for every optimizer that evaluates its starting
    point first. *)
Theorem combine_orders_without_epochs
    (linalg_solve : matrix -> vector -> result vector)
    (minimize : objective -> vector -> Results -> result (vector * Results))
    (self : Results) (component_name : string) (names : value)
    (R : nat) (W : ndarray) :
  minimize_spec minimize ->
  self !! "component_names"%string = Some names ->
  self !! "R"%string = Some (VInt R) ->
  self !! "N"%string = Some (VInt 0) ->
  1 <= R ->
  self !! (component_name +:+ "_rvs") = Some (VArr (ND2 (replicate R []))) ->
  self !! (component_name +:+ "_ivars") = Some (VArr W) ->
  combine_orders linalg_solve minimize self component_name
  = Raise IndexError.
Proof.
  intros [_ Hraise] Hnames HR HN HR1 HA HW. unfold combine_orders.
  rewrite (get_attr_lookup _ _ _ Hnames). cbn [mbind result_bind].
  rewrite !append_assoc.
  change ("_" +:+ "rvs")%string with "_rvs"%string.
  change ("_" +:+ "ivars")%string with "_ivars"%string.
  rewrite (get_attr_lookup _ _ _ HA). cbn [mbind result_bind asarray].
  rewrite (get_attr_lookup _ _ (VArr W)).
  2:{ rewrite lookup_insert_ne; [done|].
      intros E. by apply (ivars_key_not_all_rvs component_name). }
  cbn [mbind result_bind asarray].
  set (s_b := <["all_ivars"%string := VArr W]>
                (<["all_rvs"%string := VArr (ND2 (replicate R []))]> self)).
  destruct (initial_guess_length s_b R 0 (replicate R [])) as (x0 & Hx0 & Hlen);
    try done.
  { unfold s_b. rewrite lookup_insert_ne by done. apply lookup_insert_eq. }
  { unfold s_b. by rewrite !lookup_insert_ne. }
  { unfold s_b. by rewrite !lookup_insert_ne. }
  { split; [apply length_replicate|]. by apply Forall_replicate. }
  rewrite Hx0. cbn [mbind result_bind].
  rewrite (Hraise _ _ _ IndexError); [reflexivity|].
  unfold opposite_lnlike_sigmas, lnlike_sigmas.
  rewrite (get_int_lookup _ "R" R) by (unfold s_b; by rewrite !lookup_insert_ne).
  cbn [mbind result_bind]. rewrite Hlen, Nat.eqb_refl. cbn [negb].
  unfold design_with_constraint.
  rewrite (get_design_matrix_build _ false R 0 VNone).
  - cbn [mbind result_bind]. rewrite design_rows_empty by lia. reflexivity.
  - unfold s_b. by rewrite !lookup_insert_ne.
  - unfold s_b. by rewrite !lookup_insert_ne.
  - apply lookup_insert_eq.
  - reflexivity.
Qed.

Lemma combine_orders_without_epochs_witness :
  combine_orders lapack_solve minimize_at_start
    (component_object 2 0 "star" (VArr (ND2 (replicate 2 [])))
                      (VArr (ND2 (replicate 2 []))))
    "star"
  = Raise IndexError.
Proof.
  apply (combine_orders_without_epochs lapack_solve minimize_at_start
           _ "star" (VList [VStr "star"]) 2 (ND2 (replicate 2 []))).
  - exact minimize_at_start_spec.
  - reflexivity.
  - reflexivity.
  - reflexivity.
  - lia.
  - reflexivity.
  - reflexivity.
Defined.

(* ===================================================================== *)
(** * The solution is the best fit *)
(* ===================================================================== *)

Section BestFit.
Local Open Scope R_scope.

Lemma nsum_zip_minus (p q : list real) :
  length p = length q ->
  nsum (zip_with Rminus p q) = nsum p - nsum q.
Proof.
  revert q. induction p as [|a p IH]; intros [|b q] Hl; try discriminate.
  - cbn. ring.
  - cbn [zip_with].
    change (nsum (?x :: ?l)) with (x + nsum l).
    rewrite IH by (cbn in Hl; lia). ring.
Qed.

Lemma weighted_square_dot (d r : list real) :
  nsum (zip_with Rmult (zip_with Rmult r d) r)
  = dot r (zip_with Rmult d r).
Proof.
  unfold dot. change (@nmul real R_num) with Rmult. f_equal.
  revert d. induction r as [|a r IH]; intros [|b d]; try done.
  cbn [zip_with]. rewrite IH. f_equal. ring.
Qed.

(** line 179 as a weighted sum of squares less a term of the precisions *)
Lemma lnlike_float_quadratic (d r : list real) :
  Forall (fun a => 0 < a) d -> length r = length d ->
  lnlike_float d r
  = Fin (-0.5 * (dot r (zip_with Rmult d r)
                 - nsum (map (fun a => ln (2 * PI * a)) d))).
Proof.
  intros Hpos Hl. unfold lnlike_float.
  rewrite (log_terms_finite d Hpos).
  rewrite (zip_with_vFin fsub Rminus) by done.
  rewrite nsum_vFin. cbn [fmul]. f_equal. f_equal.
  rewrite nsum_zip_minus.
  - by rewrite weighted_square_dot.
  - rewrite !length_zip_with, length_map. lia.
Qed.

Lemma dot_minus_l (u v w : list real) :
  length u = length v ->
  dot (zip_with Rminus u v) w = dot u w - dot v w.
Proof. intros Hl. rewrite dot_comm, dot_minus by done.
  by rewrite (dot_comm w u), (dot_comm w v). Qed.

Lemma zip_mult_minus (d p q : list real) :
  zip_with Rmult d (zip_with Rminus p q)
  = zip_with Rminus (zip_with Rmult d p) (zip_with Rmult d q).
Proof.
  revert p q. induction d as [|a d IH]; intros [|b p] [|c q]; try done.
  cbn [zip_with]. rewrite IH. f_equal. ring.
Qed.

Lemma weighted_dot_sym (d u v : list real) :
  dot u (zip_with Rmult d v) = dot v (zip_with Rmult d u).
Proof.
  revert d v. induction u as [|a u IH]; intros [|b d] [|c v];
    cbn [zip_with]; rewrite ?dot_nil_l, ?dot_nil_r; try reflexivity.
  rewrite !dot_cons, IH. ring.
Qed.

(** the square of a difference *)
Lemma weighted_square_minus (d r g : list real) :
  length r = length g -> length d = length g ->
  dot (zip_with Rminus r g) (zip_with Rmult d (zip_with Rminus r g))
  = dot r (zip_with Rmult d r) - 2 * dot g (zip_with Rmult d r)
    + dot g (zip_with Rmult d g).
Proof.
  intros Hr Hd. rewrite zip_mult_minus.
  rewrite dot_minus by (rewrite !length_zip_with; lia).
  rewrite !dot_minus_l by done.
  rewrite (weighted_dot_sym d r g). ring.
Qed.

Lemma zip_minus_minus (y a b : list real) :
  length y = length a -> length a = length b ->
  zip_with Rminus y b
  = zip_with Rminus (zip_with Rminus y a) (zip_with Rminus b a).
Proof.
  revert a b. induction y as [|c y IH]; intros [|a0 a] [|b0 b] H1 H2;
    try discriminate; [done|].
  cbn [zip_with]. rewrite (IH a b) by (cbn in *; lia). f_equal. ring.
Qed.

Variables (R N : nat) (A : list (list real)) (d x : list real).
Hypothesis HA : has_shape R N A.
Hypothesis Hd : length d = (R * N + 1)%nat.
Hypothesis Hpos : Forall (fun a => 0 < a) d.
Hypothesis Hx : solves (normal_matrix R N d) (normal_rhs R N A d) x.

(** the weighted residuals of the solution are orthogonal to the columns
    of the design matrix *)
Lemma residual_orthogonal (h : list real) :
  dot (matvec (exact_design R N) h)
      (zip_with Rmult d (exact_resid R N A x)) = 0.
Proof.
  destruct Hx as (Hl & Heq & _). rewrite length_normal_rhs in Hl.
  pose proof (has_shape_exact_design R N) as [HM1 HM2].
  rewrite <- (dot_matvec_transpose (N + R)) by done.
  rewrite <- transpose_exact_design.
  unfold exact_resid. rewrite zip_mult_minus.
  rewrite matvec_minus.
  2:{ rewrite !length_zip_with, (length_exact_ys R N), length_matvec by done.
      lia. }
  rewrite <- (matvec_normal_matrix R N d Hd x), Heq.
  fold (normal_rhs R N A d). rewrite zip_minus_self.
  apply dot_replicate_0_r.
Qed.

Lemma solution_is_best_fit (x' : list real) :
  length x' = (N + R)%nat ->
  dot (exact_resid R N A x) (zip_with Rmult d (exact_resid R N A x))
  <= dot (exact_resid R N A x') (zip_with Rmult d (exact_resid R N A x')).
Proof.
  intros Hx'. pose proof Hx as (Hl & _ & _).
  rewrite length_normal_rhs in Hl.
  pose proof (has_shape_exact_design R N) as [HM1 HM2].
  set (g := matvec (exact_design R N) (zip_with Rminus x' x)).
  assert (Hg : length g = (R * N + 1)%nat)
    by (unfold g; by rewrite length_matvec).
  assert (Hr : length (exact_resid R N A x) = (R * N + 1)%nat).
  { unfold exact_resid.
    rewrite length_zip_with, (length_exact_ys R N), length_matvec by done.
    lia. }
  assert (Hres : exact_resid R N A x'
                 = zip_with Rminus (exact_resid R N A x) g).
  { unfold exact_resid, g. rewrite matvec_minus by lia.
    apply zip_minus_minus.
    - by rewrite (length_exact_ys R N), length_matvec.
    - by rewrite !length_matvec. }
  rewrite Hres, weighted_square_minus by lia.
  unfold g at 1. rewrite residual_orthogonal.
  pose proof (weighted_square_nonneg d g Hpos). lra.
Qed.
End BestFit.

(** X22. The RVs the solver returns are the best fit: for finite data,
    strictly positive precisions and a finite noise vector, the
    log-likelihood it returns is at least the value of line 179 at the
    residuals of any other vector of N time RVs and R order RVs. *)
Theorem returned_rvs_maximise_likelihood
    (linalg_solve : matrix -> vector -> result vector)
    (self self' : Results) (R N : nat) (A W : list (list real))
    (s : list real) (restart : bool)
    (lnlike : float64) (rvs_N rvs_R : vector) (x' : list real) :
  linalg_solve_spec linalg_solve ->
  solver_input self R N A W ->
  design_cache_ok self restart R N ->
  length s = R ->
  Forall (Forall (fun w => (0 < w)%R)) W ->
  lnlike_sigmas linalg_solve self (vFin s) true restart
  = Ok (LnlikeRvs lnlike rvs_N rvs_R, self') ->
  length x' = N + R ->
  fle (lnlike_float (exact_ivars W s) (exact_resid R N A x')) lnlike = true.
Proof.
  intros Hsolve Hin Hc Hs Hpos Hrun Hx'.
  assert (Hnn : Forall (Forall (fun w => (0 <= w)%R)) W).
  { eapply Forall_impl; [exact Hpos|]. intros r Hr.
    eapply Forall_impl; [exact Hr|]. intros w Hw. cbn in Hw. lra. }
  destruct (lnlike_sigmas_inv linalg_solve Hsolve self R N A W s true restart
              Hin Hc Hs Hnn _ _ Hrun) as (x & Hx & Hv & _).
  cbv zeta in Hx. unfold lnlike_at in Hv. cbv zeta in Hv.
  injection Hv as -> _ _.
  pose proof Hin as [_ _ HR1 HN1 _ _ HsA HsW].
  pose proof (length_exact_ivars R N W s HsW Hs) as Hd.
  pose proof (exact_ivars_pos W s Hpos) as Hdpos.
  pose proof (has_shape_exact_design R N) as [HM1 HM2].
  pose proof Hx as (Hl & _ & _). rewrite length_normal_rhs in Hl.
  assert (Hlen : forall y, length y = N + R ->
                           length (exact_resid R N A y)
                           = length (exact_ivars W s)).
  { intros y Hy. unfold exact_resid.
    rewrite length_zip_with, (length_exact_ys R N), length_matvec by done.
    lia. }
  rewrite !lnlike_float_quadratic by (done || by apply Hlen).
  cbn [fle]. destruct (Rle_dec _ _) as [_|Hn]; [done|]. exfalso. apply Hn.
  pose proof (solution_is_best_fit R N A (exact_ivars W s) x HsA Hd Hdpos
                Hx x' Hx').
  lra.
Qed.

Lemma returned_rvs_maximise_likelihood_witness :
  fle (lnlike_float (exact_ivars unit_ivars [1; 1]%R)
                    (exact_resid 2 2 demo_rvs [1; 1; 1; 1]%R))
      (lnlike_float (exact_ivars unit_ivars [1; 1]%R)
                    (exact_resid 2 2 demo_rvs demo_fit))
  = true.
Proof.
  apply (returned_rvs_maximise_likelihood lapack_solve demo_object
           (<["M"%string := VArr (ND2 (design_rows 2 2))]> demo_object)
           2 2 demo_rvs unit_ivars [1; 1]%R false _
           (vFin (take 2 demo_fit)) (vFin (drop 2 demo_fit))
           [1; 1; 1; 1]%R).
  - exact lapack_solve_spec.
  - exact demo_solver_input.
  - apply solver_object_cache.
  - reflexivity.
  - repeat constructor; lra.
  - apply (demo_lnlike_sigmas demo_object false true 1%R demo_solver_input).
    apply solver_object_cache.
  - reflexivity.
Defined.

Lemma noiseless_single_order (t : list real) : noiseless t [0%R] = [t].
Proof.
  unfold noiseless. cbn [map]. f_equal.
  rewrite <- (map_id t) at 2. apply map_ext. intros a. lra.
Qed.

(** X23. With a single order there is nothing to combine: in exact
    arithmetic, for any strictly positive precisions and any finite noise
    parameter, the solver returns the RVs of that order as time RVs, and 0
    as its order RV. (In float64 the solve rounds, and the square of the
    noise parameter can overflow.) *)
Theorem single_order_is_returned
    (linalg_solve : matrix -> vector -> result vector)
    (self : Results) (N : nat) (row : list real) (W : list (list real))
    (s0 : real) (restart : bool) :
  linalg_solve_spec linalg_solve ->
  solver_input self 1 N [row] W ->
  design_cache_ok self restart 1 N ->
  Forall (Forall (fun w => (0 < w)%R)) W ->
  exists (lnlike : float64) (self' : Results),
    lnlike_sigmas linalg_solve self (vFin [s0]) true restart
    = Ok (LnlikeRvs lnlike (vFin row) [Fin 0], self').
Proof.
  intros Hsolve Hin Hc Hpos.
  assert (Hnn : Forall (Forall (fun w => (0 <= w)%R)) W).
  { eapply Forall_impl; [exact Hpos|]. intros r Hr.
    eapply Forall_impl; [exact Hr|]. intros w Hw. cbn in Hw. lra. }
  pose proof Hin as [_ _ HR1 HN1 _ _ HsA HsW].
  assert (Hrow : length row = N).
  { destruct HsA as [_ Hall]. by apply Forall_cons in Hall as [? _]. }
  set (d := exact_ivars W [s0]).
  assert (Hd : length d = 1 * N + 1) by (by apply length_exact_ivars).
  assert (Hx : solves (normal_matrix 1 N d) (normal_rhs 1 N [row] d)
                      (row ++ [0%R])).
  { split; [rewrite length_normal_rhs, length_app; cbn; lia|]. split.
    - rewrite <- (noiseless_single_order row).
      apply normal_equations_noiseless; try done. cbn. lra.
    - rewrite length_normal_rhs.
      apply (normal_matrix_nonsingular 1 N d); try done.
      by apply exact_ivars_pos. }
  rewrite (lnlike_sigmas_solved linalg_solve Hsolve self 1 N [row] W [s0]
             true restart Hin Hc eq_refl Hnn (row ++ [0%R]) Hx).
  unfold lnlike_at. cbv zeta.
  rewrite (take_app_length' row [0%R] N), (drop_app_length' row [0%R] N)
    by done.
  by do 2 eexists.
Qed.

Lemma single_order_is_returned_witness :
  exists (lnlike : float64) (self' : Results),
    lnlike_sigmas lapack_solve
      (solver_object 1 3 (ND2 (mFin [[5; 6; 7]%R]))
                     (ND2 (mFin [[1; 2; 3]%R])))
      (vFin [4%R]) true false
    = Ok (LnlikeRvs lnlike (vFin [5; 6; 7]%R) [Fin 0], self').
Proof.
  apply (single_order_is_returned lapack_solve _ 3 [5; 6; 7]%R
           [[1; 2; 3]%R] 4%R false).
  - exact lapack_solve_spec.
  - apply solver_object_input; try lia; split; try done; by repeat constructor.
  - apply solver_object_cache.
  - repeat constructor; lra.
Defined.
